(** * The gamebook ingestion and repair pipeline, embedded in Rocq

    The Python scripts that turn extracted page text into the story graph
    ([repair_story_text.py], [build_story.py], [parse.py]), check it
    ([validate.py], [lint_story.py]) and load it at run time ([story.py])
    are translated function by function.  Conventions of the embedding:

    - a Python [str] is a [string] of code points below 128; the character
      predicates ([isdigit], [isalpha], [isspace], [lower], the regex
      classes) are the ones Python has on that range;
    - a Python [int] is a [Z]; [dict]s and [set]s keyed by numbers or
      strings are [gmap]s and [gset]s where only membership and lookup are
      observed, and lists of entries where the order of insertion is;
    - a loop that mutates its objects in place is a function that threads
      the mutated state;
    - presentational fields of a node ([ascii_art]) and the pass-through
      maps [requires], [effects], [random_event_pool], which no stage here
      reads, are left out of the node records unless a function rebuilds
      them. *)

From stdpp Require Import gmap strings list fin_maps pretty sorting.
From Stdlib Require Import ZArith Ascii QArith.

Open Scope Z_scope.

(** * Python text primitives *)
Module Py.

Definition code (c : ascii) : N := N_of_ascii c.

Definition in_range (lo hi : N) (c : ascii) : bool :=
  ((lo <=? code c) && (code c <=? hi))%N.

Definition isdigit (c : ascii) : bool := in_range 48 57 c.
Definition isupper (c : ascii) : bool := in_range 65 90 c.
Definition islower (c : ascii) : bool := in_range 97 122 c.
Definition isalpha (c : ascii) : bool := isupper c || islower c.
Definition isalnum (c : ascii) : bool := isalpha c || isdigit c.

(** [str.isspace], [str.strip()], [str.split()] and the regex class [\s]
    agree below 128: tab, LF, VT, FF, CR, the separators 28..31 and the
    space. *)
Definition isspace (c : ascii) : bool :=
  in_range 9 13 c || in_range 28 31 c || (code c =? 32)%N.

(** The regex class [\w] below 128. *)
Definition isword (c : ascii) : bool :=
  isalnum c || (code c =? 95)%N.

Definition lower_c (c : ascii) : ascii :=
  if isupper c then ascii_of_N (code c + 32) else c.
Definition upper_c (c : ascii) : ascii :=
  if islower c then ascii_of_N (code c - 32) else c.

Fixpoint smap (f : ascii → ascii) (s : string) : string :=
  match s with
  | EmptyString => EmptyString
  | String c t => String (f c) (smap f t)
  end.

(** [s.lower()] *)
Definition lower : string → string := smap lower_c.

(** [s.capitalize()] *)
Definition capitalize (s : string) : string :=
  match s with
  | EmptyString => EmptyString
  | String c t => String (upper_c c) (lower t)
  end.

(** [sum(1 for ch in s if p(ch))] *)
Fixpoint count (p : ascii → bool) (s : string) : nat :=
  match s with
  | EmptyString => O
  | String c t => ((if p c then 1 else 0) + count p t)%nat
  end.

Fixpoint all (p : ascii → bool) (s : string) : bool :=
  match s with
  | EmptyString => true
  | String c t => p c && all p t
  end.

(** [s.isdigit()]: at least one character, all of them digits. *)
Definition str_isdigit (s : string) : bool :=
  match s with
  | EmptyString => false
  | String _ _ => all isdigit s
  end.

Fixpoint lstrip_by (p : ascii → bool) (s : string) : string :=
  match s with
  | String c t => if p c then lstrip_by p t else s
  | EmptyString => EmptyString
  end.

Definition rstrip_by (p : ascii → bool) (s : string) : string :=
  String.rev (lstrip_by p (String.rev s)).

Definition strip_by (p : ascii → bool) (s : string) : string :=
  rstrip_by p (lstrip_by p s).

(** [s.strip()], [s.rstrip()] *)
Definition strip : string → string := strip_by isspace.
Definition rstrip : string → string := rstrip_by isspace.

Fixpoint mem (c : ascii) (chars : string) : bool :=
  match chars with
  | EmptyString => false
  | String d t => if Ascii.eqb c d then true else mem c t
  end.

(** [s.strip(chars)] *)
Definition strip_chars (chars : string) : string → string :=
  strip_by (λ c, mem c chars).

(** [s.startswith(pre)] *)
Fixpoint startswith (s pre : string) : bool :=
  match pre, s with
  | EmptyString, _ => true
  | String p pre', String c s' => Ascii.eqb p c && startswith s' pre'
  | String _ _, EmptyString => false
  end.

(** [sub in s] *)
Fixpoint contains (s sub : string) : bool :=
  startswith s sub ||
  match s with
  | EmptyString => false
  | String _ t => contains t sub
  end.

(** [any(term in s for term in terms)] *)
Definition contains_any (s : string) (terms : list string) : bool :=
  existsb (contains s) terms.

(** [s[:n]] *)
Fixpoint str_take (n : nat) (s : string) : string :=
  match n, s with
  | S n', String c t => String c (str_take n' t)
  | _, _ => EmptyString
  end.

(** [s.replace(old, new)] for a non-empty [old]: [skip] characters of a
    replaced occurrence are still to be passed over. *)
Fixpoint replace_go (old new : string) (skip : nat) (s : string) : string :=
  match s with
  | EmptyString => EmptyString
  | String c t =>
      match skip with
      | S k => replace_go old new k t
      | O =>
          if startswith s old
          then new +:+ replace_go old new (String.length old - 1) t
          else String c (replace_go old new O t)
      end
  end.

Definition replace (old new s : string) : string := replace_go old new O s.

(** [s.split(sep)] for a one-character separator. *)
Fixpoint split_go (sep : ascii) (cur : string) (s : string) : list string :=
  match s with
  | EmptyString => [String.rev cur]
  | String c t =>
      if Ascii.eqb c sep
      then String.rev cur :: split_go sep EmptyString t
      else split_go sep (String c cur) t
  end.

Definition split (sep : ascii) (s : string) : list string :=
  split_go sep EmptyString s.

(** [s.split()]: the maximal runs of non-space characters. *)
Fixpoint words_go (cur : string) (s : string) : list string :=
  match s with
  | EmptyString =>
      match cur with EmptyString => [] | _ => [String.rev cur] end
  | String c t =>
      if isspace c
      then match cur with
           | EmptyString => words_go EmptyString t
           | _ => String.rev cur :: words_go EmptyString t
           end
      else words_go (String c cur) t
  end.

Definition words : string → list string := words_go EmptyString.

(** [sep.join(parts)] *)
Fixpoint join (sep : string) (parts : list string) : string :=
  match parts with
  | [] => EmptyString
  | [p] => p
  | p :: ps => p +:+ sep +:+ join sep ps
  end.

(** [int(s)] on a string of decimal digits. *)
Definition digit_val (c : ascii) : Z := Z.of_N (code c) - 48.

Fixpoint int_digits_go (acc : Z) (s : string) : Z :=
  match s with
  | EmptyString => acc
  | String c t => int_digits_go (10 * acc + digit_val c) t
  end.

Definition int_digits : string → Z := int_digits_go 0.

(** The digits of an [int] literal: single underscores may separate
    them. *)
Fixpoint digits_ok (after_sep : bool) (s : string) : bool :=
  match s with
  | EmptyString => negb after_sep
  | String c t =>
      if isdigit c then digits_ok false t
      else if Ascii.eqb c "_" then negb after_sep && digits_ok true t
      else false
  end.

Fixpoint drop_underscores (s : string) : string :=
  match s with
  | EmptyString => EmptyString
  | String c t =>
      if Ascii.eqb c "_" then drop_underscores t
      else String c (drop_underscores t)
  end.

Definition int_body (d : string) : option Z :=
  if digits_ok true d then Some (int_digits (drop_underscores d)) else None.

(** The white space that [int] skips around a number below 128: tab, LF,
    VT, FF, CR and the space.  The separators 28..31, which [str.strip()]
    removes, are not among them: [int] raises on them. *)
Definition int_space (c : ascii) : bool :=
  in_range 9 13 c || (code c =? 32)%N.

(** [int(s)]: surrounding white space and one sign are allowed around the
    digits; anything else raises [ValueError], which is [None] here. *)
Definition int_of_str (s : string) : option Z :=
  match strip_by int_space s with
  | String "-" d => Z.opp <$> int_body d
  | String "+" d => int_body d
  | t => int_body t
  end.

(** [str(n)] *)
Definition str (n : Z) : string := pretty n.

(** [l[-1]] of a list that [split] returned (never empty). *)
Definition last_part (parts : list string) : string :=
  List.last parts EmptyString.

Definition nl : string := String "010" EmptyString.
Definition cr : string := String "013" EmptyString.

(** [s.endswith(suffix)] *)
Definition endswith (s suffix : string) : bool :=
  startswith (String.rev s) (String.rev suffix).

End Py.

(** * The fragment of Python's [re] that the scripts use

    A backtracking matcher with Python's priorities: alternatives left to
    right, greedy repetition longest first, lazy repetition shortest first,
    and the leftmost position that matches at all. *)
Module Re.

Inductive regex : Type :=
| Eps
| Chr (p : ascii → bool)
| Cat (r1 r2 : regex)
| Alt (r1 r2 : regex)
| Rep (r : regex) (lo : nat) (hi : option nat) (greedy : bool)
| Grp (n : nat) (r : regex)
| WordB
| Bol
| Eol.

(** A position in the subject: the character before it, the text from it
    on, its index, and the groups closed so far. *)
Record mstate := MState {
  prev : option ascii;
  rest : string;
  pos : nat;
  caps : list (nat * string)
}.

Definition advance (c : ascii) (t : string) (s : mstate) : mstate :=
  MState (Some c) t (S (pos s)) (caps s).

Definition is_word_opt (o : option ascii) : bool :=
  match o with Some c => Py.isword c | None => false end.

Definition next_char (s : mstate) : option ascii :=
  match rest s with String c _ => Some c | EmptyString => None end.

(** [\b] *)
Definition at_boundary (s : mstate) : bool :=
  xorb (is_word_opt (prev s)) (is_word_opt (next_char s)).

(** [$]: at the end, or before a newline that ends the text. *)
Definition at_end (s : mstate) : bool :=
  match rest s with
  | EmptyString => true
  | String c EmptyString => Ascii.eqb c "010"
  | _ => false
  end.

Section Match.
Context {R : Type}.

Definition orelse (a b : option R) : option R :=
  match a with Some x => Some x | None => b end.

(** [r{lo,hi}]: [lo] iterations are still owed and [budget] more are
    allowed.  Every repeated body in the scripts consumes at least one
    character, so an unbounded loop never needs more iterations than
    characters are left. *)
Fixpoint rep_loop (body : (mstate → option R) → mstate → option R)
    (lo budget : nat) (greedy : bool) (k : mstate → option R)
    (s : mstate) : option R :=
  match budget with
  | O => match lo with O => k s | S _ => None end
  | S b =>
      let more := body (rep_loop body (Nat.pred lo) b greedy k) s in
      match lo with
      | S _ => more
      | O => if greedy then orelse more (k s) else orelse (k s) more
      end
  end.

Fixpoint run (r : regex) (k : mstate → option R) (s : mstate) : option R :=
  match r with
  | Eps => k s
  | Chr p =>
      match rest s with
      | String c t => if p c then k (advance c t s) else None
      | EmptyString => None
      end
  | Cat r1 r2 => run r1 (run r2 k) s
  | Alt r1 r2 => orelse (run r1 k s) (run r2 k s)
  | Rep r' lo hi greedy =>
      let budget :=
        match hi with
        | Some h => h
        | None => (lo + String.length (rest s))%nat
        end in
      rep_loop (run r') lo budget greedy k s
  | Grp n r' =>
      run r' (λ s', k (MState (prev s') (rest s') (pos s')
                  ((n, Py.str_take (pos s' - pos s) (rest s)) :: caps s'))) s
  | WordB => if at_boundary s then k s else None
  | Bol => match pos s with O => k s | S _ => None end
  | Eol => if at_end s then k s else None
  end.
End Match.

(** A match: the text matched, its groups, and the position after it. *)
Record rmatch := RMatch {
  m_text : string;
  m_groups : list (nat * string);
  m_after : mstate
}.

(** [m.group(n)] *)
Definition group (n : nat) (m : rmatch) : string :=
  match List.find (λ g, Nat.eqb (fst g) n) (m_groups m) with
  | Some g => snd g
  | None => EmptyString
  end.

Definition found (s s' : mstate) : rmatch :=
  RMatch (Py.str_take (pos s' - pos s) (rest s)) (caps s')
    (MState (prev s') (rest s') (pos s') []).

(** [pattern.match] at one position. *)
Definition match_at (r : regex) (s : mstate) : option rmatch :=
  run r (λ s', Some (found s s')) (MState (prev s) (rest s) (pos s) []).

Definition start (text : string) : mstate := MState None text O [].

(** [pattern.fullmatch(text)] *)
Definition fullmatch (r : regex) (text : string) : option rmatch :=
  run r (λ s', match rest s' with
               | EmptyString => Some (found (start text) s')
               | String _ _ => None
               end) (start text).

(** [pattern.search]: the leftmost position with a match, and the text
    skipped before it. *)
Fixpoint search_go (r : regex) (skipped : string) (p : option ascii)
    (i : nat) (text : string) : option (string * rmatch) :=
  match match_at r (MState p text i []) with
  | Some m => Some (String.rev skipped, m)
  | None =>
      match text with
      | EmptyString => None
      | String c t => search_go r (String c skipped) (Some c) (S i) t
      end
  end.

Definition search_from (r : regex) (s : mstate) : option (string * rmatch) :=
  search_go r EmptyString (prev s) (pos s) (rest s).

Definition search (r : regex) (text : string) : option rmatch :=
  snd <$> search_from r (start text).

(** One character past an empty match, so that scanning moves on. *)
Definition step_over (s : mstate) : option (string * mstate) :=
  match rest s with
  | EmptyString => None
  | String c t => Some (String c EmptyString, advance c t s)
  end.

(** [pattern.finditer(text)]: the successive non-overlapping matches. *)
Fixpoint finditer_go (fuel : nat) (r : regex) (s : mstate) : list rmatch :=
  match fuel with
  | O => []
  | S fuel' =>
      match search_from r s with
      | None => []
      | Some (_, m) =>
          match m_text m with
          | EmptyString =>
              m :: match step_over (m_after m) with
                   | Some (_, s') => finditer_go fuel' r s'
                   | None => []
                   end
          | String _ _ => m :: finditer_go fuel' r (m_after m)
          end
      end
  end.

Definition finditer (r : regex) (text : string) : list rmatch :=
  finditer_go (S (String.length text)) r (start text).

(** [pattern.sub(repl, text)], the replacement given as a function of the
    match. *)
Fixpoint sub_go (fuel : nat) (r : regex) (repl : rmatch → string)
    (s : mstate) : string :=
  match fuel with
  | O => rest s
  | S fuel' =>
      match search_from r s with
      | None => rest s
      | Some (skipped, m) =>
          match m_text m with
          | EmptyString =>
              match step_over (m_after m) with
              | Some (c, s') =>
                  skipped +:+ repl m +:+ c +:+ sub_go fuel' r repl s'
              | None => skipped +:+ repl m
              end
          | String _ _ =>
              skipped +:+ repl m +:+ sub_go fuel' r repl (m_after m)
          end
      end
  end.

Definition sub (r : regex) (repl : rmatch → string) (text : string) : string :=
  sub_go (S (String.length text)) r repl (start text).

(** [pattern.split(text)] for a pattern without groups. *)
Fixpoint split_go (fuel : nat) (r : regex) (s : mstate) : list string :=
  match fuel with
  | O => [rest s]
  | S fuel' =>
      match search_from r s with
      | None => [rest s]
      | Some (skipped, m) =>
          match m_text m with
          | EmptyString => [rest s]
          | String _ _ => skipped :: split_go fuel' r (m_after m)
          end
      end
  end.

Definition split (r : regex) (text : string) : list string :=
  split_go (S (String.length text)) r (start text).

(** [pattern.findall(text)] for a pattern without groups. *)
Definition findall (r : regex) (text : string) : list string :=
  m_text <$> finditer r text.

(** ** Pattern constructors *)

Definition chr (c : ascii) : regex := Chr (Ascii.eqb c).

(** A literal character under [re.IGNORECASE]. *)
Definition chr_i (c : ascii) : regex :=
  Chr (λ d, Ascii.eqb (Py.lower_c d) (Py.lower_c c)).

Fixpoint lit (s : string) : regex :=
  match s with
  | EmptyString => Eps
  | String c EmptyString => chr c
  | String c t => Cat (chr c) (lit t)
  end.

Fixpoint lit_i (s : string) : regex :=
  match s with
  | EmptyString => Eps
  | String c EmptyString => chr_i c
  | String c t => Cat (chr_i c) (lit_i t)
  end.

Fixpoint cat (rs : list regex) : regex :=
  match rs with
  | [] => Eps
  | [r] => r
  | r :: rs' => Cat r (cat rs')
  end.

Fixpoint alt (rs : list regex) : regex :=
  match rs with
  | [] => Chr (λ _, false)
  | [r] => r
  | r :: rs' => Alt r (alt rs')
  end.

Definition one_of (chars : string) : regex := Chr (λ c, Py.mem c chars).
Definition none_of (chars : string) : regex :=
  Chr (λ c, negb (Py.mem c chars)).
Definition opt (r : regex) : regex := Rep r 0 (Some 1%nat) true.
Definition plus (r : regex) : regex := Rep r 1 None true.
Definition star (r : regex) : regex := Rep r 0 None true.
Definition star_lazy (r : regex) : regex := Rep r 0 None false.
Definition at_least (r : regex) (lo : nat) : regex := Rep r lo None true.
Definition between (r : regex) (lo hi : nat) : regex :=
  Rep r lo (Some hi) true.
Definition between_lazy (r : regex) (lo hi : nat) : regex :=
  Rep r lo (Some hi) false.

Definition space : regex := Chr Py.isspace.
Definition digit : regex := Chr Py.isdigit.
Definition word : regex := Chr Py.isword.
Definition alnum : regex := Chr Py.isalnum.
Definition digit19 : regex := Chr (Py.in_range 49 57).

End Re.

(** * [sorted(xs, key=...)] for the keys the scripts sort by *)
Module PySort.

(** Python's order on pairs of integers. *)
Definition pair_le (p q : Z * Z) : Prop :=
  p.1 < q.1 ∨ (p.1 = q.1 ∧ p.2 ≤ q.2).

#[global] Instance pair_le_dec : RelDecision pair_le.
Proof. intros p q. unfold pair_le. apply _. Defined.

(** Python's order on an integer paired with a string. *)
Definition tagged_le (p q : Z * string) : Prop :=
  p.1 < q.1 ∨ (p.1 = q.1 ∧ String.le p.2 q.2).

#[global] Instance tagged_le_dec : RelDecision tagged_le.
Proof. intros p q. unfold tagged_le. apply _. Defined.

Section Sorted.
Context {A : Type}.

(** Python's sort is stable: elements with equal keys keep their order.
    Insertion from the right, each element going before the first one that
    is not below it, sorts that way. *)
Fixpoint insert_in_order (R : relation A) `{!RelDecision R} (x : A)
    (l : list A) : list A :=
  match l with
  | [] => [x]
  | y :: l' =>
      if decide (R x y) then x :: y :: l' else y :: insert_in_order R x l'
  end.

Fixpoint stable_sort (R : relation A) `{!RelDecision R} (l : list A)
    : list A :=
  match l with
  | [] => []
  | x :: l' => insert_in_order R x (stable_sort R l')
  end.

Definition on_le (key : A → Z) : relation A :=
  λ a b, key a ≤ key b.
Definition by_le (key : A → Z * Z) : relation A :=
  λ a b, pair_le (key a) (key b).
Definition by_tagged_le (key : A → Z * string) : relation A :=
  λ a b, tagged_le (key a) (key b).

#[global] Instance on_le_dec key : RelDecision (on_le key).
Proof. intros a b. unfold on_le. apply _. Defined.
#[global] Instance by_le_dec key : RelDecision (by_le key).
Proof. intros a b. unfold by_le. apply _. Defined.
#[global] Instance by_tagged_le_dec key : RelDecision (by_tagged_le key).
Proof. intros a b. unfold by_tagged_le. apply _. Defined.

(** [sorted(xs, key=key)] with an integer key. *)
Definition sorted_on (key : A → Z) (xs : list A) : list A :=
  stable_sort (on_le key) xs.

(** [sorted(xs, key=key)] with a key made of two integers. *)
Definition sorted_by (key : A → Z * Z) (xs : list A) : list A :=
  stable_sort (by_le key) xs.

(** [sorted(xs, key=key)] with a key made of an integer and a string. *)
Definition sorted_tagged (key : A → Z * string) (xs : list A) : list A :=
  stable_sort (by_tagged_le key) xs.
End Sorted.

(** [sorted(xs)] on strings. *)
Definition sorted_strings (xs : list string) : list string :=
  stable_sort String.le xs.

End PySort.

(** * repair_story_text.py *)
Module RepairStoryText.
Import Re.

Definition VALID_NODE_TYPES : list string :=
  ["normal"; "ending_win"; "ending_death"; "ending_neutral"].

(** [[^.!?\n]] *)
Definition not_stop : regex := none_of (".!?" +:+ Py.nl).

Definition CHOICE_SENTENCE_RE : regex :=
  Grp 1 (cat [
    opt (cat [alt (lit_i <$> ["if"; "when"; "should"; "decide"; "step";
                             "wiser"; "wait"; "you"; "you're"; "to"; "go"]);
              WordB;
              between_lazy not_stop 0 350]);
    WordB;
    alt (lit_i <$> ["turn"; "go"; "proceed"; "continue"; "head"; "page";
                    "section"; "p."; "pg."]);
    WordB;
    between_lazy not_stop 0 80;
    Grp 2 (between alnum 1 5);
    between not_stop 0 100;
    opt (one_of ".!?")
  ]).

Definition DIGIT_OCR_MAP : list (ascii * ascii) :=
  [("O", "0"); ("o", "0"); ("I", "1"); ("l", "1"); ("S", "5"); ("s", "5");
   ("B", "8"); ("g", "9"); ("q", "9"); ("H", "7"); ("h", "7")]%char.

(** [DIGIT_OCR_MAP[char]], with [None] for [char not in DIGIT_OCR_MAP]. *)
Definition ocr_lookup (c : ascii) : option ascii :=
  snd <$> List.find (λ e, Ascii.eqb (fst e) c) DIGIT_OCR_MAP.

(** [(page|section)\s+(\d)\s+(\d)\b] and its three-digit variant, under
    [(?i)]. *)
Definition SPLIT_PAGE2_RE : regex :=
  cat [Grp 1 (alt [lit_i "page"; lit_i "section"]); plus space;
       Grp 2 digit; plus space; Grp 3 digit; WordB].
Definition SPLIT_PAGE3_RE : regex :=
  cat [Grp 1 (alt [lit_i "page"; lit_i "section"]); plus space;
       Grp 2 digit; plus space; Grp 3 digit; plus space; Grp 4 digit; WordB].

(** The replacements of the dashes, the curly quotes and the soft hyphen
    act on code points above 127 and leave the modelled texts as they
    are. *)
Definition normalize_text (raw : string) : string :=
  let text := Py.replace Py.cr Py.nl (Py.replace (Py.cr +:+ Py.nl) Py.nl raw) in
  let text := Py.replace "_" " " text in
  let text := sub SPLIT_PAGE2_RE
                (λ m, group 1 m +:+ " " +:+ group 2 m +:+ group 3 m) text in
  let text := sub SPLIT_PAGE3_RE
                (λ m, group 1 m +:+ " " +:+ group 2 m +:+ group 3 m
                        +:+ group 4 m) text in
  text.

(** The loop of [token_to_int]: the digits of the token after the
    substitution, or [None] at a character with no substitute. *)
Fixpoint ocr_digits (token : string) : option string :=
  match token with
  | EmptyString => Some EmptyString
  | String c t =>
      if Py.isdigit c then String c <$> ocr_digits t
      else match ocr_lookup c with
           | Some d => String d <$> ocr_digits t
           | None => None
           end
  end.

Definition token_to_int (token : string) : option Z :=
  if Py.str_isdigit token then Some (Py.int_digits token)
  else match ocr_digits token with
       | None => None
       | Some EmptyString => None
       | Some chars => Some (Py.int_digits chars)
       end.

Definition clean_choice_label (label : string) (destination : Z) : string :=
  let text := normalize_text label in
  let text := Py.strip_chars " -_~" (sub (plus space) (λ _, " ") text) in
  let text := sub (cat [plus space; Grp 1 (one_of ",.!?;:")])
                (λ m, group 1 m) text in
  let text := sub (cat [WordB; lit_i "page"; WordB]) (λ _, "section") text in
  let text := sub (cat [WordB; Grp 1 (lit_i "section"); plus space;
                        between alnum 1 5; WordB])
                (λ _, "section " +:+ Py.str destination) text in
  let text := match text with
              | String c t => if Py.islower c then String (Py.upper_c c) t
                              else text
              | EmptyString => text
              end in
  let alpha := Py.count Py.isalpha text in
  let text := if bool_decide (alpha < 6 ∨ String.length text < 8)%nat
              then "Go to section " +:+ Py.str destination +:+ "."
              else text in
  if bool_decide (60 < String.length text)%nat
  then Py.rstrip (Py.str_take 57 text) +:+ "..."
  else text.

Definition normalize_ws (text : string) : string :=
  Py.strip (sub (plus space) (λ _, " ") text).

(** The loop of [extract_choices] over the matches of
    [CHOICE_SENTENCE_RE]. *)
Fixpoint scan_matches (ms : list rmatch) (seen_dest : gset Z)
    (found : list (string * Z)) : list (string * Z) :=
  match ms with
  | [] => found
  | m :: ms' =>
      let sentence := Py.strip (group 1 m) in
      let token := Py.strip (group 2 m) in
      match token_to_int token with
      | None => scan_matches ms' seen_dest found
      | Some destination =>
          if negb (bool_decide (1 ≤ destination ≤ 500))
          then scan_matches ms' seen_dest found
          else if bool_decide (destination ∈ seen_dest)
          then scan_matches ms' seen_dest found
          else
            let found' :=
              found ++ [(clean_choice_label sentence destination, destination)] in
            if bool_decide (4 ≤ length found')%nat then found'
            else scan_matches ms' ({[destination]} ∪ seen_dest) found'
      end
  end.

Definition extract_choices (raw_text : string) : list (string * Z) :=
  let text := normalize_ws (normalize_text raw_text) in
  scan_matches (finditer CHOICE_SENTENCE_RE text) ∅ [].

Definition infer_title (section_number : Z) (text : string) : string :=
  let lower := Py.lower text in
  if Py.contains lower "dragon" then
    (if Py.contains lower "trail" then "Dragon Trail" else "Dragon Encounter")
  else if Py.contains lower "forbidden castle" then "Toward Forbidden Castle"
  else if Py.contains_any lower ["forest"; "woods"; "tree"; "wolves"]
  then "Forest Road"
  else if Py.contains_any lower ["cave"; "cavern"; "tunnel"]
  then "Cave Passage"
  else if Py.contains_any lower ["king"; "court"; "castle"; "dungeon"; "guard"]
  then "Court And Castle"
  else if Py.contains_any lower
            ["stream"; "river"; "waterfall"; "lake"; "water"]
  then "Crossing The Water"
  else if Py.contains_any lower ["mountain"; "trail"; "ridge"; "climb"]
  then "Mountain Ascent"
  else if Py.contains lower "the end" then "Journey's End"
  else "Section " +:+ Py.str section_number.

Definition death_terms : list string :=
  ["death"; "die"; "dead"; "killed"; "execution"; "burn"; "collapse";
   "you don't"; "too late"; "never seen again"; "won't be"].

Definition win_terms : list string :=
  ["victory"; "you survive"; "you return"; "back in your own time";
   "you are free"; "you find the forbidden castle"; "worth the trip"].

Definition infer_node_type (text : string) (has_choices : bool) : string :=
  if has_choices then "normal"
  else
    let lower := Py.lower text in
    if Py.contains_any lower death_terms then "ending_death"
    else if Py.contains_any lower win_terms then "ending_win"
    else "ending_neutral".

(** An entry of [payload["choices"]]; its [requires] and [effects] are
    always the empty map. *)
Record choice_row := ChoiceRow {
  row_text : string;
  row_destination : Z
}.

(** A value of the [parsed] dictionary. *)
Record payload := Payload {
  p_section_number : Z;
  p_title : string;
  p_text : string;
  p_node_type : string;
  p_choices : list choice_row
}.

(** The end of [extract_section_payload], from [title = ...] on: what it
    returns for the cleaned prose and the choices that the text stages
    found for the section. *)
Definition section_payload (section_number : Z) (cleaned_text : string)
    (choices : list (string * Z)) : payload :=
  let title := infer_title section_number cleaned_text in
  let node_type :=
    infer_node_type cleaned_text (bool_decide (choices ≠ [])) in
  let choice_rows :=
    (λ c, ChoiceRow (clean_choice_label c.1 c.2) c.2) <$> take 4 choices in
  Payload section_number title cleaned_text node_type choice_rows.

(** The stub that the repair loop stores under a destination nobody is
    near. *)
Definition stub_payload (destination : Z) : payload :=
  Payload destination
    ("Section " +:+ Py.str destination)
    ("[Section " +:+ Py.str destination +:+ " - not found in source]")
    "ending_neutral" [].

(** What the repair loop of [build_story] updates: the section numbers
    known, the entries it adds to [parsed], and the change log. *)
Record repair_state := RepairState {
  existing_sections : gset Z;
  added : list (Z * payload);
  link_changes : list string
}.

(** [[num for num in existing_sections if abs(num - destination) <= 2]] *)
Definition near_sections (existing : gset Z) (destination : Z) : list Z :=
  filter (λ num, Z.abs (num - destination) ≤ 2) (elements existing).

(** The body of the inner loop, for one choice of the node numbered
    [source].  The sorted list is empty exactly when [near] is. *)
Definition resolve_choice (source : Z) (choice : choice_row)
    (st : repair_state) : choice_row * repair_state :=
  let destination := row_destination choice in
  if bool_decide (destination ∈ existing_sections st) then (choice, st)
  else
    let near := near_sections (existing_sections st) destination in
    match PySort.sorted_by
            (λ value, (Z.abs (value - destination), value)) near with
    | remap :: _ =>
        (ChoiceRow (row_text choice) remap,
         RepairState (existing_sections st) (added st)
           (link_changes st ++
              ["Remapped missing destination " +:+ Py.str destination
                 +:+ " -> " +:+ Py.str remap +:+ " (from section "
                 +:+ Py.str source +:+ ")."]))
    | [] =>
        (choice,
         RepairState ({[destination]} ∪ existing_sections st)
           (added st ++ [(destination, stub_payload destination)])
           (link_changes st ++
              ["Created stub section " +:+ Py.str destination
                 +:+ " (referenced by section " +:+ Py.str source +:+ ")."]))
    end.

Fixpoint resolve_choices (source : Z) (choices : list choice_row)
    (st : repair_state) : list choice_row * repair_state :=
  match choices with
  | [] => ([], st)
  | choice :: rest =>
      let '(choice', st1) := resolve_choice source choice st in
      let '(rest', st2) := resolve_choices source rest st1 in
      (choice' :: rest', st2)
  end.

(** The outer loop, over the entries of [parsed] in the order of their
    payloads' section numbers; the payloads come back with their choices
    rewritten. *)
Fixpoint resolve_nodes (entries : list (Z * payload)) (st : repair_state)
    : list (Z * payload) * repair_state :=
  match entries with
  | [] => ([], st)
  | (key, node) :: rest =>
      let '(choices', st1) :=
        resolve_choices (p_section_number node) (p_choices node) st in
      let node' := Payload (p_section_number node) (p_title node)
                     (p_text node) (p_node_type node) choices' in
      let '(rest', st2) := resolve_nodes rest st1 in
      ((key, node') :: rest', st2)
  end.

(** A choice and a node as [build_story] returns them. *)
Record choice := Choice {
  c_text : string;
  c_next : string
}.

Record node := Node {
  n_id : string;
  n_section_number : Z;
  n_title : string;
  n_text : string;
  n_node_type : string;
  n_choices : list choice
}.

Definition or_default (s default : string) : string :=
  match s with EmptyString => default | _ => s end.

(** The body of the loop [for section_number in sorted(parsed)]. *)
Definition emit_node (entry : Z * payload) : node :=
  let section_number := entry.1 in
  let payload := entry.2 in
  let choices :=
    (λ c, Choice (Py.str_take 60 (row_text c))
                 ("section_" +:+ Py.str (row_destination c)))
      <$> take 4 (p_choices payload) in
  let node_type := p_node_type payload in
  let node_type :=
    if bool_decide (node_type ∈ VALID_NODE_TYPES) then node_type
    else infer_node_type (p_text payload) (bool_decide (choices ≠ [])) in
  let node_type :=
    if bool_decide (choices ≠ []) then "normal" else node_type in
  let title := or_default (Py.strip (p_title payload))
                 ("Section " +:+ Py.str section_number) in
  let text := or_default (Py.strip (p_text payload))
                ("[Section " +:+ Py.str section_number
                   +:+ " - not found in source]") in
  Node ("section_" +:+ Py.str section_number) section_number title text
    node_type choices.

(** The two [nodes.sort] calls: ascending, then section 1 first when
    there is one. *)
Definition order_nodes (nodes : list node) : list node :=
  let nodes := PySort.sorted_on n_section_number nodes in
  if existsb (λ n, bool_decide (n_section_number n = 1)) nodes
  then PySort.sorted_by
         (λ n, (if bool_decide (n_section_number n ≠ 1) then 1 else 0,
                n_section_number n)) nodes
  else nodes.

Definition set_node_type (t : string) (n : node) : node :=
  Node (n_id n) (n_section_number n) (n_title n) (n_text n) t (n_choices n).

(** [for node in nodes: if p(node): node["node_type"] = "ending_win";
    break] *)
Fixpoint promote_first (p : node → bool) (nodes : list node) : list node :=
  match nodes with
  | [] => []
  | n :: rest =>
      if p n then set_node_type "ending_win" n :: rest
      else n :: promote_first p rest
  end.

Definition has_win (nodes : list node) : bool :=
  existsb (λ n, bool_decide (n_node_type n = "ending_win")) nodes.

Definition is_neutral (n : node) : bool :=
  bool_decide (n_node_type n = "ending_neutral").

Definition affirmative_ending (n : node) : bool :=
  is_neutral n && Py.contains (Py.lower (n_text n)) "the end"
  && Py.contains_any (Py.lower (n_text n))
       ["return"; "survive"; "find"; "worth"].

(** "Ensure at least one win ending for runtime requirements." *)
Definition ensure_win (nodes : list node) : list node :=
  if has_win nodes then nodes
  else
    let nodes := promote_first affirmative_ending nodes in
    if has_win nodes then nodes
    else promote_first is_neutral nodes.

(** [build_story] from the comment "Resolve remaining broken links" on,
    for the dictionary [parsed] (its entries in insertion order) and the
    change log that the page-reading stages before it have produced.  The
    keys of a dictionary are distinct, so the order in which its entries
    stand before [sorted(parsed)] does not show in the nodes. *)
Definition build_story (parsed : list (Z * payload))
    (link_changes0 : list string) : list node * list string :=
  let st0 := RepairState (list_to_set parsed.*1) [] link_changes0 in
  let '(resolved, st) :=
    resolve_nodes (PySort.sorted_on (λ e, p_section_number e.2) parsed) st0 in
  let parsed' := resolved ++ added st in
  let nodes := emit_node <$> PySort.sorted_on fst parsed' in
  (ensure_win (order_nodes nodes), link_changes st).

(** ** Vocabulary of the statements about repair_story_text.py *)

(** The substitution table as the specification words it: a digit stands
    for itself, and each of the eleven confusable letters for the digit it
    resembles. *)
Definition spec_substitute (c : ascii) : option ascii :=
  if Py.isdigit c then Some c
  else match c with
       | "O" | "o" => Some "0"
       | "I" | "l" => Some "1"
       | "S" | "s" => Some "5"
       | "B" => Some "8"
       | "g" | "q" => Some "9"
       | "H" | "h" => Some "7"
       | _ => None
       end%char.

(** Every character of the token is a digit or has a substitute. *)
Definition spec_mapped (token : string) : bool :=
  Py.all (λ c, bool_decide (is_Some (spec_substitute c))) token.

(** The digits that the substitution forms of the token. *)
Definition spec_digits (token : string) : string :=
  Py.smap (λ c, default c (spec_substitute c)) token.

(** The destination that [extract_choices] reads off a match, when it reads
    one. *)
Definition match_destination (m : rmatch) : option Z :=
  token_to_int (Py.strip (group 2 m)).

Definition in_book (d : Z) : Prop := 1 ≤ d ≤ 500.

(** What holds of [found] and [seen_dest] whenever the loop of
    [extract_choices] goes round. *)
Definition scanning (seen_dest : gset Z) (found : list (string * Z)) : Prop :=
  (length found < 4)%nat ∧ NoDup found.*2 ∧ Forall in_book found.*2 ∧
  ∀ d, d ∈ found.*2 → d ∈ seen_dest.

(** The state of the repair loop against the keys [E0] that [parsed] had
    before it: every number known is one of them or the key of an added
    stub. *)
Definition tracked (E0 : gset Z) (st : repair_state) : Prop :=
  existing_sections st = E0 ∪ list_to_set (added st).*1 ∧
  Forall (λ e, e.2 = stub_payload e.1) (added st).

Definition rows_in (ex : gset Z) (cs : list choice_row) : Prop :=
  Forall (λ c, row_destination c ∈ ex) cs.

(** What the repair loop leaves of an entry: its key and every field of
    its payload but the destinations of its choices. *)
Definition same_entry (ex : gset Z) (e e' : Z * payload) : Prop :=
  e'.1 = e.1 ∧
  p_section_number e'.2 = p_section_number e.2 ∧
  p_title e'.2 = p_title e.2 ∧
  p_text e'.2 = p_text e.2 ∧
  p_node_type e'.2 = p_node_type e.2 ∧
  length (p_choices e'.2) = length (p_choices e.2) ∧
  rows_in ex (p_choices e'.2).

(** The dictionary [parsed] after the repair loop, and the state the loop
    ends in. *)
Definition repaired (parsed : list (Z * payload)) (log : list string)
    : list (Z * payload) * repair_state :=
  let '(resolved, st) :=
    resolve_nodes (PySort.sorted_on (λ e, p_section_number e.2) parsed)
      (RepairState (list_to_set parsed.*1) [] log) in
  (resolved ++ added st, st).

(** A payload typed [normal] has choices: so are the payloads of
    [extract_section_payload] and the stubs. *)
Definition typed_by_choices (p : payload) : Prop :=
  p_node_type p = "normal" → p_choices p ≠ [].

(** What the win promotion may change in a node: an [ending_neutral] type
    into [ending_win], nothing else. *)
Definition retyped (n n' : node) : Prop :=
  n_id n' = n_id n ∧ n_section_number n' = n_section_number n ∧
  n_title n' = n_title n ∧ n_text n' = n_text n ∧
  n_choices n' = n_choices n ∧
  (n_node_type n' = n_node_type n ∨
   (n_node_type n = "ending_neutral" ∧ n_node_type n' = "ending_win")).

(** Scenario A: one clause, twice. *)
Definition scenario_A : string :=
  "You reach a fork. Turn to 12 if you continue. Turn to 12 if you continue.".

(** Scenario B: sections 1, 2, 3 and 7; section 1 points to the missing
    section 5. *)
Definition scenario_B : list (Z * payload) :=
  [(1, Payload 1 "Section 1" "The road forks." "normal"
         [ChoiceRow "Take the left fork." 5]);
   (2, Payload 2 "Section 2" "The road goes on." "ending_neutral" []);
   (3, Payload 3 "Section 3" "A quiet meadow." "ending_neutral" []);
   (7, Payload 7 "Section 7" "An empty barn." "ending_neutral" [])].

(** Scenario C: section 1 points to the missing section 50, and no section
    is near it. *)
Definition scenario_C : list (Z * payload) :=
  [(1, Payload 1 "Section 1" "The road forks." "normal"
         [ChoiceRow "Take the left fork." 50])].

(** Two neutral endings and no win: the later one speaks of a return but
    does not say "the end". *)
Definition scenario_cue : list (Z * payload) :=
  [(1, Payload 1 "Section 1" "The road forks." "normal"
         [ChoiceRow "Take the left fork." 2;
          ChoiceRow "Take the right fork." 3]);
   (2, Payload 2 "Section 2" "The road goes on." "ending_neutral" []);
   (3, Payload 3 "Section 3" "They return home." "ending_neutral" [])].

(** A graph without an ending: sections 1 and 2 lead to each other. *)
Definition scenario_loop : list (Z * payload) :=
  [(1, Payload 1 "Section 1" "The road forks." "normal"
         [ChoiceRow "Walk on." 2]);
   (2, Payload 2 "Section 2" "The road bends back." "normal"
         [ChoiceRow "Walk back." 1])].

(** A choice label as the game shows it: not empty, at most 60
    characters. *)
Definition label_ok (label : string) : Prop :=
  (1 ≤ String.length label ≤ 60)%nat.

(** The key of the second sort of [build_story]: section 1 first, then by
    section number. *)
Definition entry_first_key (n : node) : Z * Z :=
  (if bool_decide (n_section_number n ≠ 1) then 1 else 0, n_section_number n).

(** The stubs that the repair loop has added have distinct keys, none of
    them a key [parsed] had before. *)
Definition fresh_stubs (E0 : gset Z) (st : repair_state) : Prop :=
  NoDup (added st).*1 ∧ ∀ k, k ∈ (added st).*1 → k ∉ E0.

End RepairStoryText.

(** * build_story.py *)
Module BuildStory.
Import Re.

Definition go_phrase : regex :=
  alt [lit_i "turn to"; lit_i "go to"; lit_i "proceed to"].

(** [[^.!?]*\b(?:turn to|go to|proceed to)\s+[1-9]\d{0,2}[^.!?]*[.!?]?] *)
Definition CHOICE_SENTENCE_RE : regex :=
  cat [star (none_of ".!?"); WordB; go_phrase; plus space;
       digit19; between digit 0 2; star (none_of ".!?");
       opt (one_of ".!?")].

(** [\b(?:turn to|go to|proceed to)\s+[1-9]\d{0,2}\b] *)
Definition CHOICE_PHRASE_RE : regex :=
  cat [WordB; go_phrase; plus space; digit19; between digit 0 2; WordB].

(** [^\s*-?\s*\d+\s*-?\s*$] *)
Definition PAGE_ARTIFACT_RE : regex :=
  cat [Bol; star space; opt (chr "-"); star space; plus digit; star space;
       opt (chr "-"); star space; Eol].

(** The soft hyphen and the long dash that [normalize_line] replaces lie
    above code point 127. *)
Definition normalize_line (text : string) : string := Py.strip text.

Definition clean_paragraph (para : string) : option string :=
  let lines := normalize_line <$> Py.split "010" para in
  let lines :=
    List.filter (λ line, negb (String.eqb line EmptyString)
                         && negb (bool_decide
                              (is_Some (fullmatch PAGE_ARTIFACT_RE line))))
      lines in
  match lines with
  | [] => None
  | _ =>
      let merged := Py.join " " lines in
      let merged := sub CHOICE_SENTENCE_RE (λ _, " ") merged in
      let merged := sub CHOICE_PHRASE_RE (λ _, EmptyString) merged in
      let merged :=
        Py.strip_chars " ,;:-" (sub (plus space) (λ _, " ") merged) in
      let merged := sub (cat [plus space; Grp 1 (one_of ",.!?;:")])
                      (λ m, group 1 m) merged in
      match merged with
      | EmptyString => None
      | _ => Some merged
      end
  end.

Definition clean_body (text : string) : string :=
  let text := Py.replace Py.cr Py.nl (Py.replace (Py.cr +:+ Py.nl) Py.nl text) in
  let text := sub (cat [Grp 1 word; chr "-"; chr "010"; Grp 2 word])
                (λ m, group 1 m +:+ group 2 m) text in
  let paragraphs := split (at_least (chr "010") 2) text in
  let kept := omap clean_paragraph paragraphs in
  Py.strip (Py.join (Py.nl +:+ Py.nl) kept).

Definition infer_title (text : string) : string :=
  let lower := Py.lower text in
  if Py.contains_any lower ["forest"; "woods"; "tree"; "grove"]
  then "Shadows In The Forest"
  else if Py.contains_any lower ["cave"; "tunnel"; "cavern"; "underground"]
  then "Into The Dark Cave"
  else if Py.contains_any lower
            ["house"; "building"; "room"; "hall"; "tower"; "castle"; "temple"]
  then "Inside The Silent Halls"
  else if Py.contains_any lower
            ["river"; "lake"; "ocean"; "sea"; "water"; "stream"]
  then "Across The Restless Water"
  else if Py.contains_any lower ["field"; "plain"; "meadow"; "grassland"]
  then "Across The Open Field"
  else
    let words :=
      findall (at_least (Chr (λ c, Py.isalpha c || Ascii.eqb c "'")) 3) text in
    let picked := Py.capitalize <$> take 6 words in
    if bool_decide (3 ≤ length picked)%nat
    then Py.join " " (take (Nat.min 6 (Nat.max 3 (length picked))) picked)
    else "A Strange New Path".

Definition choice_sort_key (x target : Z) : Z * Z :=
  (Z.abs (x - target), x).

(** A choice and a section of [parsed_sections.json].  A key that a
    section lacks reads as the default its [.get] gives. *)
Record choice := Choice {
  c_text : string;
  c_destination : Z
}.

Record section := Sect {
  s_section_number : Z;
  s_text : string;
  s_choices : list choice;
  s_node_type : string
}.

(** A value of [by_num]: one of the objects of the list [sections], by
    its index, or a stub built by the repair. *)
Inductive obj_ref :=
| InputSection (i : nat)
| StubSection (s : section).

Record fix_state := FixState {
  existing : gset Z;
  by_num : gmap Z obj_ref;
  report : list string
}.

Definition stub_section (dest : Z) : section :=
  Sect dest
    ("[Section " +:+ Py.str dest +:+ " - not found in source]")
    [] "ending_neutral".

(** [[n for n in existing if abs(n - dest) <= 2]] *)
Definition near_sections (existing : gset Z) (dest : Z) : list Z :=
  filter (λ n, Z.abs (n - dest) ≤ 2) (elements existing).

(** The body of the inner loop of [fix_broken_links], for one choice of
    the section numbered [source].  The sorted list is empty exactly when
    [near] is. *)
Definition fix_choice (source : Z) (c : choice) (st : fix_state)
    : choice * fix_state :=
  let dest := c_destination c in
  if bool_decide (dest ∈ existing st) then (c, st)
  else
    let near := near_sections (existing st) dest in
    match PySort.sorted_by (λ n, choice_sort_key n dest) near with
    | new_dest :: _ =>
        (Choice (c_text c) new_dest,
         FixState (existing st) (by_num st)
           (report st ++
              ["Remapped missing destination " +:+ Py.str dest +:+ " -> "
                 +:+ Py.str new_dest +:+ " (source section "
                 +:+ Py.str source +:+ ")"]))
    | [] =>
        (c,
         FixState ({[dest]} ∪ existing st)
           (<[dest := StubSection (stub_section dest)]> (by_num st))
           (report st ++
              ["Created stub section " +:+ Py.str dest
                 +:+ " (referenced by section " +:+ Py.str source +:+ ")"]))
    end.

Fixpoint fix_choices (source : Z) (choices : list choice) (st : fix_state)
    : list choice * fix_state :=
  match choices with
  | [] => ([], st)
  | c :: rest =>
      let '(c', st1) := fix_choice source c st in
      let '(rest', st2) := fix_choices source rest st1 in
      (c' :: rest', st2)
  end.

(** The outer loop: the objects of [sections] come back with their
    choices rewritten, in the same positions. *)
Fixpoint fix_sections (sections : list section) (st : fix_state)
    : list section * fix_state :=
  match sections with
  | [] => ([], st)
  | s :: rest =>
      let '(choices', st1) :=
        fix_choices (s_section_number s) (s_choices s) st in
      let s' := Sect (s_section_number s) (s_text s) choices'
                  (s_node_type s) in
      let '(rest', st2) := fix_sections rest st1 in
      (s' :: rest', st2)
  end.

(** [{s["section_number"]: s for s in sections}]: a later section takes
    the place of an earlier one with the same number. *)
Fixpoint index_sections (i : nat) (sections : list section)
    (m : gmap Z obj_ref) : gmap Z obj_ref :=
  match sections with
  | [] => m
  | s :: rest =>
      index_sections (S i) rest (<[s_section_number s := InputSection i]> m)
  end.

Definition deref (sections : list section) (r : obj_ref) : option section :=
  match r with
  | InputSection i => sections !! i
  | StubSection s => Some s
  end.

Definition fix_broken_links (sections : list section)
    : list section * list string :=
  let by_num0 := index_sections 0 sections ∅ in
  let '(sections', st) :=
    fix_sections sections (FixState (dom by_num0) by_num0 []) in
  let full_sections :=
    omap (λ n, by_num st !! n ≫= deref sections')
      (PySort.sorted_on (λ n, n) (elements (dom (by_num st)))) in
  (full_sections, report st).

Record out_choice := OutChoice {
  o_text : string;
  o_next : string
}.

Record node := Node {
  n_id : string;
  n_section_number : Z;
  n_title : string;
  n_text : string;
  n_node_type : string;
  n_choices : list out_choice
}.

Definition or_else (s default : string) : string :=
  match s with EmptyString => default | _ => s end.

(** The body of the loop of [build_story_nodes]. *)
Definition build_node (section : section) : node :=
  let n := s_section_number section in
  let cleaned := clean_body (s_text section) in
  let title := infer_title (or_else cleaned (s_text section)) in
  let choices_out :=
    (λ c,
       let label := Py.join " " (Py.words (c_text c)) in
       let label :=
         or_else label ("Go to section " +:+ Py.str (c_destination c)) in
       OutChoice (Py.str_take 60 label)
         ("section_" +:+ Py.str (c_destination c)))
      <$> take 4 (s_choices section) in
  let node_type := s_node_type section in
  let node_type :=
    if bool_decide (choices_out ≠ []) then "normal"
    else if bool_decide
              (node_type ∉ ["ending_win"; "ending_death"; "ending_neutral"])
    then "ending_neutral"
    else node_type in
  let body_text :=
    or_else cleaned
      (or_else (Py.strip (s_text section))
         ("[Section " +:+ Py.str n +:+ " - not found in source]")) in
  Node ("section_" +:+ Py.str n) n title body_text node_type choices_out.

Definition build_story_nodes (sections : list section) : list node :=
  build_node <$> PySort.sorted_on s_section_number sections.

(** [main] between reading [parsed_sections.json] and writing the two
    files: the nodes in their final order and the lines of the report. *)
Definition main (sections : list section) : list node * list string :=
  let '(fixed_sections, report_lines) := fix_broken_links sections in
  let nodes := build_story_nodes fixed_sections in
  let nodes := PySort.sorted_on n_section_number nodes in
  let nodes :=
    if existsb (λ n, bool_decide (n_section_number n = 1)) nodes
    then PySort.sorted_by
           (λ n, (if bool_decide (n_section_number n ≠ 1) then 1 else 0,
                  n_section_number n)) nodes
    else nodes in
  (nodes,
   match report_lines with
   | [] => ["No broken links found."]
   | _ => report_lines
   end).

(** ** Vocabulary of the statements about build_story.py *)

(** The state of [fix_broken_links] is consistent: [existing] is the key
    set of [by_num]. *)
Definition consistent (st : fix_state) : Prop :=
  dom (by_num st) = existing st.

(** What the loop may do to the state: add stubs under fresh numbers. *)
Record grows (st st' : fix_state) : Prop := {
  grows_existing : existing st ⊆ existing st';
  grows_keeps : ∀ n r, by_num st !! n = Some r → by_num st' !! n = Some r;
  grows_stubs : ∀ n r, by_num st' !! n = Some r →
                by_num st !! n = Some r ∨ r = StubSection (stub_section n)
}.

Definition resolved_in (ex : gset Z) (cs : list choice) : Prop :=
  Forall (λ c, c_destination c ∈ ex) cs.

(** Scenario B: sections 1, 2, 3 and 7; section 1 points to the missing
    section 5. *)
Definition scenario_B : list section :=
  [Sect 1 "The road forks." [Choice "Take the left fork" 5] "normal";
   Sect 2 "The road goes on." [] "ending_neutral";
   Sect 3 "A quiet meadow." [] "ending_neutral";
   Sect 7 "An empty barn." [] "ending_neutral"].

(** Scenario C: section 1 points to the missing section 50, and no section
    is near it. *)
Definition scenario_C : list section :=
  [Sect 1 "The road forks." [Choice "Take the left fork" 50] "normal"].

(** Every choice of every section leads to a section of the list. *)
Definition sound (sections : list section) : Prop :=
  ∀ s c, s ∈ sections → c ∈ s_choices s →
         ∃ s', s' ∈ sections ∧ s_section_number s' = c_destination c.

(** The section numbers increase strictly along the list. *)
Definition ascending (sections : list section) : Prop :=
  StronglySorted Z.lt (s_section_number <$> sections).

(** The key of the second sort of [main]: section 1 first, then by
    section number. *)
Definition entry_first_key (n : node) : Z * Z :=
  (if bool_decide (n_section_number n ≠ 1) then 1 else 0, n_section_number n).

End BuildStory.

(** * parse.py: the choice extractor of the first parser *)
Module Parse.
Import Re.

(** [([1-9]\d{0,2}|500)] *)
Definition section_no : regex :=
  alt [cat [digit19; between digit 0 2]; lit "500"].

(** [[^.!?\n]] *)
Definition not_stop : regex := none_of (".!?" +:+ Py.nl).

Definition CHOICE_FULL_SENTENCE_RE : regex :=
  Grp 1 (cat [
    star_lazy not_stop; WordB;
    alt (lit_i <$> ["if"; "when"; "to"; "choose"; "decide"; "you"]); WordB;
    star_lazy not_stop; WordB;
    alt (lit_i <$> ["turn"; "go"; "proceed"]);
    plus space;
    opt (cat [lit_i "to"; plus space]);
    opt (alt [cat [lit_i "page"; plus space];
              cat [lit_i "section"; plus space]]);
    Grp 2 section_no; WordB;
    star_lazy not_stop;
    opt (one_of (".!?" +:+ Py.nl))
  ]).

(** [\b([1-9]\d{0,2}|500)\b] *)
Definition ANY_NUM_RE : regex := cat [WordB; Grp 1 section_no; WordB].

(** [\b(turn|go|proceed|decide|choose|if)\b] *)
Definition CHOICE_CUE_RE : regex :=
  cat [WordB;
       Grp 1 (alt (lit_i <$> ["turn"; "go"; "proceed"; "decide"; "choose";
                              "if"]));
       WordB].

Definition normalize_ws (text : string) : string :=
  let text := Py.replace Py.cr Py.nl (Py.replace (Py.cr +:+ Py.nl) Py.nl text) in
  Py.strip (sub (plus space) (λ _, " ") text).

(** [\s*(?:turn|go|proceed)\s+(?:to\s+)?(?:page\s+|section\s+)?{dest}\b.*$] *)
Definition label_tail_re (dest : Z) : regex :=
  cat [star space; alt (lit_i <$> ["turn"; "go"; "proceed"]); plus space;
       opt (cat [lit_i "to"; plus space]);
       opt (alt [cat [lit_i "page"; plus space];
                 cat [lit_i "section"; plus space]]);
       lit (Py.str dest); WordB; star (none_of Py.nl); Eol].

Record choice := Choice {
  c_text : string;
  c_destination : Z
}.

(** The lists [choices] and [seen] that [add_choice] closes over. *)
Record found := Found {
  choices : list choice;
  seen : gset (string * Z)
}.

Definition add_choice (label : string) (dest : Z) (acc : found) : found :=
  let label := normalize_ws label in
  let label :=
    Py.strip_chars " ,;:-." (sub (label_tail_re dest) (λ _, EmptyString) label) in
  let label :=
    match label with
    | EmptyString => "Go to section " +:+ Py.str dest
    | _ => label
    end in
  if negb (bool_decide (1 ≤ dest ≤ 500)) then acc
  else if bool_decide ((label, dest) ∈ seen acc) then acc
  else Found (choices acc ++ [Choice label dest])
         ({[(label, dest)]} ∪ seen acc).

(** The fallback loop over the non-blank lines: [prev] is the line
    before, when there is one. *)
Fixpoint scan_lines (prev : option string) (lines : list string)
    (acc : found) : found :=
  match lines with
  | [] => acc
  | line :: rest =>
      let acc :=
        match search ANY_NUM_RE line with
        | Some dest_match =>
            if bool_decide (is_Some (search CHOICE_CUE_RE line)) then
              let dest := Py.int_digits (group 1 dest_match) in
              let label :=
                match prev with
                | Some p =>
                    if negb (bool_decide (is_Some (search ANY_NUM_RE p)))
                       && bool_decide (String.length p < 100)%nat
                    then p +:+ " " +:+ line
                    else line
                | None => line
                end in
              add_choice label dest acc
            else acc
        | None => acc
        end in
      scan_lines (Some line) rest acc
  end.

Definition extract_choices (section_text : string) : list choice :=
  let text := normalize_ws section_text in
  let acc :=
    foldl (λ acc m, add_choice (group 1 m) (Py.int_digits (group 2 m)) acc)
      (Found [] ∅) (finditer CHOICE_FULL_SENTENCE_RE text) in
  match choices acc with
  | [] =>
      let raw_lines := Py.split "010" section_text in
      let lines :=
        normalize_ws <$>
          List.filter (λ l, negb (String.eqb (Py.strip l) EmptyString))
            raw_lines in
      choices (scan_lines None lines acc)
  | _ => choices acc
  end.

(** ** The section parser *)

(** [\b(death|die|dies|died|killed|fail|failed)\b] *)
Definition DEATH_RE : regex :=
  cat [WordB;
       Grp 1 (alt (lit_i <$> ["death"; "die"; "dies"; "died"; "killed";
                              "fail"; "failed"]));
       WordB].

(** [\b(win|wins|won|escape|escaped|success|triumph|victory)\b] *)
Definition WIN_RE : regex :=
  cat [WordB;
       Grp 1 (alt (lit_i <$> ["win"; "wins"; "won"; "escape"; "escaped";
                              "success"; "triumph"; "victory"]));
       WordB].

Definition classify_node (text : string) (choices : list choice) : string :=
  match choices with
  | _ :: _ => "normal"
  | [] =>
      if bool_decide (is_Some (search DEATH_RE text)) then "ending_death"
      else if bool_decide (is_Some (search WIN_RE text)) then "ending_win"
      else "ending_neutral"
  end.

(** [^(?:[1-9]\d{0,2}|500)$] *)
Definition SECTION_RE : regex := cat [Bol; section_no; Eol].

Record section := Sect {
  s_section_number : Z;
  s_text : string;
  s_choices : list choice;
  s_node_type : string
}.

(** The variables of [parse_sections] that its loop and [flush] update. *)
Record parser := Parser {
  sections : list section;
  current_num : option Z;
  buf : list string
}.

Definition flush (p : parser) : parser :=
  match current_num p with
  | None => Parser (sections p) None []
  | Some num =>
      let text := Py.strip (Py.join Py.nl (buf p)) in
      let choices := extract_choices text in
      let node_type := classify_node text choices in
      Parser (sections p ++ [Sect num text choices node_type]) (Some num) []
  end.

(** The number that a line announces: the line is a section number
    between 1 and 500. *)
Definition header (line : string) : option Z :=
  if bool_decide (is_Some (fullmatch SECTION_RE line)) then
    let sec_no := Py.int_digits line in
    if bool_decide (1 ≤ sec_no ≤ 500) then Some sec_no else None
  else None.

(** The body of the loop over the lines. *)
Definition read_line (p : parser) (raw_line : string) : parser :=
  let line := Py.strip raw_line in
  if Py.startswith line "--- PAGE " && Py.endswith line " ---" then p
  else
    match header line with
    | Some sec_no =>
        let p := flush p in
        Parser (sections p) (Some sec_no) (buf p)
    | None =>
        match current_num p with
        | Some _ => Parser (sections p) (current_num p) (buf p ++ [raw_line])
        | None => p
        end
    end.

(** "Keep first appearance of each section number." *)
Definition keep_first (sections : list section) : gmap Z section :=
  foldl (λ unique sec,
           match unique !! s_section_number sec with
           | None => <[s_section_number sec := sec]> unique
           | Some _ => unique
           end) ∅ sections.

(** The lines that [parse_sections] reads. *)
Definition lines_of (raw_text : string) : list string :=
  Py.split "010"
    (Py.replace Py.cr Py.nl (Py.replace (Py.cr +:+ Py.nl) Py.nl raw_text)).

(** The list [sections] after the loop and the last [flush]. *)
Definition scan_sections (raw_text : string) : list section :=
  sections (flush (foldl read_line (Parser [] None []) (lines_of raw_text))).

Definition parse_sections (raw_text : string) : list section :=
  let unique := keep_first (scan_sections raw_text) in
  omap (λ n, unique !! n) (PySort.sorted_on (λ n, n) (elements (dom unique))).

(** ** Vocabulary of the statements about parse.py *)

Definition VALID_NODE_TYPES : list string :=
  ["normal"; "ending_win"; "ending_death"; "ending_neutral"].

(** A section is parsed from the lines: a line announces its number, and
    its choices and node type are those of its text. *)
Definition parsed_from (lines : list string) (s : section) : Prop :=
  (∃ raw_line, raw_line ∈ lines ∧
               header (Py.strip raw_line) = Some (s_section_number s)) ∧
  s_choices s = extract_choices (s_text s) ∧
  s_node_type s = classify_node (s_text s) (s_choices s).

(** What holds of the variables of [parse_sections] after each line. *)
Definition parser_inv (lines : list string) (p : parser) : Prop :=
  Forall (parsed_from lines) (sections p) ∧
  ∀ n, current_num p = Some n →
       ∃ raw_line, raw_line ∈ lines ∧ header (Py.strip raw_line) = Some n.

(** The key under which [add_choice] remembers a choice. *)
Definition choice_pair (c : choice) : string * Z := (c_text c, c_destination c).

(** What holds of [choices] and [seen] after each call of [add_choice]. *)
Definition found_inv (acc : found) : Prop :=
  Forall (λ c, 1 ≤ c_destination c ≤ 500 ∧ c_text c ≠ EmptyString)
    (choices acc) ∧
  NoDup (choice_pair <$> choices acc) ∧
  ∀ c, c ∈ choices acc → choice_pair c ∈ seen acc.

End Parse.

(** * validate.py *)
Module Validate.

Definition VALID_NODE_TYPES : list string :=
  ["normal"; "ending_win"; "ending_death"; "ending_neutral"].

(** A choice and a node of [story.json] as [auto_fix] reads them: a key
    that may be missing is an option ([c_next] is also [None] when the
    value is not a string); [choices] missing reads as the empty list. *)
Record choice := Choice {
  c_text : string;
  c_next : option string
}.

Record node := Node {
  n_id : option string;
  n_section_number : option Z;
  n_title : option string;
  n_text : option string;
  n_node_type : option string;
  n_choices : list choice
}.

Definition infer_node_type (n : node) : string :=
  match n_choices n with
  | _ :: _ => "normal"
  | [] =>
      let text := Py.lower (default EmptyString (n_text n)) in
      if Py.contains_any text
           ["death"; "die"; "died"; "killed"; "fail"; "failed"]
      then "ending_death"
      else if Py.contains_any text
                ["win"; "won"; "escape"; "success"; "triumph"; "victory"]
      then "ending_win"
      else "ending_neutral"
  end.

(** "Remove duplicate IDs by keeping first." *)
Fixpoint dedupe (nodes : list node) (seen : gset string) : list node :=
  match nodes with
  | [] => []
  | n :: rest =>
      match n_id n with
      | None => dedupe rest seen
      | Some node_id =>
          if bool_decide (node_id = EmptyString ∨ node_id ∈ seen)
          then dedupe rest seen
          else n :: dedupe rest ({[node_id]} ∪ seen)
      end
  end.

(** [int(str(node["id"]).split("_")[-1])], which [setdefault] evaluates
    whether or not the node has a section number. *)
Definition id_number (node_id : string) : option Z :=
  Py.int_of_str (Py.last_part (Py.split "_" node_id)).

(** The body of the loop "Fix required keys and art shape"; [None] when
    the number of the id cannot be read. *)
Definition fix_keys (n : node) : option node :=
  match id_number (default EmptyString (n_id n)) with
  | None => None
  | Some from_id =>
      let section_number := default from_id (n_section_number n) in
      let title := default "Untitled Scene" (n_title n) in
      let text := default EmptyString (n_text n) in
      let keyed := Node (n_id n) (Some section_number) (Some title)
                     (Some text) (n_node_type n) (n_choices n) in
      let node_type :=
        match n_node_type n with
        | Some t =>
            if bool_decide (t ∈ VALID_NODE_TYPES) then
              match n_choices n with
              | _ :: _ => "normal"
              | [] => t
              end
            else infer_node_type keyed
        | None => infer_node_type keyed
        end in
      Some (Node (n_id n) (Some section_number) (Some title) (Some text)
              (Some node_type) (n_choices n))
  end.

(** The ids that choices point to and no node has. *)
Definition missing_of (id_set : gset string) (nodes : list node)
    : gset string :=
  list_to_set
    (List.filter (λ nxt, negb (bool_decide (nxt ∈ id_set)))
       (omap c_next (nodes ≫= n_choices))).

Definition trim_choice (c : choice) : choice :=
  Choice (Py.str_take 60 (c_text c)) (c_next c).

Definition trim_choices (n : node) : node :=
  Node (n_id n) (n_section_number n) (n_title n) (n_text n) (n_node_type n)
    (trim_choice <$> n_choices n).

Definition stub (missing : string) (sec_no : Z) : node :=
  Node (Some missing) (Some sec_no) (Some "Missing Source Section")
    (Some ("[Section " +:+ Py.str sec_no +:+ " - not found in source]"))
    (Some "ending_neutral") [].

(** The loop over [sorted(missing_ids)]. *)
Fixpoint make_stubs (missing : list string) (next_auto : Z) : list node :=
  match missing with
  | [] => []
  | m :: rest =>
      let last := Py.last_part (Py.split "_" m) in
      if Py.startswith m "section_" && Py.str_isdigit last
      then stub m (Py.int_digits last) :: make_stubs rest next_auto
      else stub m next_auto :: make_stubs rest (next_auto + 1)
  end.

Definition max_number (nodes : list node) : option Z :=
  foldr (λ n acc, match acc with
                  | Some m => Some (Z.max n m)
                  | None => Some n
                  end) None (omap n_section_number nodes).

Definition set_node_type (t : string) (n : node) : node :=
  Node (n_id n) (n_section_number n) (n_title n) (n_text n) (Some t)
    (n_choices n).

Definition convertible (n : node) : bool :=
  bool_decide (n_node_type n = Some "ending_neutral")
  && bool_decide (n_choices n = []).

(** The conversion loop: the list after it, and the flag [converted]. *)
Fixpoint convert_first (nodes : list node) : list node * bool :=
  match nodes with
  | [] => ([], false)
  | n :: rest =>
      if convertible n then (set_node_type "ending_win" n :: rest, true)
      else let '(rest', converted) := convert_first rest in
           (n :: rest', converted)
  end.

Definition victory_node : node :=
  Node (Some "section_999") (Some 999) (Some "Final Triumphant Escape")
    (Some "You survive and escape. Victory is yours.")
    (Some "ending_win") [].

Definition has_win (nodes : list node) : bool :=
  existsb (λ n, bool_decide (n_node_type n = Some "ending_win")) nodes.

(** "Guarantee at least one win ending." *)
Definition guarantee_win (nodes : list node) : list node :=
  if has_win nodes then nodes
  else
    let '(nodes', converted) := convert_first nodes in
    if converted then nodes' else nodes' ++ [victory_node].

Definition number_key (n : node) : Z :=
  default (10 ^ 9) (n_section_number n).

Definition order_nodes (nodes : list node) : list node :=
  let nodes := PySort.sorted_on number_key nodes in
  if existsb (λ n, bool_decide (n_section_number n = Some 1)) nodes
  then PySort.sorted_by
         (λ n, (if bool_decide (n_section_number n ≠ Some 1) then 1 else 0,
                number_key n)) nodes
  else nodes.

Definition ids_of (nodes : list node) : gset string :=
  list_to_set (omap n_id nodes).

(** [auto_fix]; [None] when it raises. *)
Definition auto_fix (nodes : list node) : option (list node) :=
  let nodes := dedupe nodes ∅ in
  let id_set := ids_of nodes in
  nodes ← mapM fix_keys nodes;
  let missing_ids := missing_of id_set nodes in
  let nodes := trim_choices <$> nodes in
  let nodes :=
    if bool_decide (missing_ids = ∅) then nodes
    else
      let next_auto :=
        match max_number nodes with
        | Some m => m + 1
        | None => 1
        end in
      nodes ++ make_stubs (PySort.sorted_strings (elements missing_ids))
                 next_auto in
  Some (order_nodes (guarantee_win nodes)).

(** ** Vocabulary of the statements about validate.py *)


(** A store of one node, declared [normal], with no choice. *)
Definition choiceless_normal : list node :=
  [Node (Some "section_1") (Some 1) (Some "The Gate")
     (Some "A locked gate.") (Some "normal") []].

(** Every choice whose [next] is a string points to the id of a node of
    the list. *)
Definition links_resolve (nodes : list node) : Prop :=
  ∀ n c nxt, n ∈ nodes → c ∈ n_choices n → c_next c = Some nxt →
             nxt ∈ ids_of nodes.

(** A node with the keys that the game reads: an id, a section number, a
    title, a text and one of the four node types, [normal] when it has a
    choice, and no choice label longer than 60 characters. *)
Definition complete (n : node) : Prop :=
  is_Some (n_id n) ∧
  is_Some (n_section_number n) ∧ is_Some (n_title n) ∧ is_Some (n_text n) ∧
  (∃ t, n_node_type n = Some t ∧ t ∈ VALID_NODE_TYPES) ∧
  (n_choices n ≠ [] → n_node_type n = Some "normal") ∧
  Forall (λ c, (String.length (c_text c) ≤ 60)%nat) (n_choices n).

(** The key of the second sort of [auto_fix]: section 1 first, then by
    section number. *)
Definition entry_first_key (n : node) : Z * Z :=
  (if bool_decide (n_section_number n ≠ Some 1) then 1 else 0, number_key n).

(** A store with a link to a node it does not have, and a node with only
    an id and a text. *)
Definition dangling_store : list node :=
  [Node (Some "section_1") (Some 1) (Some "The Gate") (Some "A locked gate.")
     (Some "normal")
     [Choice "Climb over" (Some "section_2");
      Choice "Walk around" (Some "section_7")];
   Node (Some "section_2") None None (Some "You win the day.") None []].

End Validate.

(** * lint_story.py *)
Module LintStory.
Import Re.

(** A choice and a node of the store, with the fields the linter reads
    and the ones it carries along. *)
Record choice := Choice {
  c_text : string;
  c_next : string
}.

Record node := Node {
  n_id : string;
  n_section_number : Z;
  n_title : string;
  n_text : string;
  n_node_type : string;
  n_choices : list choice
}.

#[global] Instance choice_eq_dec : EqDecision choice.
Proof. solve_decision. Defined.

(** [re.sub(r"[^a-z0-9]+", " ", text.lower()).strip()] *)
Definition normalize_choice_text (text : string) : string :=
  Py.strip
    (sub (plus (Chr (λ c, negb (Py.islower c || Py.isdigit c))))
       (λ _, " ") (Py.lower text)).

Definition choice_key (c : choice) : string * string :=
  (normalize_choice_text (c_text c), c_next c).

(** The inner loop of [choice_duplicates] for the node [node_id]. *)
Fixpoint node_duplicates (node_id : string) (choices : list choice)
    (seen : gset (string * string)) : list (string * string * string) :=
  match choices with
  | [] => []
  | c :: rest =>
      if bool_decide (choice_key c ∈ seen)
      then (node_id, c_text c, c_next c) :: node_duplicates node_id rest seen
      else node_duplicates node_id rest ({[choice_key c]} ∪ seen)
  end.

Definition choice_duplicates (nodes : list node)
    : list (string * string * string) :=
  nodes ≫= (λ n, node_duplicates (n_id n) (n_choices n) ∅).

(** The inner loop of [fix_duplicate_choices]: the list [unique] and the
    number of choices dropped. *)
Fixpoint unique_choices (choices : list choice)
    (seen : gset (string * string)) : list choice * nat :=
  match choices with
  | [] => ([], O)
  | c :: rest =>
      if bool_decide (choice_key c ∈ seen)
      then let '(unique, removed) := unique_choices rest seen in
           (unique, S removed)
      else let '(unique, removed) :=
             unique_choices rest ({[choice_key c]} ∪ seen) in
           (c :: unique, removed)
  end.

Definition set_choices (n : node) (choices : list choice) : node :=
  Node (n_id n) (n_section_number n) (n_title n) (n_text n) (n_node_type n)
    choices.

(** [fix_duplicate_choices]: the nodes after the in-place update, and
    the count it returns. *)
Fixpoint fix_duplicate_choices (nodes : list node) : list node * nat :=
  match nodes with
  | [] => ([], O)
  | n :: rest =>
      let '(unique, removed) := unique_choices (n_choices n) ∅ in
      let '(rest', removed') := fix_duplicate_choices rest in
      (set_choices n (take 4 unique) :: rest', (removed + removed')%nat)
  end.

(** The inner loop of the traversal: the successors of the node just
    taken off the queue. *)
Fixpoint visit (nxts : list string) (seen : gset string) (q : list string)
    : gset string * list string :=
  match nxts with
  | [] => (seen, q)
  | nxt :: rest =>
      if bool_decide (nxt ∈ seen) then visit rest seen q
      else visit rest ({[nxt]} ∪ seen) (q ++ [nxt])
  end.

(** [while q: ...], unrolled at most [fuel] times. *)
Fixpoint bfs (fuel : nat) (graph : gmap string (list string))
    (q : list string) (seen : gset string) : gset string * list string :=
  match fuel with
  | O => (seen, q)
  | S fuel' =>
      match q with
      | [] => (seen, q)
      | cur :: q' =>
          let '(seen', q'') := visit (default [] (graph !! cur)) seen q' in
          bfs fuel' graph q'' seen'
      end
  end.

Definition idset_of (nodes : list node) : gset string :=
  list_to_set (n_id <$> nodes).

(** [{n["id"]: [c.get("next") for c in ... if c.get("next") in idset]
    for n in nodes}] *)
Definition graph_of (nodes : list node) : gmap string (list string) :=
  let idset := idset_of nodes in
  foldl (λ g n,
           <[n_id n := List.filter (λ nxt, bool_decide (nxt ∈ idset))
                         (c_next <$> n_choices n)]> g)
    ∅ nodes.

(** Every node enters the queue at most once, so the loop ends within as
    many rounds as there are ids. *)
Definition reachable (nodes : list node) (entry : string) : gset string :=
  (bfs (size (idset_of nodes)) (graph_of nodes) [entry] {[entry]}).1.

(** [reachable_ratio]; the quotient of the two lengths is kept exact. *)
Definition reachable_ratio (nodes : list node) : Q * nat * nat :=
  match nodes with
  | [] => (0%Q, O, O)
  | first :: _ =>
      let seen := reachable nodes (n_id first) in
      (Qmake (Z.of_nat (size seen)) (Pos.of_nat (length nodes)),
       size seen, length nodes)
  end.

(** The allow-list of [max_noise_ratio] below code point 128. *)
Definition allowed (c : ascii) : bool :=
  Py.isalnum c
  || Py.mem c (" .,!?;:'()-[]{}_/\@#$%^&*+=<>|`~")
  || Py.in_range 9 10 c || (Py.code c =? 13)%N || (Py.code c =? 34)%N.

Definition max_noise_ratio (nodes : list node) : Q * string :=
  foldl (λ '(max_ratio, max_node) n,
           match n_text n with
           | EmptyString => (max_ratio, max_node)
           | text =>
               let bad := Py.count (λ ch, negb (allowed ch)) text in
               let ratio :=
                 Qmake (Z.of_nat bad) (Pos.of_nat (String.length text)) in
               if Qle_bool ratio max_ratio then (max_ratio, max_node)
               else (ratio, n_id n)
           end)
    (0%Q, EmptyString) nodes.

Record args := Args {
  story : string;
  min_reachable_ratio : Q;
  max_noise_ratio_arg : Q;
  fix_flag : bool
}.

(** What the path [args.story] holds. *)
Inductive story_file :=
| Missing
| InvalidJson
| NotAList
| Store (nodes : list node).

Inductive check := DuplicateChoices | ReachableRatio | NoiseRatio.
Inductive verdict := PASS | FAIL.

(** A printed line: its leading word and the values formatted into it. *)
Inductive line :=
| Error (reason : story_file)
| Fixed (removed : nat)
| Duplicates (v : verdict) (total : nat)
| Reachable (v : verdict) (ratio threshold : Q) (reachable total : nat)
| Noise (v : verdict) (ratio threshold : Q) (noisy_node : string).

Record run := Run {
  printed : list line;
  written : option (list node);
  exit_code : Z
}.

Definition main (a : args) (file : story_file) : run :=
  match file with
  | Store nodes =>
      let '(nodes, fixed, written) :=
        if fix_flag a then
          let '(nodes', removed) := fix_duplicate_choices nodes in
          match removed with
          | O => (nodes', [], None)
          | S _ => (nodes', [Fixed removed], Some nodes')
          end
        else (nodes, [], None) in
      let duplicates := choice_duplicates nodes in
      let '(ratio, reachable, total) := reachable_ratio nodes in
      let '(noise_ratio, noisy_node) := max_noise_ratio nodes in
      let dup_failed := bool_decide (duplicates ≠ []) in
      let reach_failed :=
        negb (Qle_bool (min_reachable_ratio a) ratio) in
      let noise_failed :=
        negb (Qle_bool noise_ratio (max_noise_ratio_arg a)) in
      let verdict_of (failed : bool) := if failed then FAIL else PASS in
      Run (fixed ++
           [Duplicates (verdict_of dup_failed) (length duplicates);
            Reachable (verdict_of reach_failed) ratio
              (min_reachable_ratio a) reachable total;
            Noise (verdict_of noise_failed) noise_ratio
              (max_noise_ratio_arg a) noisy_node])
        written
        (if dup_failed || reach_failed || noise_failed then 1 else 0)
  | _ => Run [Error file] None 2
  end.

(** ** Vocabulary of the statements about lint_story.py *)

(** The keys of the choices are distinct and none is in [seen]. *)
Definition fresh_keys (seen : gset (string * string)) (cs : list choice)
    : Prop :=
  NoDup (choice_key <$> cs) ∧ ∀ c, c ∈ cs → choice_key c ∉ seen.

(** The check that a printed line reports on, and its verdict. *)
Definition line_verdict (l : line) : option (check * verdict) :=
  match l with
  | Duplicates v _ => Some (DuplicateChoices, v)
  | Reachable v _ _ _ _ => Some (ReachableRatio, v)
  | Noise v _ _ _ => Some (NoiseRatio, v)
  | Error _ | Fixed _ => None
  end.

(** The nodes the three checks run on: the store, after the duplicate fix
    when [--fix] is given. *)
Definition checked_nodes (a : args) (nodes : list node) : list node :=
  if fix_flag a then (fix_duplicate_choices nodes).1 else nodes.

Definition duplicates_pass (ns : list node) : Prop :=
  choice_duplicates ns = [].
Definition reachable_pass (a : args) (ns : list node) : Prop :=
  Qle_bool (min_reachable_ratio a) (reachable_ratio ns).1.1 = true.
Definition noise_pass (a : args) (ns : list node) : Prop :=
  Qle_bool (max_noise_ratio ns).1 (max_noise_ratio_arg a) = true.

(** Scenario E: two choices with the label "go north" and one
    destination. *)
Definition scenario_E : list node :=
  [Node "section_1" 1 "Crossroads" "The road forks." "normal"
     [Choice "Go north" "section_2"; Choice "go north!" "section_2"];
   Node "section_2" 2 "North" "A quiet meadow." "ending_win" []].

(** [b] is one of the link targets that the graph of [reachable_ratio]
    keeps for the id [a]. *)
Definition linked (nodes : list node) (a b : string) : Prop :=
  ∃ nxts, graph_of nodes !! a = Some nxts ∧ b ∈ nxts.

(** What holds of [seen] and [q] each time the [while] loop tests its
    queue: what is queued has been seen, what has been seen is linked to
    the entry, and the targets of a seen id that has left the queue have
    been seen. *)
Definition bfs_inv (graph : gmap string (list string)) (entry : string)
    (seen : gset string) (q : list string) : Prop :=
  entry ∈ seen ∧
  (∀ x, x ∈ q → x ∈ seen) ∧
  (∀ x, x ∈ seen →
        rtc (λ a b, ∃ l, graph !! a = Some l ∧ b ∈ l) entry x) ∧
  (∀ a b l, a ∈ seen → a ∉ q → graph !! a = Some l → b ∈ l → b ∈ seen).

(** The share of the characters of the node's text that are outside the
    allow-list; 0 for an empty text. *)
Definition noise_of (n : node) : Q :=
  match n_text n with
  | EmptyString => 0%Q
  | text =>
      Qmake (Z.of_nat (Py.count (λ ch, negb (allowed ch)) text))
        (Pos.of_nat (String.length text))
  end.

End LintStory.

(** * Decoded JSON values *)
Module Json.

(** What [json.loads] returns for a document whose numbers are integers.
    A document with a float (a fraction, an exponent, [NaN], [Infinity])
    is outside the embedding: [int] of an infinite float raises
    [OverflowError], which [_as_int] does not catch. *)
#[warnings="-register-all"] Inductive json :=
| JNull
| JBool (b : bool)
| JInt (n : Z)
| JStr (s : string)
| JList (items : list json)
| JDict (entries : list (string * json)).

(** [d.get(key)] on the entries of a dictionary. *)
Fixpoint lookup (key : string) (entries : list (string * json))
    : option json :=
  match entries with
  | [] => None
  | (k, v) :: rest => if String.eqb k key then Some v else lookup key rest
  end.

(** [raw.get(key)] for a value known to be a mapping. *)
Definition get (raw : json) (key : string) : option json :=
  match raw with
  | JDict entries => lookup key entries
  | _ => None
  end.

Definition quote (s : string) : string := "'" +:+ s +:+ "'".

(** [str(value)].  Scalars are rendered as Python does; inside a list or
    a dictionary a string is shown between single quotes, without the
    escapes that [repr] adds for quotes and control characters. *)
Fixpoint str (inner : bool) (v : json) : string :=
  match v with
  | JNull => "None"
  | JBool true => "True"
  | JBool false => "False"
  | JInt n => Py.str n
  | JStr s => if inner then quote s else s
  | JList items => "[" +:+ Py.join ", " (List.map (str true) items) +:+ "]"
  | JDict entries =>
      "{" +:+ Py.join ", "
                (List.map (λ e, quote (fst e) +:+ ": " +:+ str true (snd e))
                   entries)
          +:+ "}"
  end.

Definition py_str : json → string := str false.

Definition is_dict (v : json) : bool :=
  match v with JDict _ => true | _ => false end.

(** [bool(value)] *)
Definition truthy (v : json) : bool :=
  match v with
  | JNull => false
  | JBool b => b
  | JInt n => negb (n =? 0)
  | JStr s => negb (String.eqb s EmptyString)
  | JList items => match items with [] => false | _ => true end
  | JDict entries => match entries with [] => false | _ => true end
  end.

(** [a == b]: [True] and [False] are the integers 1 and 0, lists compare
    item by item, dictionaries key by key whatever the order of their
    entries (the keys of a dictionary being distinct). *)
Fixpoint py_eq (a b : json) : bool :=
  match a, b with
  | JNull, JNull => true
  | JBool x, JBool y => Bool.eqb x y
  | JBool x, JInt n | JInt n, JBool x => n =? (if x then 1 else 0)
  | JInt m, JInt n => m =? n
  | JStr s, JStr t => String.eqb s t
  | JList xs, JList ys =>
      (fix items xs ys :=
         match xs, ys with
         | [], [] => true
         | x :: xs', y :: ys' => py_eq x y && items xs' ys'
         | _, _ => false
         end) xs ys
  | JDict es, JDict fs =>
      (length es =? length fs)%nat &&
      (fix entries es :=
         match es with
         | [] => true
         | (k, v) :: es' =>
             match lookup k fs with
             | Some w => py_eq v w
             | None => false
             end && entries es'
         end) es
  | _, _ => false
  end.

End Json.

(** * story.py *)
Module Story.
Import Json Re.

(** [_as_int]: [int(value)], or the default when it raises. *)
Definition _as_int (value : option json) (fallback : Z) : Z :=
  match value with
  | Some (JInt n) => n
  | Some (JBool b) => if b then 1 else 0
  | Some (JStr s) => default fallback (Py.int_of_str s)
  | _ => fallback
  end.

Record choice := Choice {
  c_text : string;
  c_next : string;
  c_requires : json;
  c_effects : json
}.

Record node := Node {
  n_id : string;
  n_section_number : Z;
  n_title : string;
  n_text : string;
  n_ascii_art : list string;
  n_node_type : string;
  n_choices : list choice;
  n_effects : json;
  n_random_event_pool : list json
}.

(** [str(raw.get(key, default))] *)
Definition get_str (raw : json) (key default : string) : string :=
  match get raw key with
  | Some v => py_str v
  | None => default
  end.

Definition or_else (s default : string) : string :=
  match s with EmptyString => default | _ => s end.

(** [value if isinstance(value, Mapping) else {}] *)
Definition mapping_or_empty (value : option json) : json :=
  match value with
  | Some (JDict entries) => JDict entries
  | _ => JDict []
  end.

(** [re.sub(r"[^a-z0-9]+", " ", choice_text.lower()).strip()] *)
Definition norm_text (choice_text : string) : string :=
  Py.strip
    (sub (plus (Chr (λ c, negb (Py.islower c || Py.isdigit c))))
       (λ _, " ") (Py.lower choice_text)).

(** The loop over [choices_raw[:4]]: a choice is appended and, when its
    key was seen, popped again. *)
Fixpoint normalize_choices (choices_raw : list json)
    (seen_choices : gset (string * string)) : list choice :=
  match choices_raw with
  | [] => []
  | raw :: rest =>
      if negb (is_dict raw) then normalize_choices rest seen_choices
      else
        let next_id := Py.strip (get_str raw "next" EmptyString) in
        match next_id with
        | EmptyString => normalize_choices rest seen_choices
        | _ =>
            let choice_text :=
              or_else (Py.strip (get_str raw "text" "Continue")) "Continue" in
            let c := Choice choice_text next_id
                       (mapping_or_empty (get raw "requires"))
                       (mapping_or_empty (get raw "effects")) in
            let dedupe_key := (norm_text choice_text, next_id) in
            if bool_decide (dedupe_key ∈ seen_choices)
            then normalize_choices rest seen_choices
            else c :: normalize_choices rest ({[dedupe_key]} ∪ seen_choices)
        end
  end.

Definition VALID_NODE_TYPES : list string :=
  ["normal"; "ending_win"; "ending_death"; "ending_neutral"].

(** The list [choices] that [_normalize_node] builds from [raw]. *)
Definition node_choices (raw : json) : list choice :=
  match get raw "choices" with
  | Some (JList choices_raw) => normalize_choices (take 4 choices_raw) ∅
  | Some _ => []
  | None => []
  end.

(** [str(raw.get("node_type", "normal")).strip() or "normal"] *)
Definition declared_node_type (raw : json) : string :=
  or_else (Py.strip (get_str raw "node_type" "normal")) "normal".

Definition _normalize_node (raw : json) : node :=
  let node_id := Py.strip (get_str raw "id" EmptyString) in
  let section_number := _as_int (get raw "section_number") 0 in
  let node_id :=
    match node_id with
    | EmptyString =>
        if bool_decide (0 < section_number)
        then "section_" +:+ Py.str section_number
        else "section_0"
    | _ => node_id
    end in
  let section_number :=
    if bool_decide (section_number ≤ 0) && Py.startswith node_id "section_"
    then _as_int (Some (JStr (Py.last_part (Py.split "_" node_id)))) 0
    else section_number in
  let choices := node_choices raw in
  let node_type := declared_node_type raw in
  let node_type :=
    if bool_decide (node_type ∈ VALID_NODE_TYPES) then node_type
    else match choices with
         | _ :: _ => "normal"
         | [] => "ending_neutral"
         end in
  let node_type :=
    if bool_decide (node_type = "normal") && bool_decide (choices = [])
    then "ending_neutral"  (* no softlock on a normal node without choices *)
    else node_type in
  let ascii_art :=
    match get raw "ascii_art" with
    | Some (JList art) => art
    | _ => []
    end in
  let random_events :=
    match get raw "random_event_pool" with
    | Some (JList events) => events
    | _ => []
    end in
  Node node_id
    (if bool_decide (0 < section_number) then section_number else 0)
    (or_else (Py.strip (get_str raw "title" EmptyString)) "Untitled Scene")
    (get_str raw "text" EmptyString)
    (py_str <$> take 10 ascii_art)
    node_type choices
    (mapping_or_empty (get raw "effects"))
    random_events.

(** The ten rows of box art of the placeholder are drawn with characters
    above code point 127 and are left out. *)
Definition _default_story : list node :=
  [Node "section_1" 1 "Cold Start"
     "No story file was found. Add story.json to continue."
     [] "ending_neutral" [] (JDict []) []].

(** The two attributes of a [StoryEngine]. *)
Record engine := Engine {
  nodes : list node;
  node_by_id : gmap string node
}.

(** [load]: [data] is what the story file decodes to, [None] when the
    file is missing, unreadable or not JSON. *)
Definition load (data : option json) : engine :=
  let nodes :=
    match data with
    | Some (JList (item :: items)) =>
        let normalized :=
          _normalize_node <$> List.filter is_dict (item :: items) in
        let nodes :=
          List.filter (λ n, negb (String.eqb (n_id n) EmptyString))
            normalized in
        match nodes with
        | [] => _default_story
        | _ => nodes
        end
    | _ => _default_story
    end in
  Engine (PySort.sorted_tagged (λ n, (n_section_number n, n_id n)) nodes)
    (foldl (λ m n, <[n_id n := n]> m) ∅ nodes).

Definition get_node (e : engine) (node_id : string) : option node :=
  node_by_id e !! node_id.

Definition get_entry_node (e : engine) : node :=
  match node_by_id e !! "section_1" with
  | Some n => n
  | None =>
      match nodes e with
      | n :: _ => n
      | [] => List.hd (Node EmptyString 0 EmptyString EmptyString []
                         EmptyString [] (JDict []) []) _default_story
      end
  end.

(** ** The interface of the game: links and requirements *)

Definition STAT_KEYS : list string := ["health"; "food"; "gold"; "morale"].

Definition node_exists (e : engine) (node_id : string) : bool :=
  bool_decide (is_Some (node_by_id e !! node_id)).

(** The argument [node_or_id]: an id, or a node as the engine hands them
    out. *)
Inductive node_ref :=
| ById (node_id : string)
| ByNode (n : node).

Definition resolve_node (e : engine) (node_or_id : node_ref) : option node :=
  match node_or_id with
  | ById node_id => get_node e node_id
  | ByNode n =>
      let node_id := Py.strip (n_id n) in
      match node_id, node_by_id e !! node_id with
      | String _ _, Some found => Some found
      | _, _ => Some n
      end
  end.

(** The argument [player_or_stats]: [None], a mapping, or an object read
    through [getattr], given by its attributes. *)
Inductive stats_source :=
| NoStats
| StatsMapping (entries : list (string * json))
| StatsObject (attributes : list (string * json)).

(** The dictionary [stats]: the four stats as integers, then the other
    entries of a mapping. *)
Definition _extract_stats (player_or_stats : stats_source)
    : list (string * json) :=
  let stat (key : string) : string * json :=
    (key,
     JInt match player_or_stats with
          | StatsMapping entries =>
              _as_int (Some (default (JInt 0) (lookup key entries))) 0
          | StatsObject attributes =>
              _as_int (Some (default (JInt 0) (lookup key attributes))) 0
          | NoStats => 0
          end) in
  let stats := stat <$> STAT_KEYS in
  match player_or_stats with
  | StatsMapping entries =>
      foldl (λ stats '(key, value),
               match lookup key stats with
               | None => stats ++ [(key, value)]
               | Some _ => stats
               end) stats entries
  | _ => stats
  end.

Definition _compare_rule (current rule : json) : bool :=
  match rule with
  | JDict entries =>
      let cur := _as_int (Some current) 0 in
      let bound (key : string) (holds : Z → bool) : bool :=
        match lookup key entries with
        | Some v => holds (_as_int (Some v) 0)
        | None => true
        end in
      bound "min" (λ v, v <=? cur)
      && bound "max" (λ v, cur <=? v)
      && bound "gt" (λ v, v <? cur)
      && bound "gte" (λ v, v <=? cur)
      && bound "lt" (λ v, cur <? v)
      && bound "lte" (λ v, cur <=? v)
      && match lookup "eq" entries with
         | Some v => py_eq current v
         | None => true
         end
      && match lookup "ne" entries with
         | Some v => negb (py_eq current v)
         | None => true
         end
      && match lookup "in" entries with
         | Some (JList items) => existsb (py_eq current) items
         | _ => true
         end
      && match lookup "not_in" entries with
         | Some (JList items) => negb (existsb (py_eq current) items)
         | _ => true
         end
  | JBool b => Bool.eqb (truthy current) b
  | JInt n => n <=? _as_int (Some current) 0
  | _ => py_eq current rule
  end.

(** [requires] is a mapping or [None]. *)
Definition requirements_met (requires : option (list (string * json)))
    (player_or_stats : stats_source) : bool :=
  match requires with
  | None | Some [] => true
  | Some entries =>
      let stats := _extract_stats player_or_stats in
      forallb (λ '(key, rule),
                 match lookup key stats with
                 | None => false
                 | Some current => _compare_rule current rule
                 end) entries
  end.

Definition choice_available (c : choice) (player_or_stats : stats_source)
    : bool :=
  match c_requires c with
  | JDict requires => requirements_met (Some requires) player_or_stats
  | _ => true
  end.

Definition get_available_choices (e : engine) (node_or_id : node_ref)
    (player_or_stats : stats_source) (include_locked : bool) : list choice :=
  match resolve_node e node_or_id with
  | None => []
  | Some n =>
      if include_locked then n_choices n
      else List.filter (λ c, choice_available c player_or_stats)
             (n_choices n)
  end.

Definition resolve_choice_next_id (e : engine) (node_or_id : node_ref)
    (choice_index : Z) (player_or_stats : stats_source)
    (include_locked : bool) : option string :=
  let choices :=
    get_available_choices e node_or_id player_or_stats include_locked in
  if bool_decide (choice_index < 0 ∨ Z.of_nat (length choices) ≤ choice_index)
  then None
  else
    match choices !! Z.to_nat choice_index with
    | None => None
    | Some c =>
        let next_id := Py.strip (c_next c) in
        match next_id with
        | EmptyString => None
        | _ => if node_exists e next_id then Some next_id else None
        end
    end.

Definition resolve_choice_node (e : engine) (node_or_id : node_ref)
    (choice_index : Z) (player_or_stats : stats_source)
    (include_locked : bool) : option node :=
  match resolve_choice_next_id e node_or_id choice_index player_or_stats
          include_locked with
  | None | Some EmptyString => None
  | Some next_id => get_node e next_id
  end.

(** ** Vocabulary of the statements about story.py *)

(** A node the player can leave: not a [normal] node without choices. *)
Definition playable (n : node) : Prop :=
  n_node_type n = "normal" → n_choices n ≠ [].

(** A store whose only node is declared [normal] and has no choice. *)
Definition softlock_store : json :=
  JList [JDict [("id", JStr "section_2"); ("node_type", JStr "normal");
                ("choices", JList [])]].

(** The key [dedupe_key] under which [_normalize_node] tells choices apart. *)
Definition dedupe_key (c : choice) : string * string :=
  (norm_text (c_text c), c_next c).

(** A choice as [_normalize_node] writes it: a label, a target, and two
    mappings. *)
Definition normalized_choice (c : choice) : Prop :=
  c_text c ≠ EmptyString ∧ c_next c ≠ EmptyString ∧
  is_dict (c_requires c) = true ∧ is_dict (c_effects c) = true.

(** A node as [_normalize_node] writes it. *)
Definition normalized (n : node) : Prop :=
  n_id n ≠ EmptyString ∧ 0 ≤ n_section_number n ∧
  n_title n ≠ EmptyString ∧ n_node_type n ∈ VALID_NODE_TYPES ∧
  (length (n_ascii_art n) ≤ 10)%nat ∧ is_dict (n_effects n) = true ∧
  (length (n_choices n) ≤ 4)%nat ∧
  Forall normalized_choice (n_choices n) ∧
  NoDup (dedupe_key <$> n_choices n).

(** The value that [_extract_stats] gives the stat [key]. *)
Definition stat_value (player_or_stats : stats_source) (key : string) : Z :=
  match player_or_stats with
  | NoStats => 0
  | StatsMapping entries | StatsObject entries =>
      _as_int (Some (default (JInt 0) (lookup key entries))) 0
  end.

End Story.

(** * The properties of the pipeline *)

Section SortFacts.
Import PySort.
Context {A : Type}.

#[local] Instance pair_le_total : Total pair_le.
Proof. intros [a b] [c d]. unfold pair_le. simpl. lia. Qed.
#[local] Instance pair_le_trans : Transitive pair_le.
Proof. intros [a b] [c d] [e f]. unfold pair_le. simpl. lia. Qed.

#[local] Instance by_le_total (key : A → Z * Z) : Total (by_le key).
Proof. intros a b. apply pair_le_total. Qed.
#[local] Instance by_le_trans (key : A → Z * Z) : Transitive (by_le key).
Proof. intros a b c. apply pair_le_trans. Qed.

Lemma insert_in_order_perm (R : relation A) `{!RelDecision R} x l :
  insert_in_order R x l ≡ₚ x :: l.
Proof.
  induction l as [|y l IH]; simpl; [done|].
  destruct (decide (R x y)); [done|]. by rewrite IH, Permutation_swap.
Qed.

Lemma stable_sort_perm (R : relation A) `{!RelDecision R} l :
  stable_sort R l ≡ₚ l.
Proof.
  induction l as [|x l IH]; simpl; [done|].
  by rewrite insert_in_order_perm, IH.
Qed.

Lemma insert_in_order_sorted (R : relation A)
    `{!RelDecision R, !Transitive R, !Total R} x l :
  StronglySorted R l → StronglySorted R (insert_in_order R x l).
Proof.
  induction 1 as [|y l Hsorted IH Hall]; simpl.
  - by repeat constructor.
  - destruct (decide (R x y)) as [Hxy|Hxy].
    + constructor; [by constructor|]. constructor; [done|].
      eapply Forall_impl; [exact Hall|]. intros z Hz. by etrans.
    + constructor; [done|]. rewrite insert_in_order_perm.
      constructor; [|done]. by destruct (total R x y).
Qed.

Lemma stable_sort_sorted (R : relation A)
    `{!RelDecision R, !Transitive R, !Total R} l :
  StronglySorted R (stable_sort R l).
Proof.
  induction l as [|x l IH]; simpl; [constructor|].
  by apply insert_in_order_sorted.
Qed.

Lemma sorted_by_perm (key : A → Z * Z) l : sorted_by key l ≡ₚ l.
Proof. apply stable_sort_perm. Qed.

Lemma sorted_on_perm (key : A → Z) l : sorted_on key l ≡ₚ l.
Proof. apply stable_sort_perm. Qed.

Lemma sorted_tagged_perm (key : A → Z * string) l : sorted_tagged key l ≡ₚ l.
Proof. apply stable_sort_perm. Qed.

(** The head of [sorted(l, key)] is an element of [l] with the least key. *)
Lemma sorted_by_head (key : A → Z * Z) l x rest :
  sorted_by key l = x :: rest →
  x ∈ l ∧ ∀ y, y ∈ l → pair_le (key x) (key y).
Proof.
  intros Hs. pose proof (sorted_by_perm key l) as Hp.
  pose proof (stable_sort_sorted (by_le key) l) as Hss.
  fold (sorted_by key l) in Hss. rewrite Hs in Hp, Hss.
  split; [rewrite <- Hp; by left|].
  intros y Hy. rewrite <- Hp in Hy.
  apply elem_of_cons in Hy as [->|Hy].
  - destruct (total pair_le (key x) (key x)); done.
  - apply StronglySorted_inv in Hss as [_ Hall].
    by eapply Forall_forall in Hall.
Qed.

Lemma sorted_by_nil (key : A → Z * Z) l : sorted_by key l = [] → l = [].
Proof.
  intros Hs. pose proof (sorted_by_perm key l) as Hp. rewrite Hs in Hp.
  by apply Permutation_nil_l in Hp.
Qed.
End SortFacts.

Section ListFacts.
Context {A B : Type} (R : A → B → Prop).

Lemma Forall2_elem_r l k y :
  Forall2 R l k → y ∈ k → ∃ x, x ∈ l ∧ R x y.
Proof.
  induction 1 as [|x y' l k HR _ IH]; [by intros ?%elem_of_nil|].
  intros [->|Hy]%elem_of_cons.
  - exists x. split; [by left|done].
  - destruct (IH Hy) as (x' & Hx' & HR'). exists x'. split; [by right|done].
Qed.

Lemma Forall2_elem_l l k x :
  Forall2 R l k → x ∈ l → ∃ y, y ∈ k ∧ R x y.
Proof.
  induction 1 as [|x' y l k HR _ IH]; [by intros ?%elem_of_nil|].
  intros [->|Hx]%elem_of_cons.
  - exists y. split; [by left|done].
  - destruct (IH Hx) as (y' & Hy' & HR'). exists y'. split; [by right|done].
Qed.
End ListFacts.

Section TokenToInt.
Import RepairStoryText.

Lemma ocr_lookup_table c :
  Py.isdigit c = false → ocr_lookup c = spec_substitute c.
Proof.
  destruct c as [[] [] [] [] [] [] [] []]; vm_compute; congruence.
Qed.

Lemma ocr_digits_spec token :
  ocr_digits token =
  if spec_mapped token then Some (spec_digits token) else None.
Proof.
  induction token as [|c t IH]; [done|].
  cbn [ocr_digits spec_mapped spec_digits Py.all Py.smap].
  fold (spec_mapped t) (spec_digits t). rewrite IH.
  destruct (Py.isdigit c) eqn:Hd.
  - assert (spec_substitute c = Some c) as ->
      by (unfold spec_substitute; by rewrite Hd).
    rewrite bool_decide_true by eauto. simpl.
    by destruct (spec_mapped t).
  - rewrite (ocr_lookup_table c Hd).
    destruct (spec_substitute c) as [d|] eqn:Hs; simpl; [|done].
    by destruct (spec_mapped t).
Qed.

Lemma all_digits_mapped token :
  Py.all Py.isdigit token = true →
  spec_mapped token = true ∧ spec_digits token = token.
Proof.
  induction token as [|c t IH]; [done|].
  cbn [Py.all spec_mapped spec_digits Py.smap].
  intros [Hc Ht]%andb_true_iff. destruct (IH Ht) as [IH1 IH2].
  fold (spec_mapped t) (spec_digits t). rewrite IH1, IH2.
  assert (spec_substitute c = Some c) as ->
    by (unfold spec_substitute; by rewrite Hc).
  by rewrite bool_decide_true by eauto.
Qed.

(** C7: a destination token (never empty) every character of which is a
    digit or has a substitute in the table is read as the number that the
    substituted digits spell; a token with a character that has none is
    discarded. *)
Theorem token_to_int_substitutes (token : string) :
  token ≠ EmptyString →
  (spec_mapped token = true →
     token_to_int token = Some (Py.int_digits (spec_digits token))) ∧
  (spec_mapped token = false → token_to_int token = None).
Proof.
  intros Hne. unfold token_to_int.
  destruct (Py.str_isdigit token) eqn:Hd.
  - destruct token as [|c t]; [done|]. unfold Py.str_isdigit in Hd.
    destruct (all_digits_mapped _ Hd) as [-> ->]. by split.
  - rewrite ocr_digits_spec. destruct (spec_mapped token) eqn:Hm; split; try done.
    intros _. destruct (spec_digits token) eqn:Hs; [|done].
    destruct token; [done|discriminate].
Qed.
Lemma token_to_int_substitutes_witness :
  token_to_int "l8" = Some 18 ∧ token_to_int "2x" = None.
Proof.
  split.
  - exact (proj1 (token_to_int_substitutes "l8" ltac:(discriminate)) eq_refl).
  - exact (proj2 (token_to_int_substitutes "2x" ltac:(discriminate)) eq_refl).
Defined.
End TokenToInt.

Section ExtractChoices.
Import RepairStoryText.

Lemma scan_matches_bounds ms seen_dest found :
  scanning seen_dest found →
  let out := scan_matches ms seen_dest found in
  (length out ≤ 4)%nat ∧ NoDup out.*2 ∧ Forall in_book out.*2 ∧
  ∃ more, out.*2 = found.*2 ++ more ∧
          more `sublist_of` omap match_destination ms.
Proof.
  revert seen_dest found.
  induction ms as [|m ms IH]; intros seen_dest found (Hlen & Hnd & Hrange & Hseen).
  - simpl. split; [lia|]. split; [done|]. split; [done|].
    exists []. by rewrite app_nil_r.
  - assert (omap match_destination (m :: ms)
            = match match_destination m with
              | Some d => d :: omap match_destination ms
              | None => omap match_destination ms
              end) as -> by done.
    cbn [scan_matches]. fold (match_destination m).
    destruct (match_destination m) as [d|] eqn:Hd; [|by apply IH].
    destruct (decide (1 ≤ d ≤ 500)) as [Hin|Hout].
    2:{ rewrite bool_decide_false by done. cbn [negb].
        destruct (IH seen_dest found) as (?&?&?& more & ? & ?); [done|].
        repeat split; try done. exists more. split; [done|].
        by apply sublist_cons. }
    rewrite bool_decide_true by done. cbn [negb].
    case_bool_decide as Hdup.
    { destruct (IH seen_dest found) as (?&?&?& more & ? & ?); [done|].
      repeat split; try done. exists more. split; [done|].
      by apply sublist_cons. }
    set (found' := found ++ [(clean_choice_label _ d, d)]).
    assert (Hfound' : found'.*2 = found.*2 ++ [d])
      by (subst found'; by rewrite fmap_app).
    assert (Hnd' : NoDup found'.*2).
    { rewrite Hfound'. apply NoDup_app. split; [done|]. split.
      - intros x Hx ->%list_elem_of_singleton. by apply Hdup, Hseen.
      - apply NoDup_singleton. }
    assert (Hrange' : Forall in_book found'.*2).
    { rewrite Hfound'. apply Forall_app. split; [done|]. by constructor. }
    assert (Hlen' : length found' = S (length found)).
    { subst found'. rewrite length_app. simpl. lia. }
    case_bool_decide as Hfull.
    + split; [lia|]. split; [done|]. split; [done|].
      exists [d]. split; [done|]. apply sublist_skip, sublist_nil_l.
    + destruct (IH ({[d]} ∪ seen_dest) found') as (?&?&?& more & Hmore & ?).
      { split; [lia|]. split; [done|]. split; [done|].
        intros x. rewrite Hfound'.
        intros [Hx| ->%list_elem_of_singleton]%elem_of_app.
        - apply elem_of_union. right. by apply Hseen.
        - apply elem_of_union. left. by apply elem_of_singleton. }
      repeat split; try done. exists (d :: more). split.
      * by rewrite Hmore, Hfound', <- app_assoc.
      * by apply sublist_skip.
Qed.

(** Supporting C6: whatever the text, [extract_choices] returns at most
    four pairs, their destinations distinct, within 1..500 and in the order
    of the matches they were read from. *)
Lemma extract_choices_bounds raw_text :
  let out := extract_choices raw_text in
  (length out ≤ 4)%nat ∧ NoDup out.*2 ∧ Forall in_book out.*2 ∧
  out.*2 `sublist_of`
    omap match_destination
      (Re.finditer CHOICE_SENTENCE_RE (normalize_ws (normalize_text raw_text))).
Proof.
  unfold extract_choices.
  destruct (scan_matches_bounds
              (Re.finditer CHOICE_SENTENCE_RE
                 (normalize_ws (normalize_text raw_text))) ∅ [])
    as (Hlen & Hnd & Hrange & more & Hmore & Hsub).
  { split; [simpl; lia|]. split; [constructor|]. split; [constructor|].
    intros d Hd. by apply elem_of_nil in Hd. }
  repeat split; try done. by rewrite Hmore.
Qed.
End ExtractChoices.

Section Traversal.
Import LintStory.

Lemma visit_measure (U : gset string) nxts seen q seen' q' :
  Forall (λ x, x ∈ U) nxts → seen ⊆ U →
  visit nxts seen q = (seen', q') →
  seen' ⊆ U ∧
  (length q' + size U - size seen' = length q + size U - size seen)%nat.
Proof.
  intros Hall. revert seen q.
  induction Hall as [|nxt nxts Hnxt _ IH]; intros seen q Hsub; simpl.
  - by intros [= <- <-].
  - case_bool_decide as Hin; [by apply IH|].
    intros Hv. apply IH in Hv as [Hsub' Hm].
    + split; [done|]. rewrite Hm, length_app. simpl.
      rewrite size_union by (apply disjoint_singleton_l; done).
      rewrite size_singleton.
      assert (size ({[nxt]} ∪ seen) ≤ size U)%nat as Hle.
      { apply subseteq_size. apply union_subseteq. split; [|done].
        by apply singleton_subseteq_l. }
      rewrite size_union in Hle by (apply disjoint_singleton_l; done).
      rewrite size_singleton in Hle. lia.
    + apply union_subseteq. split; [|done]. by apply singleton_subseteq_l.
Qed.

Lemma bfs_drains (U : gset string) (graph : gmap string (list string))
    fuel q seen :
  (∀ k l, graph !! k = Some l → Forall (λ x, x ∈ U) l) →
  seen ⊆ U → (length q + size U - size seen ≤ fuel)%nat →
  (bfs fuel graph q seen).2 = [].
Proof.
  intros Hgraph. revert q seen.
  induction fuel as [|fuel IH]; intros q seen Hsub Hfuel; simpl.
  - pose proof (subseteq_size _ _ Hsub). destruct q; [done|]. simpl in *. lia.
  - destruct q as [|cur q]; [done|].
    destruct (visit _ seen q) as [seen' q'] eqn:Hv.
    apply (visit_measure U) in Hv as [Hsub' Hm]; [| |done].
    + apply IH; [done|]. pose proof (subseteq_size _ _ Hsub).
      pose proof (subseteq_size _ _ Hsub'). simpl in Hfuel. lia.
    + destruct (graph !! cur) as [l|] eqn:Hl; simpl; [by eapply Hgraph|].
      constructor.
Qed.

Lemma graph_of_targets nodes k l :
  graph_of nodes !! k = Some l → Forall (λ x, x ∈ idset_of nodes) l.
Proof.
  unfold graph_of. generalize (idset_of nodes) as U. intros U.
  assert (Hgen : ∀ (g : gmap string (list string)),
            (∀ k l, g !! k = Some l → Forall (λ x, x ∈ U) l) →
            ∀ k l, foldl (λ g n,
                     <[n_id n := List.filter (λ nxt, bool_decide (nxt ∈ U))
                                   (c_next <$> n_choices n)]> g) g nodes
                   !! k = Some l → Forall (λ x, x ∈ U) l).
  { induction nodes as [|n nodes IH]; intros g Hg; simpl; [done|].
    apply IH. intros k' l'.
    destruct (decide (n_id n = k')) as [<-|Hne].
    - rewrite lookup_insert_eq. intros [= <-].
      apply Forall_forall. intros x Hx.
      apply list_elem_of_In, filter_In in Hx as [_ Hx].
      by apply bool_decide_eq_true in Hx.
    - rewrite lookup_insert_ne by done. apply Hg. }
  apply Hgen. intros k' l'. by rewrite lookup_empty.
Qed.

(** The traversal of [reachable_ratio] has emptied its queue when the
    rounds allowed to it are over: the set it returns is the one the
    [while] loop ends with. *)
Lemma reachable_drains first rest :
  (bfs (size (idset_of (first :: rest))) (graph_of (first :: rest))
     [n_id first] {[n_id first]}).2 = [].
Proof.
  assert (Hin : n_id first ∈ idset_of (first :: rest)).
  { unfold idset_of. apply elem_of_list_to_set. by left. }
  apply (bfs_drains (idset_of (first :: rest))).
  - apply graph_of_targets.
  - by apply singleton_subseteq_l.
  - rewrite size_singleton. simpl.
    assert (1 ≤ size (idset_of (first :: rest)))%nat; [|lia].
    rewrite <- (size_singleton (C := gset string) (n_id first)).
    by apply subseteq_size, singleton_subseteq_l.
Qed.
End Traversal.

Section BuildStoryLinks.
Import BuildStory.

Lemma near_sections_spec (ex : gset Z) dest n :
  n ∈ near_sections ex dest ↔ n ∈ ex ∧ Z.abs (n - dest) ≤ 2.
Proof.
  unfold near_sections. rewrite list_elem_of_filter, elem_of_elements. tauto.
Qed.

Lemma grows_refl st : grows st st.
Proof. split; auto. Qed.

Lemma grows_trans st1 st2 st3 : grows st1 st2 → grows st2 st3 → grows st1 st3.
Proof.
  intros [E1 K1 S1] [E2 K2 S2]. split.
  - by etrans.
  - auto.
  - intros n r [H|H]%S2; [by apply S1|by right].
Qed.

(** The three outcomes of the loop body. *)
Lemma fix_choice_cases source c st (dest := c_destination c) :
  (dest ∈ existing st ∧ fix_choice source c st = (c, st)) ∨
  ((dest ∉ existing st) ∧
   ∃ new_dest,
     new_dest ∈ existing st ∧ Z.abs (new_dest - dest) ≤ 2 ∧
     (∀ n, n ∈ existing st → Z.abs (n - dest) ≤ 2 →
           PySort.pair_le (choice_sort_key new_dest dest)
                          (choice_sort_key n dest)) ∧
     fix_choice source c st =
       (Choice (c_text c) new_dest,
        FixState (existing st) (by_num st)
          (report st ++
             ["Remapped missing destination " +:+ Py.str dest +:+ " -> "
                +:+ Py.str new_dest +:+ " (source section "
                +:+ Py.str source +:+ ")"]))) ∨
  ((dest ∉ existing st) ∧
   (∀ n, n ∈ existing st → 2 < Z.abs (n - dest)) ∧
   fix_choice source c st =
     (c,
      FixState ({[dest]} ∪ existing st)
        (<[dest := StubSection (stub_section dest)]> (by_num st))
        (report st ++
           ["Created stub section " +:+ Py.str dest
              +:+ " (referenced by section " +:+ Py.str source +:+ ")"]))).
Proof.
  unfold fix_choice. fold dest.
  case_bool_decide as Hin; [by left|right].
  destruct (PySort.sorted_by _ (near_sections (existing st) dest))
    as [|new_dest rest] eqn:Hs.
  - right. split; [done|]. split; [|done].
    apply sorted_by_nil in Hs. intros n Hn.
    destruct (decide (Z.abs (n - dest) ≤ 2)) as [Hnear|]; [|lia].
    assert (n ∈ near_sections (existing st) dest) as Hmem
      by by apply near_sections_spec.
    rewrite Hs in Hmem. by apply elem_of_nil in Hmem.
  - left. split; [done|]. exists new_dest.
    apply sorted_by_head in Hs as [Hmem Hmin].
    apply near_sections_spec in Hmem as [? ?].
    repeat split; try done.
    intros n Hn Hnear. apply Hmin. by apply near_sections_spec.
Qed.

Lemma fix_choice_grows source c st c' st' :
  consistent st → fix_choice source c st = (c', st') →
  consistent st' ∧ grows st st' ∧ c_destination c' ∈ existing st'.
Proof.
  intros Hwf Heq.
  destruct (fix_choice_cases source c st)
    as [[Hin H]|[(Hout & nd & Hnd & _ & _ & H)|(Hout & _ & H)]];
    rewrite H in Heq; injection Heq as <- <-.
  - auto using grows_refl.
  - split; [done|]. split; [by split; auto|done].
  - unfold consistent in *. simpl. split; [|split].
    + rewrite dom_insert_L. by rewrite Hwf.
    + split; simpl.
      * apply union_subseteq_r.
      * intros n r Hn. rewrite lookup_insert_ne; [done|].
        intros <-. apply Hout. rewrite <- Hwf. apply elem_of_dom. eauto.
      * intros n r. destruct (decide (c_destination c = n)) as [<-|Hne].
        -- rewrite lookup_insert_eq. intros [= <-]. by right.
        -- rewrite lookup_insert_ne by done. by left.
    + apply elem_of_union. left. by apply elem_of_singleton.
Qed.

Lemma fix_choices_grows source cs st cs' st' :
  consistent st → fix_choices source cs st = (cs', st') →
  consistent st' ∧ grows st st' ∧ resolved_in (existing st') cs'.
Proof.
  revert st cs' st'. induction cs as [|c cs IH]; intros st cs' st' Hwf; simpl.
  - intros [= <- <-]. split; [done|]. split; [apply grows_refl|constructor].
  - destruct (fix_choice source c st) as [c1 st1] eqn:H1.
    destruct (fix_choices source cs st1) as [cs2 st2] eqn:H2.
    intros [= <- <-].
    apply fix_choice_grows in H1 as (Hwf1 & Hg1 & Hc1); [|done].
    apply IH in H2 as (Hwf2 & Hg2 & Hcs2); [|done].
    split; [done|]. split; [by eapply grows_trans|].
    constructor; [|done]. by apply (grows_existing _ _ Hg2).
Qed.

Lemma resolved_in_mono ex ex' cs :
  ex ⊆ ex' → resolved_in ex cs → resolved_in ex' cs.
Proof.
  intros Hsub Hall. eapply Forall_impl; [exact Hall|].
  intros c Hc. by apply Hsub.
Qed.

Lemma fix_sections_grows secs st secs' st' :
  consistent st → fix_sections secs st = (secs', st') →
  consistent st' ∧ grows st st' ∧
  Forall2 (λ s s', s_section_number s' = s_section_number s ∧
                   resolved_in (existing st') (s_choices s')) secs secs'.
Proof.
  revert st secs' st'.
  induction secs as [|s secs IH]; intros st secs' st' Hwf; simpl.
  - intros [= <- <-]. split; [done|]. split; [apply grows_refl|constructor].
  - destruct (fix_choices _ (s_choices s) st) as [cs1 st1] eqn:H1.
    destruct (fix_sections secs st1) as [secs2 st2] eqn:H2.
    intros [= <- <-].
    apply fix_choices_grows in H1 as (Hwf1 & Hg1 & Hc1); [|done].
    apply IH in H2 as (Hwf2 & Hg2 & Hcs2); [|done].
    split; [done|]. split; [by eapply grows_trans|].
    constructor; [|done]. split; [done|]. simpl.
    eapply resolved_in_mono; [|done]. apply (grows_existing _ _ Hg2).
Qed.

Lemma index_sections_lookup secs i m n r :
  index_sections i secs m !! n = Some r →
  m !! n = Some r ∨
  ∃ j s, r = InputSection (i + j) ∧ secs !! j = Some s ∧ s_section_number s = n.
Proof.
  revert i m. induction secs as [|s secs IH]; intros i m; simpl; [by left|].
  intros [Hm|(j & s' & -> & Hj & Hn)]%IH.
  - destruct (decide (s_section_number s = n)) as [<-|Hne].
    + rewrite lookup_insert_eq in Hm. injection Hm as <-.
      right. exists O, s. by rewrite Nat.add_0_r.
    + rewrite lookup_insert_ne in Hm by done. by left.
  - right. exists (S j), s'. split; [f_equal; lia|done].
Qed.

(** What [fix_broken_links] returns, in terms of the final state. *)
Lemma fix_broken_links_full sections :
  ∃ sections' st,
    fix_sections sections
      (FixState (dom (index_sections 0 sections ∅))
         (index_sections 0 sections ∅) []) = (sections', st) ∧
    fix_broken_links sections =
      (omap (λ n, by_num st !! n ≫= deref sections')
         (PySort.sorted_on (λ n, n) (elements (dom (by_num st)))),
       report st).
Proof.
  unfold fix_broken_links.
  destruct (fix_sections sections _) as [sections' st] eqn:H.
  by exists sections', st.
Qed.

(** C1, for build_story.py at the level of sections: every choice of
    every section that [fix_broken_links] returns leads to a section that
    it returns. *)
Lemma fix_broken_links_closed sections s c :
  s ∈ (fix_broken_links sections).1 → c ∈ s_choices s →
  ∃ s', s' ∈ (fix_broken_links sections).1 ∧
        s_section_number s' = c_destination c.
Proof.
  destruct (fix_broken_links_full sections) as (secs' & st & Hfix & ->).
  set (m0 := index_sections 0 sections ∅) in *.
  apply fix_sections_grows in Hfix as (Hwf & Hg & Hall); [|done].
  cbn [fst]. simpl in Hg.
  assert (Hinput : ∀ n i, by_num st !! n = Some (InputSection i) →
            ∃ s0 s1, sections !! i = Some s0 ∧ secs' !! i = Some s1 ∧
                     s_section_number s1 = n ∧
                     resolved_in (existing st) (s_choices s1)).
  { intros n i [H0|[=]]%(grows_stubs _ _ Hg). simpl in H0.
    apply index_sections_lookup in H0 as [H0|(j & s0 & [= ->] & Hj & Hn)];
      [by rewrite lookup_empty in H0|].
    destruct (Forall2_lookup_l _ _ _ _ _ Hall Hj) as (s1 & Hs1 & Hnum & Hres).
    exists s0, s1. simpl. repeat split; try done. congruence. }
  assert (Hmem : ∀ x, x ∈ omap (λ n, by_num st !! n ≫= deref secs')
                        (PySort.sorted_on (λ n, n) (elements (dom (by_num st))))
            ↔ ∃ n r, by_num st !! n = Some r ∧ deref secs' r = Some x).
  { intros x. rewrite list_elem_of_omap. split.
    - intros (n & _ & Hn). destruct (by_num st !! n) as [r|] eqn:Hr; [|done].
      by exists n, r.
    - intros (n & r & Hr & Hx). exists n. split.
      + rewrite sorted_on_perm. apply elem_of_elements, elem_of_dom. eauto.
      + by rewrite Hr. }
  intros (n & r & Hr & Hs)%Hmem Hc.
  assert (Hdest : c_destination c ∈ existing st).
  { destruct r as [i|stub]; simpl in Hs.
    - destruct (Hinput n i Hr) as (s0 & s1 & _ & Hs1 & _ & Hres).
      assert (s1 = s) as -> by congruence.
      by eapply Forall_forall in Hres.
    - injection Hs as <-.
      destruct (grows_stubs _ _ Hg n _ Hr) as [H0|[= ->]].
      + simpl in H0. apply index_sections_lookup in H0 as [H0|(?&?&[=]&_)].
        by rewrite lookup_empty in H0.
      + by apply elem_of_nil in Hc. }
  rewrite <- Hwf in Hdest. apply elem_of_dom in Hdest as [r' Hr'].
  destruct r' as [i|stub].
  - destruct (Hinput _ i Hr') as (s0 & s1 & _ & Hs1 & Hnum & _).
    exists s1. split; [|done]. apply Hmem. by exists (c_destination c), (InputSection i).
  - destruct (grows_stubs _ _ Hg _ _ Hr') as [H0|[= ->]].
    + simpl in H0. apply index_sections_lookup in H0 as [H0|(?&?&[=]&_)].
      by rewrite lookup_empty in H0.
    + exists (stub_section (c_destination c)). split; [|done].
      apply Hmem. by exists (c_destination c), (StubSection (stub_section (c_destination c))).
Qed.
End BuildStoryLinks.

Section BuildStoryNodes.
Import BuildStory.

Lemma main_nodes_perm sections :
  (main sections).1 ≡ₚ build_node <$> (fix_broken_links sections).1.
Proof.
  unfold main. destruct (fix_broken_links sections) as [fixed report].
  cbn [fst]. unfold build_story_nodes.
  destruct (existsb _ _).
  - rewrite sorted_by_perm, sorted_on_perm. by rewrite sorted_on_perm.
  - rewrite sorted_on_perm. by rewrite sorted_on_perm.
Qed.

Lemma build_node_id s :
  n_id (build_node s) = "section_" +:+ Py.str (s_section_number s) ∧
  n_section_number (build_node s) = s_section_number s.
Proof. done. Qed.

Lemma build_node_choices s oc :
  oc ∈ n_choices (build_node s) →
  ∃ c, c ∈ s_choices s ∧ o_next oc = "section_" +:+ Py.str (c_destination c).
Proof.
  unfold build_node. cbn [n_choices].
  intros (c & -> & Hc)%list_elem_of_fmap.
  exists c. split; [|done].
  eapply elem_of_sublist; [exact Hc|apply sublist_take].
Qed.

(** C1, for build_story.py at the level of nodes. *)
Lemma main_closed sections n oc :
  n ∈ (main sections).1 → oc ∈ n_choices n →
  ∃ n', n' ∈ (main sections).1 ∧ n_id n' = o_next oc.
Proof.
  rewrite main_nodes_perm.
  intros (s & -> & Hs)%list_elem_of_fmap (c & Hc & ->)%build_node_choices.
  destruct (fix_broken_links_closed sections s c Hs Hc) as (s' & Hs' & <-).
  exists (build_node s'). split; [|apply build_node_id].
  rewrite main_nodes_perm. apply list_elem_of_fmap. eauto.
Qed.
End BuildStoryNodes.


Section RepairLinks.
Import RepairStoryText.

Lemma repair_near_spec (ex : gset Z) dest n :
  n ∈ near_sections ex dest ↔ n ∈ ex ∧ Z.abs (n - dest) ≤ 2.
Proof.
  unfold near_sections. rewrite list_elem_of_filter, elem_of_elements. tauto.
Qed.

(** The three outcomes of the body of the repair loop. *)
Lemma resolve_choice_cases source c st (dest := row_destination c) :
  (dest ∈ existing_sections st ∧ resolve_choice source c st = (c, st)) ∨
  ((dest ∉ existing_sections st) ∧
   ∃ remap,
     remap ∈ existing_sections st ∧ Z.abs (remap - dest) ≤ 2 ∧
     (∀ n, n ∈ existing_sections st → Z.abs (n - dest) ≤ 2 →
           PySort.pair_le (Z.abs (remap - dest), remap)
                          (Z.abs (n - dest), n)) ∧
     resolve_choice source c st =
       (ChoiceRow (row_text c) remap,
        RepairState (existing_sections st) (added st)
          (link_changes st ++
             ["Remapped missing destination " +:+ Py.str dest +:+ " -> "
                +:+ Py.str remap +:+ " (from section "
                +:+ Py.str source +:+ ")."]))) ∨
  ((dest ∉ existing_sections st) ∧
   (∀ n, n ∈ existing_sections st → 2 < Z.abs (n - dest)) ∧
   resolve_choice source c st =
     (c,
      RepairState ({[dest]} ∪ existing_sections st)
        (added st ++ [(dest, stub_payload dest)])
        (link_changes st ++
           ["Created stub section " +:+ Py.str dest
              +:+ " (referenced by section " +:+ Py.str source +:+ ")."]))).
Proof.
  unfold resolve_choice. fold dest.
  case_bool_decide as Hin; [by left|right].
  destruct (PySort.sorted_by _ (near_sections (existing_sections st) dest))
    as [|remap rest] eqn:Hs.
  - right. split; [done|]. split; [|done].
    apply sorted_by_nil in Hs. intros n Hn.
    destruct (decide (Z.abs (n - dest) ≤ 2)) as [Hnear|]; [|lia].
    assert (n ∈ near_sections (existing_sections st) dest) as Hmem
      by by apply repair_near_spec.
    rewrite Hs in Hmem. by apply elem_of_nil in Hmem.
  - left. split; [done|]. exists remap.
    apply sorted_by_head in Hs as [Hmem Hmin].
    apply repair_near_spec in Hmem as [? ?].
    repeat split; try done.
    intros n Hn Hnear. apply (Hmin n). by apply repair_near_spec.
Qed.

Lemma rows_in_mono ex ex' cs : ex ⊆ ex' → rows_in ex cs → rows_in ex' cs.
Proof.
  intros Hsub Hall. eapply Forall_impl; [exact Hall|].
  intros c Hc. by apply Hsub.
Qed.

Lemma resolve_choice_tracked E0 source c st c' st' :
  tracked E0 st → resolve_choice source c st = (c', st') →
  tracked E0 st' ∧ existing_sections st ⊆ existing_sections st' ∧
  row_destination c' ∈ existing_sections st'.
Proof.
  intros [Hex Hstubs] Heq.
  destruct (resolve_choice_cases source c st)
    as [[Hin H]|[(Hout & nd & Hnd & _ & _ & H)|(Hout & _ & H)]];
    rewrite H in Heq; injection Heq as <- <-.
  - done.
  - done.
  - split; [split|split]; simpl.
    + rewrite fmap_app, list_to_set_app_L, Hex. simpl.
      rewrite (right_id_L ∅ (∪)), (comm_L (∪) {[_]}). by rewrite (assoc_L (∪)).
    + apply Forall_app. split; [done|]. by constructor.
    + apply union_subseteq_r.
    + apply elem_of_union. left. by apply elem_of_singleton.
Qed.

Lemma resolve_choices_tracked E0 source cs st cs' st' :
  tracked E0 st → resolve_choices source cs st = (cs', st') →
  tracked E0 st' ∧ existing_sections st ⊆ existing_sections st' ∧
  rows_in (existing_sections st') cs' ∧ length cs' = length cs.
Proof.
  revert st cs' st'. induction cs as [|c cs IH]; intros st cs' st' Htr; simpl.
  - intros [= <- <-]. split; [done|]. split; [done|]. by split; [constructor|].
  - destruct (resolve_choice source c st) as [c1 st1] eqn:H1.
    destruct (resolve_choices source cs st1) as [cs2 st2] eqn:H2.
    intros [= <- <-].
    apply (resolve_choice_tracked E0) in H1 as (Htr1 & Hsub1 & Hc1); [|done].
    apply IH in H2 as (Htr2 & Hsub2 & Hcs2 & Hlen); [|done].
    split; [done|]. split; [by etrans|]. split.
    + constructor; [by apply Hsub2|done].
    + simpl. by rewrite Hlen.
Qed.

Lemma same_entry_mono ex ex' e e' :
  ex ⊆ ex' → same_entry ex e e' → same_entry ex' e e'.
Proof.
  intros Hsub (?&?&?&?&?&?&?). repeat split; try done.
  by eapply rows_in_mono.
Qed.

Lemma resolve_nodes_tracked E0 entries st entries' st' :
  tracked E0 st → resolve_nodes entries st = (entries', st') →
  tracked E0 st' ∧ existing_sections st ⊆ existing_sections st' ∧
  Forall2 (same_entry (existing_sections st')) entries entries'.
Proof.
  revert st entries' st'.
  induction entries as [|[k p] entries IH]; intros st entries' st' Htr; simpl.
  - intros [= <- <-]. split; [done|]. split; [done|]. constructor.
  - destruct (resolve_choices _ (p_choices p) st) as [cs1 st1] eqn:H1.
    destruct (resolve_nodes entries st1) as [es2 st2] eqn:H2.
    intros [= <- <-].
    apply (resolve_choices_tracked E0) in H1 as (Htr1 & Hsub1 & Hc1 & Hlen);
      [|done].
    apply IH in H2 as (Htr2 & Hsub2 & Hes2); [|done].
    split; [done|]. split; [by etrans|].
    constructor; [|done].
    repeat split; try done. simpl. by eapply rows_in_mono.
Qed.

Lemma build_story_repaired parsed log :
  build_story parsed log =
    (ensure_win (order_nodes
       (emit_node <$> PySort.sorted_on fst (repaired parsed log).1)),
     link_changes (repaired parsed log).2).
Proof.
  unfold build_story, repaired.
  by destruct (resolve_nodes _ _) as [resolved st].
Qed.

(** Every entry of the repaired dictionary is an entry of [parsed] with
    its choices resolved, or a stub; and every destination is a key. *)
Lemma repaired_closed parsed log (ex := existing_sections (repaired parsed log).2) :
  (∀ e', e' ∈ (repaired parsed log).1 →
     rows_in ex (p_choices e'.2) ∧
     ((∃ e, e ∈ parsed ∧ same_entry ex e e') ∨ e'.2 = stub_payload e'.1)) ∧
  (∀ d, d ∈ ex → ∃ e', e' ∈ (repaired parsed log).1 ∧ e'.1 = d).
Proof.
  subst ex. unfold repaired.
  destruct (resolve_nodes _ _) as [resolved st] eqn:H. cbn [fst snd].
  apply (resolve_nodes_tracked (list_to_set parsed.*1)) in H
    as ([Hex Hstubs] & _ & Hall).
  2:{ split; [|constructor]. simpl. by rewrite (right_id_L ∅ (∪)). }
  split.
  - intros e' [He'|He']%elem_of_app.
    + destruct (Forall2_elem_r _ _ _ _ Hall He') as (e & He & Hsame).
      split; [apply Hsame|]. left. exists e. split; [|done].
      by rewrite sorted_on_perm in He.
    + eapply Forall_forall in Hstubs; [|exact He'].
      split; [|by right]. rewrite Hstubs. constructor.
  - intros d. rewrite Hex.
    intros [Hd|Hd]%elem_of_union; apply elem_of_list_to_set in Hd;
      apply list_elem_of_fmap in Hd as (e & -> & He).
    + rewrite <- (sorted_on_perm (λ e, p_section_number e.2)) in He.
      destruct (Forall2_elem_l _ _ _ _ Hall He) as (e' & He' & Hsame).
      exists e'. split; [apply elem_of_app; by left|apply Hsame].
    + exists e. split; [apply elem_of_app; by right|done].
Qed.
End RepairLinks.

Section RepairNodes.
Import RepairStoryText.

Lemma emit_node_id e :
  n_id (emit_node e) = "section_" +:+ Py.str e.1 ∧
  n_section_number (emit_node e) = e.1.
Proof. done. Qed.

Lemma emit_node_choices e c :
  c ∈ n_choices (emit_node e) →
  ∃ r, r ∈ p_choices e.2 ∧
       c_next c = "section_" +:+ Py.str (row_destination r).
Proof.
  unfold emit_node. cbn [n_choices].
  intros (r & -> & Hr)%list_elem_of_fmap. exists r. split; [|done].
  eapply elem_of_sublist; [exact Hr|apply sublist_take].
Qed.

Lemma emit_node_no_choices e :
  n_choices (emit_node e) = [] ↔ p_choices e.2 = [].
Proof.
  unfold emit_node. cbn [n_choices].
  destruct (p_choices e.2) as [|r rs]; [done|]. by split.
Qed.

Lemma infer_node_type_ending text :
  infer_node_type text false ≠ "normal".
Proof.
  unfold infer_node_type. cbv beta iota zeta.
  destruct (Py.contains_any (Py.lower text) death_terms); [done|].
  by destruct (Py.contains_any (Py.lower text) win_terms).
Qed.

Lemma emit_node_typed e :
  typed_by_choices e.2 →
  (n_node_type (emit_node e) = "normal" ↔ n_choices (emit_node e) ≠ []).
Proof.
  intros Htyped.
  pose proof (emit_node_no_choices e) as Hnone. revert Hnone.
  unfold emit_node. cbn [n_choices n_node_type].
  set (choices := _ <$> take 4 (p_choices e.2)). intros Hnone.
  destruct (decide (choices = [])) as [Hnil|Hcs].
  - rewrite !(bool_decide_false (choices ≠ [])) by (by intros []).
    split; [|done]. intros Hnormal. exfalso.
    case_bool_decide as Hvalid.
    + apply Htyped in Hnormal. by apply Hnormal, Hnone.
    + by apply infer_node_type_ending in Hnormal.
  - by rewrite !(bool_decide_true (choices ≠ [])) by done.
Qed.

Lemma section_payload_typed n text choices :
  typed_by_choices (section_payload n text choices).
Proof.
  unfold typed_by_choices, section_payload. cbn [p_node_type p_choices].
  case_bool_decide as Hcs.
  - intros _. by destruct choices.
  - intros H. by apply infer_node_type_ending in H.
Qed.

Lemma stub_payload_typed d : typed_by_choices (stub_payload d).
Proof. done. Qed.

Lemma order_nodes_perm ns : order_nodes ns ≡ₚ ns.
Proof.
  unfold order_nodes. destruct (existsb _ _).
  - by rewrite sorted_by_perm, sorted_on_perm.
  - by rewrite sorted_on_perm.
Qed.

Lemma retyped_refl n : retyped n n.
Proof. repeat split; auto. Qed.

Lemma retyped_trans n1 n2 n3 : retyped n1 n2 → retyped n2 n3 → retyped n1 n3.
Proof.
  intros (?&?&?&?&?&H12) (?&?&?&?&?&H23).
  repeat split; try congruence.
  destruct H12 as [H12|[H12 H12']], H23 as [H23|[H23 H23']].
  - left. congruence.
  - right. split; congruence.
  - right. split; congruence.
  - congruence.
Qed.

Lemma Forall2_retyped_refl ns : Forall2 retyped ns ns.
Proof. induction ns; constructor; auto using retyped_refl. Qed.

Lemma promote_first_retyped p ns :
  (∀ n, p n = true → n_node_type n = "ending_neutral") →
  Forall2 retyped ns (promote_first p ns).
Proof.
  intros Hp. induction ns as [|n ns IH]; simpl; [constructor|].
  destruct (p n) eqn:Hn.
  - constructor; [|apply Forall2_retyped_refl].
    repeat split; try done. right. split; [by apply Hp|done].
  - constructor; [apply retyped_refl|done].
Qed.

Lemma is_neutral_type n : is_neutral n = true → n_node_type n = "ending_neutral".
Proof. unfold is_neutral. by intros ?%bool_decide_eq_true. Qed.

Lemma affirmative_neutral n :
  affirmative_ending n = true → n_node_type n = "ending_neutral".
Proof.
  unfold affirmative_ending. intros [[H _]%andb_true_iff _]%andb_true_iff.
  by apply is_neutral_type.
Qed.

Lemma Forall2_retyped_trans l1 l2 l3 :
  Forall2 retyped l1 l2 → Forall2 retyped l2 l3 → Forall2 retyped l1 l3.
Proof.
  intros H12. revert l3. induction H12; inversion 1; subst; constructor;
    eauto using retyped_trans.
Qed.

Lemma ensure_win_retyped ns : Forall2 retyped ns (ensure_win ns).
Proof.
  unfold ensure_win. destruct (has_win ns); [apply Forall2_retyped_refl|].
  destruct (has_win (promote_first affirmative_ending ns)).
  - apply promote_first_retyped, affirmative_neutral.
  - eapply Forall2_retyped_trans.
    + apply promote_first_retyped, affirmative_neutral.
    + apply promote_first_retyped, is_neutral_type.
Qed.

(** The nodes of [build_story], against the entries of the repaired
    dictionary. *)
Lemma build_story_nodes_elem parsed log n :
  n ∈ (build_story parsed log).1 ↔
  ∃ n0, n0 ∈ emit_node <$> (repaired parsed log).1 ∧
        n ∈ ensure_win (order_nodes
               (emit_node <$> PySort.sorted_on fst (repaired parsed log).1)) ∧
        retyped n0 n.
Proof.
  rewrite build_story_repaired. cbn [fst].
  set (ns := order_nodes _).
  assert (Hperm : ns ≡ₚ emit_node <$> (repaired parsed log).1).
  { subst ns. by rewrite order_nodes_perm, sorted_on_perm. }
  split.
  - intros Hn.
    destruct (Forall2_elem_r _ _ _ _ (ensure_win_retyped ns) Hn)
      as (n0 & Hn0 & Hre).
    exists n0. by rewrite <- Hperm.
  - by intros (n0 & _ & Hn & _).
Qed.

Lemma build_story_emits parsed log e :
  e ∈ (repaired parsed log).1 →
  ∃ n, n ∈ (build_story parsed log).1 ∧ retyped (emit_node e) n.
Proof.
  intros He. rewrite build_story_repaired. cbn [fst].
  set (ns := order_nodes _).
  assert (Hin : emit_node e ∈ ns).
  { subst ns. rewrite order_nodes_perm, sorted_on_perm.
    apply list_elem_of_fmap. eauto. }
  destruct (Forall2_elem_l _ _ _ _ (ensure_win_retyped ns) Hin) as (n & ? & ?).
  by exists n.
Qed.

(** C1, for repair_story_text.py. *)
Lemma build_story_closed parsed log n c :
  n ∈ (build_story parsed log).1 → c ∈ n_choices n →
  ∃ n', n' ∈ (build_story parsed log).1 ∧ n_id n' = c_next c.
Proof.
  intros (n0 & (e & -> & He)%list_elem_of_fmap & _ & Hre)%build_story_nodes_elem Hc.
  destruct Hre as (_ & _ & _ & _ & Hcs & _). rewrite Hcs in Hc.
  apply emit_node_choices in Hc as (r & Hr & ->).
  destruct (repaired_closed parsed log) as [Hrows Hkeys].
  destruct (Hrows e He) as [Hin _].
  eapply Forall_forall in Hin; [|exact Hr].
  destruct (Hkeys _ Hin) as (e' & He' & Hkey).
  destruct (build_story_emits parsed log e' He') as (n' & Hn' & Hre').
  exists n'. split; [done|].
  destruct Hre' as (-> & _). rewrite <- Hkey. apply emit_node_id.
Qed.

(** Supporting C5: a node of [build_story] carries the id of its number
    and, when the payloads are typed by their choices, is [normal] exactly
    when it has choices. *)
Lemma build_story_canonical parsed log n :
  n ∈ (build_story parsed log).1 →
  n_id n = "section_" +:+ Py.str (n_section_number n) ∧
  ((∀ e, e ∈ parsed → typed_by_choices e.2) →
   (n_node_type n = "normal" ↔ n_choices n ≠ [])).
Proof.
  intros (n0 & (e' & -> & He')%list_elem_of_fmap & _ & Hre)%build_story_nodes_elem.
  destruct Hre as (Hid & Hnum & _ & _ & Hcs & Hty).
  split.
  - rewrite Hid, Hnum. by destruct (emit_node_id e') as [-> ->].
  - intros Htyped. rewrite Hcs.
    assert (typed_by_choices e'.2) as He'ty.
    { destruct (repaired_closed parsed log) as [Hrows _].
      destruct (Hrows e' He') as [_ [(e & He & Hsame)|Hstub]].
      - destruct Hsame as (_ & _ & _ & _ & Hnt & Hlen & _).
        intros Hnormal. rewrite Hnt in Hnormal.
        apply (Htyped e He) in Hnormal.
        destruct (p_choices e.2), (p_choices e'.2); done.
      - rewrite Hstub. apply stub_payload_typed. }
    rewrite <- (emit_node_typed e' He'ty).
    destruct Hty as [->|[Hneutral Hwin]]; [done|].
    rewrite Hneutral, Hwin. by split.
Qed.
End RepairNodes.

Section WinEnding.
Import RepairStoryText.

Lemma has_win_elem ns :
  has_win ns = true ↔ ∃ n, n ∈ ns ∧ n_node_type n = "ending_win".
Proof.
  unfold has_win. rewrite existsb_exists. split.
  - intros (n & Hn%list_elem_of_In & Ht%bool_decide_eq_true). eauto.
  - intros (n & Hn%list_elem_of_In & Ht). exists n.
    split; [done|]. by apply bool_decide_eq_true.
Qed.

Lemma promote_first_split p l1 n l2 :
  Forall (λ m, p m = false) l1 → p n = true →
  promote_first p (l1 ++ n :: l2) = l1 ++ set_node_type "ending_win" n :: l2.
Proof.
  intros Hl1 Hn. induction Hl1 as [|m l1 Hm _ IH]; simpl.
  - by rewrite Hn.
  - by rewrite Hm, IH.
Qed.

Lemma promote_first_none p ns :
  Forall (λ m, p m = false) ns → promote_first p ns = ns.
Proof.
  induction 1 as [|m ns Hm _ IH]; simpl; [done|]. by rewrite Hm, IH.
Qed.

Lemma has_win_promoted l1 n l2 :
  has_win (l1 ++ set_node_type "ending_win" n :: l2) = true.
Proof.
  apply has_win_elem. exists (set_node_type "ending_win" n).
  split; [|done]. apply elem_of_app. right. by left.
Qed.

Lemma first_such {A} (p : A → bool) (l : list A) :
  Forall (λ m, p m = false) l ∨
  ∃ l1 n l2, l = l1 ++ n :: l2 ∧ Forall (λ m, p m = false) l1 ∧ p n = true.
Proof.
  induction l as [|x l IH]; [by left|].
  destruct (p x) eqn:Hx.
  - right. by exists [], x, l.
  - destruct IH as [IH|(l1 & n & l2 & -> & Hl1 & Hn)].
    + left. by constructor.
    + right. exists (x :: l1), n, l2. split; [done|]. split; [by constructor|done].
Qed.

(** The win promotion of [build_story], case by case. *)
Lemma ensure_win_cases ns :
  (has_win ns = true → ensure_win ns = ns) ∧
  (∀ l1 n l2,
     has_win ns = false → ns = l1 ++ n :: l2 →
     Forall (λ m, affirmative_ending m = false) l1 →
     affirmative_ending n = true →
     ensure_win ns = l1 ++ set_node_type "ending_win" n :: l2) ∧
  (∀ l1 n l2,
     has_win ns = false →
     Forall (λ m, affirmative_ending m = false) ns →
     ns = l1 ++ n :: l2 →
     Forall (λ m, is_neutral m = false) l1 → is_neutral n = true →
     ensure_win ns = l1 ++ set_node_type "ending_win" n :: l2) ∧
  ((has_win ns = true ∨ ∃ n, n ∈ ns ∧ n_node_type n = "ending_neutral") →
   has_win (ensure_win ns) = true).
Proof.
  unfold ensure_win. split; [by intros ->|]. split; [|split].
  - intros l1 n l2 -> -> Hl1 Hn.
    rewrite promote_first_split by done. by rewrite has_win_promoted.
  - intros l1 n l2 Hwin Hnone -> Hl1 Hn. rewrite Hwin.
    rewrite promote_first_none by done. rewrite Hwin.
    by apply promote_first_split.
  - intros [Hwin|(n & Hn & Hneutral)]; [by rewrite Hwin|].
    destruct (has_win ns) eqn:Hwin; [done|].
    destruct (has_win (promote_first affirmative_ending ns)) eqn:Hwin1; [done|].
    destruct (first_such is_neutral (promote_first affirmative_ending ns))
      as [Hnone|(l1 & m & l2 & Hsplit & Hl1 & Hm)].
    + exfalso.
      destruct (Forall2_elem_l _ _ _ _
                  (promote_first_retyped affirmative_ending ns
                     affirmative_neutral) Hn) as (n' & Hn' & Hre).
      destruct Hre as (_ & _ & _ & _ & _ & [Hsame|[_ Hw]]).
      * eapply Forall_forall in Hnone; [|exact Hn'].
        unfold is_neutral in Hnone. apply bool_decide_eq_false in Hnone.
        congruence.
      * assert (has_win (promote_first affirmative_ending ns) = true)
          by (apply has_win_elem; eauto).
        congruence.
    + rewrite Hsplit, promote_first_split by done. apply has_win_promoted.
Qed.
(** The output of the win promotion has a win ending exactly when the
    list had a win ending or a neutral ending. *)
Lemma ensure_win_has_win ns :
  has_win (ensure_win ns) = true
  ↔ has_win ns = true ∨ ∃ n, n ∈ ns ∧ n_node_type n = "ending_neutral".
Proof.
  split; [|apply ensure_win_cases].
  intros (n' & Hn' & Hwin)%has_win_elem.
  destruct (Forall2_elem_r _ _ _ _ (ensure_win_retyped ns) Hn')
    as (n & Hn & Hre).
  destruct Hre as (_ & _ & _ & _ & _ & [Hsame|[Hneutral _]]).
  - left. apply has_win_elem. exists n. split; [done|]. congruence.
  - right. eauto.
Qed.

End WinEnding.

Section ValidateWin.
Import Validate.

Lemma validate_has_win_elem ns :
  has_win ns = true ↔ ∃ n, n ∈ ns ∧ n_node_type n = Some "ending_win".
Proof.
  unfold has_win. rewrite existsb_exists. split.
  - intros (n & Hn%list_elem_of_In & Ht%bool_decide_eq_true). eauto.
  - intros (n & Hn%list_elem_of_In & Ht). exists n.
    split; [done|]. by apply bool_decide_eq_true.
Qed.

Lemma convert_first_cases ns :
  (Forall (λ m, convertible m = false) ns ∧ convert_first ns = (ns, false)) ∨
  (∃ l1 n l2, ns = l1 ++ n :: l2 ∧
     Forall (λ m, convertible m = false) l1 ∧ convertible n = true ∧
     convert_first ns = (l1 ++ set_node_type "ending_win" n :: l2, true)).
Proof.
  induction ns as [|x ns IH]; [left; by split|]. simpl.
  destruct (convertible x) eqn:Hx.
  - right. by exists [], x, ns.
  - destruct IH as [[Hnone ->]|(l1 & n & l2 & -> & Hl1 & Hn & ->)].
    + left. split; [by constructor|done].
    + right. exists (x :: l1), n, l2.
      split; [done|]. split; [by constructor|]. by split.
Qed.

Lemma convert_first_split l1 n l2 :
  Forall (λ m, convertible m = false) l1 → convertible n = true →
  convert_first (l1 ++ n :: l2)
  = (l1 ++ set_node_type "ending_win" n :: l2, true).
Proof.
  intros Hl1 Hn. induction Hl1 as [|m l1 Hm _ IH]; simpl.
  - by rewrite Hn.
  - by rewrite Hm, IH.
Qed.

Lemma guarantee_win_has_win ns : has_win (guarantee_win ns) = true.
Proof.
  unfold guarantee_win. destruct (has_win ns) eqn:Hwin; [done|].
  destruct (convert_first_cases ns)
    as [[_ ->]|(l1 & n & l2 & _ & _ & _ & ->)];
    apply validate_has_win_elem.
  - exists victory_node. split; [|done]. apply elem_of_app. right. by left.
  - exists (set_node_type "ending_win" n).
    split; [|done]. apply elem_of_app. right. by left.
Qed.

Lemma validate_order_perm ns : order_nodes ns ≡ₚ ns.
Proof.
  unfold order_nodes. destruct (existsb _ _).
  - by rewrite sorted_by_perm, sorted_on_perm.
  - by rewrite sorted_on_perm.
Qed.

Lemma auto_fix_has_win nodes out :
  auto_fix nodes = Some out → has_win out = true.
Proof.
  unfold auto_fix. destruct (mapM fix_keys _) as [keyed|]; [|done].
  simpl. intros [= <-].
  set (ns := if bool_decide _ then _ else _).
  pose proof (guarantee_win_has_win ns) as (n & Hn & Ht)%validate_has_win_elem.
  apply validate_has_win_elem. exists n. split; [|done].
  by rewrite validate_order_perm.
Qed.

Lemma dedupe_sublist nodes seen : dedupe nodes seen `sublist_of` nodes.
Proof.
  revert seen. induction nodes as [|n nodes IH]; intros seen; simpl; [done|].
  destruct (n_id n) as [node_id|]; [|by apply sublist_cons].
  case_bool_decide; [by apply sublist_cons|by apply sublist_skip].
Qed.

Lemma dedupe_has_id nodes seen n :
  n ∈ dedupe nodes seen →
  ∃ node_id, n_id n = Some node_id ∧ node_id ≠ EmptyString.
Proof.
  revert seen. induction nodes as [|m nodes IH]; intros seen; simpl.
  - by intros ?%elem_of_nil.
  - destruct (n_id m) as [node_id|] eqn:Hid; [|by apply IH].
    case_bool_decide as Hskip; [by apply IH|].
    intros [->|Hn]%elem_of_cons; [|by eapply IH].
    exists node_id. split; [done|]. intros ->. apply Hskip. by left.
Qed.



(** The win guarantee of [auto_fix], case by case. *)
Lemma guarantee_win_cases ns :
  (has_win ns = true → guarantee_win ns = ns) ∧
  (∀ l1 n l2,
     has_win ns = false → ns = l1 ++ n :: l2 →
     Forall (λ m, convertible m = false) l1 → convertible n = true →
     guarantee_win ns = l1 ++ set_node_type "ending_win" n :: l2) ∧
  (has_win ns = false → Forall (λ m, convertible m = false) ns →
   guarantee_win ns = ns ++ [victory_node]).
Proof.
  unfold guarantee_win. split; [by intros ->|]. split.
  - intros l1 n l2 -> -> Hl1 Hn. by rewrite convert_first_split.
  - intros -> Hnone.
    destruct (convert_first_cases ns)
      as [[_ ->]|(k1 & m & k2 & -> & _ & Hm & _)]; [done|].
    apply Forall_app in Hnone as [_ Hnone].
    apply Forall_cons in Hnone as [Hnone _]. congruence.
Qed.
End ValidateWin.

Section DuplicateFix.
Import LintStory.

Lemma unique_choices_fresh cs seen :
  fresh_keys seen (unique_choices cs seen).1.
Proof.
  revert seen. induction cs as [|c cs IH]; intros seen; simpl.
  - split; [constructor|]. intros c Hc. by apply elem_of_nil in Hc.
  - case_bool_decide as Hin.
    + specialize (IH seen). destruct (unique_choices cs seen) as [u r]. done.
    + specialize (IH ({[choice_key c]} ∪ seen)).
      destruct (unique_choices cs ({[choice_key c]} ∪ seen)) as [u r].
      simpl in *. destruct IH as [Hnd Hfresh]. split.
      * rewrite fmap_cons. constructor; [|done].
        intros (c' & Heq & Hc')%list_elem_of_fmap.
        apply (Hfresh c' Hc'), elem_of_union. left.
        by apply elem_of_singleton.
      * intros c' [->|Hc']%elem_of_cons; [done|].
        intros Hseen. apply (Hfresh c' Hc'), elem_of_union. by right.
Qed.

Lemma unique_choices_fixed cs seen :
  fresh_keys seen cs → unique_choices cs seen = (cs, O).
Proof.
  revert seen. induction cs as [|c cs IH]; intros seen [Hnd Hfresh]; [done|].
  simpl. rewrite fmap_cons in Hnd. apply NoDup_cons in Hnd as [Hc Hnd].
  rewrite bool_decide_false by (apply Hfresh; left).
  rewrite IH; [done|]. split; [done|].
  intros c' Hc'. apply not_elem_of_union. split.
  - intros Heq%elem_of_singleton. apply Hc, list_elem_of_fmap. eauto.
  - apply Hfresh. by right.
Qed.

Lemma fresh_keys_take n seen cs :
  fresh_keys seen cs → fresh_keys seen (take n cs).
Proof.
  intros [Hnd Hfresh]. split.
  - rewrite fmap_take. eapply sublist_NoDup; [done|apply sublist_take].
  - intros c (i & Hi & _)%elem_of_take. apply Hfresh.
    by eapply list_elem_of_lookup_2.
Qed.

(** C9: running the duplicate fixer on its own output drops nothing and
    returns the nodes as they are. *)
Theorem fix_duplicate_choices_idempotent (nodes : list node) :
  fix_duplicate_choices (fix_duplicate_choices nodes).1
  = ((fix_duplicate_choices nodes).1, O).
Proof.
  induction nodes as [|n rest IH]; [done|].
  simpl. pose proof (unique_choices_fresh (n_choices n) ∅) as Hfresh.
  destruct (unique_choices (n_choices n) ∅) as [unique removed].
  destruct (fix_duplicate_choices rest) as [rest' removed'].
  simpl in *. rewrite IH.
  rewrite (unique_choices_fixed (take 4 unique) ∅)
    by (by apply fresh_keys_take).
  rewrite take_take. by destruct n.
Qed.
End DuplicateFix.

Section LintExit.
Import LintStory.

(** C8: on a store that loads, one PASS or FAIL line is printed for each of
    the three checks, in order, and the exit code is 0 exactly when all
    three pass and 1 otherwise; when the store does not load, only the error
    line is printed and the exit code is 2. *)
Theorem main_exit_code (a : args) (file : story_file) :
  match file with
  | Store nodes =>
      let ns := checked_nodes a nodes in
      ∃ v1 v2 v3,
        omap line_verdict (printed (main a file))
          = [(DuplicateChoices, v1); (ReachableRatio, v2); (NoiseRatio, v3)] ∧
        (v1 = PASS ↔ duplicates_pass ns) ∧
        (v2 = PASS ↔ reachable_pass a ns) ∧
        (v3 = PASS ↔ noise_pass a ns) ∧
        (exit_code (main a file) = 0 ↔ v1 = PASS ∧ v2 = PASS ∧ v3 = PASS) ∧
        (exit_code (main a file) ≠ 0 → exit_code (main a file) = 1)
  | _ =>
      printed (main a file) = [Error file] ∧ exit_code (main a file) = 2
  end.
Proof.
  destruct file as [| | |nodes]; try done.
  unfold main, checked_nodes, duplicates_pass, reachable_pass, noise_pass.
  set (fixed := if fix_flag a then _ else _).
  assert (Hfixed : ∃ pre w,
            fixed = (if fix_flag a then (fix_duplicate_choices nodes).1
                     else nodes, pre, w)
            ∧ omap line_verdict pre = []).
  { subst fixed. destruct (fix_flag a); [|by exists [], None].
    destruct (fix_duplicate_choices nodes) as [nodes' [|removed]]; simpl.
    - by exists [], None.
    - by exists [Fixed (S removed)], (Some nodes'). }
  destruct Hfixed as (pre & w & -> & Hpre).
  set (ns := if fix_flag a then _ else _).
  destruct (reachable_ratio ns) as [[ratio reach] total].
  destruct (max_noise_ratio ns) as [noise noisy]. cbn [fst snd].
  cbn [printed exit_code]. rewrite omap_app, Hpre. cbn [app omap line_verdict].
  do 3 eexists. split; [reflexivity|].
  case_bool_decide as Hdup;
    destruct (Qle_bool (min_reachable_ratio a) ratio);
    destruct (Qle_bool noise (max_noise_ratio_arg a));
    cbn; repeat split; intros; try done; try tauto;
    try (destruct_and?; done).
  all: try (exfalso; apply Hdup; congruence).
  all: try (by apply dec_stable).
Qed.
Lemma main_exit_code_witness :
  exit_code (main (Args "story.json" (3 # 20) (3 # 100) false)
               (Store scenario_E)) = 1.
Proof.
  destruct (main_exit_code (Args "story.json" (3 # 20) (3 # 100) false)
              (Store scenario_E))
    as (v1 & v2 & v3 & _ & _ & _ & _ & _ & Hone).
  apply Hone. vm_compute. discriminate.
Defined.
End LintExit.

Section Softlock.
Import Json Story.

Lemma _normalize_node_fields raw :
  n_choices (_normalize_node raw) = node_choices raw ∧
  (n_node_type (_normalize_node raw) = "normal" → node_choices raw ≠ []) ∧
  (declared_node_type raw = "normal" → node_choices raw = [] →
   n_node_type (_normalize_node raw) = "ending_neutral").
Proof.
  unfold _normalize_node. cbn [n_choices n_node_type].
  generalize (declared_node_type raw) (node_choices raw). intros t cs.
  split; [done|]. split.
  - destruct cs as [|c cs]; [|done].
    case_bool_decide as Hvalid.
    + rewrite andb_true_r. case_bool_decide; [done|]. done.
    + done.
  - intros -> ->. done.
Qed.

Lemma _normalize_node_playable raw : playable (_normalize_node raw).
Proof.
  destruct (_normalize_node_fields raw) as (Hc & Ht & _).
  unfold playable. by rewrite Hc.
Qed.

Lemma _default_story_playable : Forall playable _default_story.
Proof. repeat constructor. done. Qed.

Lemma index_lookup_elem (ns : list node) (m : gmap string node) id n :
  foldl (λ m n, <[n_id n := n]> m) m ns !! id = Some n →
  n ∈ ns ∨ m !! id = Some n.
Proof.
  revert m. induction ns as [|x ns IH]; intros m; simpl; [by right|].
  intros [Hin|Hm]%IH; [left; by right|].
  destruct (decide (n_id x = id)) as [<-|Hne].
  - rewrite lookup_insert_eq in Hm. injection Hm as ->. left. by left.
  - rewrite lookup_insert_ne in Hm by done. by right.
Qed.

Lemma load_sources data :
  ∃ ns, Forall playable ns ∧ ns ≠ [] ∧
        nodes (load data)
          = PySort.sorted_tagged (λ n, (n_section_number n, n_id n)) ns ∧
        node_by_id (load data) = foldl (λ m n, <[n_id n := n]> m) ∅ ns.
Proof.
  unfold load.
  set (dflt := _default_story).
  assert (Hd : Forall playable dflt ∧ dflt ≠ [])
    by (split; [apply _default_story_playable|done]).
  destruct data as [[| | | |[|item items]|]|];
    try (exists dflt; by destruct Hd).
  set (normalized := _normalize_node <$> List.filter is_dict (item :: items)).
  set (kept := List.filter _ normalized).
  assert (Hk : Forall playable kept).
  { apply Forall_forall. intros n Hn.
    apply list_elem_of_In, filter_In in Hn as [Hn _].
    apply list_elem_of_In, list_elem_of_fmap in Hn as (raw & -> & _).
    apply _normalize_node_playable. }
  destruct kept as [|k kept']; [exists dflt; by destruct Hd|].
  exists (k :: kept'). done.
Qed.

(** C10: after [load], no node that [get_node] or [get_entry_node] returns
    is typed [normal] without choices; a raw node declared [normal] whose
    normalized choice list is empty comes out as [ending_neutral]. *)
Theorem load_never_softlocks (data : option json) :
  (∀ node_id n, get_node (load data) node_id = Some n → playable n) ∧
  playable (get_entry_node (load data)) ∧
  (∀ raw, declared_node_type raw = "normal" →
          n_choices (_normalize_node raw) = [] →
          n_node_type (_normalize_node raw) = "ending_neutral").
Proof.
  destruct (load_sources data) as (ns & Hns & Hne & Hnodes & Hmap).
  assert (Hget : ∀ node_id n,
            get_node (load data) node_id = Some n → playable n).
  { intros node_id n. unfold get_node. rewrite Hmap.
    intros [Hin|Hempty]%index_lookup_elem.
    - by eapply Forall_forall in Hns.
    - by rewrite lookup_empty in Hempty. }
  split; [done|]. split.
  - unfold get_entry_node.
    destruct (node_by_id (load data) !! "section_1") as [n|] eqn:Hentry.
    + by apply (Hget "section_1").
    + rewrite Hnodes.
      destruct (PySort.sorted_tagged _ ns) as [|n rest] eqn:Hsorted.
      * apply (f_equal length) in Hsorted.
        rewrite (Permutation_length (sorted_tagged_perm _ ns)) in Hsorted.
        by destruct ns.
      * eapply Forall_forall; [exact Hns|].
        rewrite <- (sorted_tagged_perm (λ n, (n_section_number n, n_id n)) ns).
        rewrite Hsorted. by left.
  - intros raw Hdecl Hcs.
    destruct (_normalize_node_fields raw) as (Hc & _ & Hre).
    apply Hre; [done|]. by rewrite <- Hc.
Qed.
Lemma load_never_softlocks_witness :
  get_node (load (Some softlock_store)) "section_2"
  = Some (Node "section_2" 2 "Untitled Scene" EmptyString [] "ending_neutral"
            [] (JDict []) []) ∧
  playable (Node "section_2" 2 "Untitled Scene" EmptyString []
              "ending_neutral" [] (JDict []) []).
Proof.
  split; [vm_compute; reflexivity|].
  apply (proj1 (load_never_softlocks (Some softlock_store)) "section_2").
  vm_compute. reflexivity.
Defined.
End Softlock.

Section Scenarios.

(** Scenario E: the validator counts one duplicate before the fix and
    none after it. *)
Example scenario_E_duplicates :
  length (LintStory.choice_duplicates LintStory.scenario_E) = 1%nat ∧
  (LintStory.fix_duplicate_choices LintStory.scenario_E).2 = 1%nat ∧
  LintStory.choice_duplicates
    (LintStory.fix_duplicate_choices LintStory.scenario_E).1 = [].
Proof. by vm_compute. Qed.

(** The first parser reads scenario A as one choice, to section 12. *)
Example parse_extract_choices_scenario_A :
  Parse.extract_choices RepairStoryText.scenario_A
  = [Parse.Choice "You reach a fork" 12].
Proof. by vm_compute. Qed.

(** What [CHOICE_SENTENCE_RE] matches in scenario A: each of the two
    clauses, with the word after the cue as its token. *)
Example choice_sentence_matches_scenario_A :
  (λ m, (Re.m_text m, Re.group 2 m)) <$>
    Re.finditer RepairStoryText.CHOICE_SENTENCE_RE
      (RepairStoryText.normalize_ws
         (RepairStoryText.normalize_text RepairStoryText.scenario_A))
  = [("Turn to 12 if you continue.", "to");
     ("Turn to 12 if you continue.", "to")]
  ∧ RepairStoryText.token_to_int "to" = None.
Proof. by vm_compute. Qed.

(** A clause whose cue is followed by the number itself is read. *)
Example extract_choices_page_clause :
  RepairStoryText.extract_choices
    "Go on to page l2. Then again page 12. Or page 700. Or page S."
  = [("Go on to section 12.", 12); ("Section 5.", 5)].
Proof. by vm_compute. Qed.

(** [build_node] types a section [normal] exactly when it has choices, and
    gives it the id of its number. *)
Lemma build_node_canonical (s : BuildStory.section) :
  BuildStory.n_id (BuildStory.build_node s)
    = "section_" +:+ Py.str (BuildStory.n_section_number (BuildStory.build_node s)) ∧
  (BuildStory.n_node_type (BuildStory.build_node s) = "normal"
   ↔ BuildStory.n_choices (BuildStory.build_node s) ≠ []).
Proof.
  split; [done|]. unfold BuildStory.build_node.
  cbn [BuildStory.n_node_type BuildStory.n_choices].
  set (choices_out := _ <$> take 4 (BuildStory.s_choices s)).
  destruct (decide (choices_out = [])) as [Hnil|Hcs].
  - rewrite !(bool_decide_false (choices_out ≠ [])) by (by intros []).
    split; [|done]. intros Hnormal. exfalso.
    case_bool_decide as Hending; [done|].
    rewrite Hnormal in Hending.
    by repeat (apply elem_of_cons in Hending as [?|Hending]);
      try apply elem_of_nil in Hending.
  - by rewrite !(bool_decide_true (choices_out ≠ [])) by done.
Qed.

End Scenarios.

Section Claims.

(** C1: after the repair, every choice of every node leads to a node of
    the output.  For build_story.py: every choice of a section returned by
    [fix_broken_links] has the number of a returned section as its
    destination, and every [next] of a node written by [main] is the id of
    a node written.  For repair_story_text.py: every [next] of a node
    returned by [build_story] is the id of a node returned. *)
Theorem repair_leaves_no_dangling_link :
  (∀ sections s c,
     s ∈ (BuildStory.fix_broken_links sections).1 →
     c ∈ BuildStory.s_choices s →
     ∃ s', s' ∈ (BuildStory.fix_broken_links sections).1 ∧
           BuildStory.s_section_number s' = BuildStory.c_destination c) ∧
  (∀ sections n c,
     n ∈ (BuildStory.main sections).1 → c ∈ BuildStory.n_choices n →
     ∃ n', n' ∈ (BuildStory.main sections).1 ∧
           BuildStory.n_id n' = BuildStory.o_next c) ∧
  (∀ parsed log n c,
     n ∈ (RepairStoryText.build_story parsed log).1 →
     c ∈ RepairStoryText.n_choices n →
     ∃ n', n' ∈ (RepairStoryText.build_story parsed log).1 ∧
           RepairStoryText.n_id n' = RepairStoryText.c_next c).
Proof.
  split; [|split].
  - apply fix_broken_links_closed.
  - apply main_closed.
  - apply build_story_closed.
Qed.

Lemma repair_leaves_no_dangling_link_witness :
  ∃ n', n' ∈ (RepairStoryText.build_story RepairStoryText.scenario_B []).1 ∧
        RepairStoryText.n_id n' = "section_3".
Proof.
  apply (proj2 (proj2 repair_leaves_no_dangling_link)
           RepairStoryText.scenario_B []
           (RepairStoryText.Node "section_1" 1 "Section 1" "The road forks."
              "normal" [RepairStoryText.Choice "Take the left fork." "section_3"])
           (RepairStoryText.Choice "Take the left fork." "section_3")).
  - vm_compute. left.
  - left.
Defined.

(** C2, where the code departs from it: [build_story] only turns a neutral
    ending into a win ending and never adds a node.  Given a graph without
    an ending, two sections that lead to each other, it returns the two
    nodes typed normal: its output has no win ending. *)
Theorem build_story_leaves_no_win_ending :
  RepairStoryText.build_story RepairStoryText.scenario_loop []
  = ([RepairStoryText.Node "section_1" 1 "Section 1" "The road forks."
        "normal" [RepairStoryText.Choice "Walk on." "section_2"];
      RepairStoryText.Node "section_2" 2 "Section 2" "The road bends back."
        "normal" [RepairStoryText.Choice "Walk back." "section_1"]],
     []) ∧
  RepairStoryText.has_win
    (RepairStoryText.build_story RepairStoryText.scenario_loop []).1 = false.
Proof. by vm_compute. Qed.

(** Supporting C2: the keyword preference of [build_story] asks for "the
    end" in the text.  In a graph without a win ending, whose section 3 is
    a neutral ending that speaks of a return and whose section 2 is a
    neutral ending with no cue, [build_story] turns section 2 into the win
    ending and leaves section 3 neutral. *)
Example win_promotion_skips_cue_without_the_end :
  RepairStoryText.has_win
    (RepairStoryText.emit_node <$> RepairStoryText.scenario_cue) = false ∧
  Py.contains_any (Py.lower "They return home.")
    ["return"; "survive"; "find"; "worth"] = true ∧
  Py.contains_any (Py.lower "The road goes on.")
    ["return"; "survive"; "find"; "worth"] = false ∧
  (λ n, (RepairStoryText.n_id n, RepairStoryText.n_text n,
         RepairStoryText.n_node_type n)) <$>
    (RepairStoryText.build_story RepairStoryText.scenario_cue []).1
  = [("section_1", "The road forks.", "normal");
     ("section_2", "The road goes on.", "ending_win");
     ("section_3", "They return home.", "ending_neutral")].
Proof. by vm_compute. Qed.

(** C3, as amended: a choice whose destination D is missing and has a
    known section number within distance 2 is sent to the one R that is
    least in the order of (distance to D, number), nothing else changes in
    the state, and one line is appended to the log: by [fix_broken_links]
    the line "Remapped missing destination D -> R (source section S)", by
    [build_story] the line "Remapped missing destination D -> R (from
    section S).".  In scenario B the choice of section 1 goes to 3 and the
    lines are those for D = 5, R = 3, S = 1. *)
Theorem remap_picks_nearest_and_logs :
  (∀ source c st n0,
     BuildStory.c_destination c ∉ BuildStory.existing st →
     n0 ∈ BuildStory.existing st →
     Z.abs (n0 - BuildStory.c_destination c) ≤ 2 →
     ∃ R,
       R ∈ BuildStory.existing st ∧
       Z.abs (R - BuildStory.c_destination c) ≤ 2 ∧
       (∀ n, n ∈ BuildStory.existing st →
             Z.abs (n - BuildStory.c_destination c) ≤ 2 →
             PySort.pair_le (Z.abs (R - BuildStory.c_destination c), R)
                            (Z.abs (n - BuildStory.c_destination c), n)) ∧
       BuildStory.fix_choice source c st =
         (BuildStory.Choice (BuildStory.c_text c) R,
          BuildStory.FixState (BuildStory.existing st) (BuildStory.by_num st)
            (BuildStory.report st ++
               ["Remapped missing destination "
                  +:+ Py.str (BuildStory.c_destination c) +:+ " -> "
                  +:+ Py.str R +:+ " (source section "
                  +:+ Py.str source +:+ ")"]))) ∧
  (∀ source c st n0,
     RepairStoryText.row_destination c ∉ RepairStoryText.existing_sections st →
     n0 ∈ RepairStoryText.existing_sections st →
     Z.abs (n0 - RepairStoryText.row_destination c) ≤ 2 →
     ∃ R,
       R ∈ RepairStoryText.existing_sections st ∧
       Z.abs (R - RepairStoryText.row_destination c) ≤ 2 ∧
       (∀ n, n ∈ RepairStoryText.existing_sections st →
             Z.abs (n - RepairStoryText.row_destination c) ≤ 2 →
             PySort.pair_le (Z.abs (R - RepairStoryText.row_destination c), R)
                            (Z.abs (n - RepairStoryText.row_destination c), n)) ∧
       RepairStoryText.resolve_choice source c st =
         (RepairStoryText.ChoiceRow (RepairStoryText.row_text c) R,
          RepairStoryText.RepairState (RepairStoryText.existing_sections st)
            (RepairStoryText.added st)
            (RepairStoryText.link_changes st ++
               ["Remapped missing destination "
                  +:+ Py.str (RepairStoryText.row_destination c) +:+ " -> "
                  +:+ Py.str R +:+ " (from section "
                  +:+ Py.str source +:+ ")."]))) ∧
  BuildStory.fix_broken_links BuildStory.scenario_B
  = ([BuildStory.Sect 1 "The road forks."
        [BuildStory.Choice "Take the left fork" 3] "normal";
      BuildStory.Sect 2 "The road goes on." [] "ending_neutral";
      BuildStory.Sect 3 "A quiet meadow." [] "ending_neutral";
      BuildStory.Sect 7 "An empty barn." [] "ending_neutral"],
     ["Remapped missing destination 5 -> 3 (source section 1)"]) ∧
  (RepairStoryText.repaired RepairStoryText.scenario_B []).1
  = [(1, RepairStoryText.Payload 1 "Section 1" "The road forks." "normal"
           [RepairStoryText.ChoiceRow "Take the left fork." 3]);
     (2, RepairStoryText.Payload 2 "Section 2" "The road goes on."
           "ending_neutral" []);
     (3, RepairStoryText.Payload 3 "Section 3" "A quiet meadow."
           "ending_neutral" []);
     (7, RepairStoryText.Payload 7 "Section 7" "An empty barn."
           "ending_neutral" [])] ∧
  (RepairStoryText.build_story RepairStoryText.scenario_B []).2
  = ["Remapped missing destination 5 -> 3 (from section 1)."].
Proof.
  split; [|split; [|split; [|split]]].
  - intros source c st n0 Hout Hn0 Hnear.
    destruct (fix_choice_cases source c st)
      as [[Hin _]|[(_ & R & HR & HRnear & Hmin & Heq)|(_ & Hfar & _)]].
    + by destruct Hout.
    + exists R. by repeat split.
    + specialize (Hfar n0 Hn0). lia.
  - intros source c st n0 Hout Hn0 Hnear.
    destruct (resolve_choice_cases source c st)
      as [[Hin _]|[(_ & R & HR & HRnear & Hmin & Heq)|(_ & Hfar & _)]].
    + by destruct Hout.
    + exists R. by repeat split.
    + specialize (Hfar n0 Hn0). lia.
  - by vm_compute.
  - by vm_compute.
  - by vm_compute.
Qed.

Lemma remap_picks_nearest_and_logs_witness :
  ∃ R,
    R ∈ ({[1; 2; 3; 7]} : gset Z) ∧ Z.abs (R - 5) ≤ 2 ∧
    PySort.pair_le (Z.abs (R - 5), R) (Z.abs (7 - 5), 7) ∧
    PySort.pair_le (Z.abs (R - 5), R) (Z.abs (3 - 5), 3).
Proof.
  destruct (proj1 remap_picks_nearest_and_logs 1
              (BuildStory.Choice "Take the left fork" 5)
              (BuildStory.FixState {[1; 2; 3; 7]} ∅ []) 7)
    as (R & HR & Hnear & Hmin & _).
  - vm_compute. intros H. discriminate H.
  - vm_compute. reflexivity.
  - vm_compute. discriminate.
  - exists R. split; [exact HR|]. split; [exact Hnear|]. split.
    + apply Hmin; [vm_compute; reflexivity|vm_compute; discriminate].
    + apply Hmin; [vm_compute; reflexivity|vm_compute; discriminate].
Defined.

(** The claim C3 does not hold as stated: in scenario B neither repair
    logs the line "Remapped missing destination 5 -> 3 (source section
    1)." that the claim quotes. *)
Lemma remap_log_line_differs :
  (BuildStory.fix_broken_links BuildStory.scenario_B).2
  ≠ ["Remapped missing destination 5 -> 3 (source section 1)."] ∧
  (RepairStoryText.build_story RepairStoryText.scenario_B []).2
  ≠ ["Remapped missing destination 5 -> 3 (source section 1)."].
Proof. split; vm_compute; discriminate. Qed.

(** C5, where the code departs from it: [auto_fix] is given a store whose
    one node is declared normal and has no choice, and writes the node back
    as it is, typed normal without choices, next to the win ending it
    adds. *)
Theorem auto_fix_keeps_choiceless_normal :
  Validate.auto_fix Validate.choiceless_normal
  = Some [Validate.Node (Some "section_1") (Some 1) (Some "The Gate")
            (Some "A locked gate.") (Some "normal") [];
          Validate.victory_node].
Proof. by vm_compute. Qed.

(** C6, where the code departs from it: on the text of scenario A
    [extract_choices] returns no choice at all. *)
Theorem extract_choices_misses_scenario_A :
  RepairStoryText.extract_choices RepairStoryText.scenario_A = [].
Proof. by vm_compute. Qed.

End Claims.

(** * Further properties of the code *)

Section TraversalSound.
Import LintStory.

Lemma visit_spec nxts seen q seen' q' :
  visit nxts seen q = (seen', q') →
  seen ⊆ seen' ∧
  (∀ x, x ∈ nxts → x ∈ seen') ∧
  ∃ added, q' = q ++ added ∧
    (∀ x, x ∈ added → x ∈ nxts) ∧
    (∀ x, x ∈ seen' → x ∈ seen ∨ x ∈ added).
Proof.
  revert seen q. induction nxts as [|nxt nxts IH]; intros seen q; simpl.
  - intros [= <- <-]. split; [done|]. split; [by intros x ?%elem_of_nil|].
    exists []. rewrite app_nil_r. split; [done|]. split; [|by left].
    by intros x ?%elem_of_nil.
  - case_bool_decide as Hin.
    + intros (Hsub & Hn & added & -> & Ha & Hs)%IH.
      split; [done|]. split.
      * intros x [->|Hx]%elem_of_cons; [by apply Hsub|by apply Hn].
      * exists added. split; [done|]. split; [|done].
        intros x Hx. right. by apply Ha.
    + intros (Hsub & Hn & added & -> & Ha & Hs)%IH.
      split; [etrans; [apply union_subseteq_r|done]|]. split.
      * intros x [->|Hx]%elem_of_cons; [|by apply Hn].
        apply Hsub, elem_of_union. left. by apply elem_of_singleton.
      * exists (nxt :: added). rewrite <- app_assoc. split; [done|]. split.
        -- intros x [->|Hx]%elem_of_cons; [by left|]. right. by apply Ha.
        -- intros x [[Hx%elem_of_singleton|Hx]%elem_of_union|Hx]%Hs.
           ++ right. subst. by left.
           ++ by left.
           ++ right. by right.
Qed.

Lemma bfs_keeps_inv graph entry fuel q seen :
  bfs_inv graph entry seen q →
  bfs_inv graph entry (bfs fuel graph q seen).1 (bfs fuel graph q seen).2.
Proof.
  revert q seen. induction fuel as [|fuel IH]; intros q seen Hinv; [done|].
  simpl. destruct q as [|cur q]; [done|].
  destruct (visit _ seen q) as [seen' q'] eqn:Hv.
  apply IH. destruct Hinv as (He & Hq & Hreach & Hclosed).
  apply visit_spec in Hv as (Hsub & Hn & added & -> & Ha & Hs).
  split; [by apply Hsub|]. split; [|split].
  - intros x [Hx|Hx]%elem_of_app.
    + apply Hsub, Hq. by right.
    + by apply Hn, Ha.
  - intros x [Hx|Hx]%Hs; [by apply Hreach|].
    apply Ha in Hx. destruct (graph !! cur) as [l|] eqn:Hl; simpl in Hx.
    + eapply rtc_r; [apply Hreach, Hq; by left|]. by exists l.
    + by apply elem_of_nil in Hx.
  - intros a b l Ha' Hnq Hl Hb.
    apply Hs in Ha' as [Ha'|Ha']; [|exfalso; apply Hnq, elem_of_app; by right].
    destruct (decide (a = cur)) as [->|Hne].
    + apply Hn. by rewrite Hl.
    + apply Hsub. apply (Hclosed a b l); [done| |done|done].
      intros [->|Hx]%elem_of_cons; [done|].
      apply Hnq, elem_of_app. by left.
Qed.

Lemma bfs_subseteq (U : gset string) (graph : gmap string (list string))
    fuel q seen :
  (∀ k l, graph !! k = Some l → Forall (λ x, x ∈ U) l) →
  seen ⊆ U → (bfs fuel graph q seen).1 ⊆ U.
Proof.
  intros Hgraph. revert q seen.
  induction fuel as [|fuel IH]; intros q seen Hsub; [done|].
  simpl. destruct q as [|cur q]; [done|].
  destruct (visit _ seen q) as [seen' q'] eqn:Hv.
  apply IH. apply (visit_measure U) in Hv as [Hsub' _]; [done| |done].
  destruct (graph !! cur) as [l|] eqn:Hl; simpl; [by eapply Hgraph|].
  constructor.
Qed.

(** When the traversal of [reachable_ratio] ends, its invariant holds of
    the set it returns and the empty queue. *)
Lemma reachable_inv (first : node) (rest : list node) :
  bfs_inv (graph_of (first :: rest)) (n_id first)
    (reachable (first :: rest) (n_id first)) [].
Proof.
  pose proof (bfs_keeps_inv (graph_of (first :: rest)) (n_id first)
                (size (idset_of (first :: rest))) [n_id first]
                {[n_id first]}) as Hinv.
  rewrite reachable_drains in Hinv. apply Hinv.
  split; [by apply elem_of_singleton|]. split; [|split].
  - intros y [->|Hy]%elem_of_cons; [by apply elem_of_singleton|].
    by apply elem_of_nil in Hy.
  - intros y ->%elem_of_singleton. done.
  - intros a b l ->%elem_of_singleton Hnq. exfalso. apply Hnq. by left.
Qed.

Lemma linked_closed (first : node) (rest : list node) (x : string) :
  rtc (linked (first :: rest)) (n_id first) x →
  x ∈ reachable (first :: rest) (n_id first).
Proof.
  destruct (reachable_inv first rest) as (He & _ & _ & Hclosed).
  revert x. apply rtc_ind_r; [done|].
  intros a b _ (l & Hl & Hb) IH.
  apply (Hclosed a b l); [done| |done|done]. by intros ?%elem_of_nil.
Qed.

(** X1: the set of ids that [reachable_ratio] counts is exactly the set
    of ids to which a chain of links of its graph leads from the id of
    the first node: the traversal misses none and adds none. *)
Theorem reachable_is_link_closure (first : node) (rest : list node)
    (x : string) :
  x ∈ reachable (first :: rest) (n_id first)
  ↔ rtc (linked (first :: rest)) (n_id first) x.
Proof.
  split; [|apply linked_closed].
  destruct (reachable_inv first rest) as (_ & _ & Hreach & _).
  intros Hx. specialize (Hreach x Hx).
  clear Hx. induction Hreach as [|a b c (l & Hl & Hb) _ IH].
  - apply rtc_refl.
  - eapply rtc_l; [|exact IH]. by exists l.
Qed.
End TraversalSound.

Section RatioBounds.
Import LintStory.

Lemma reachable_subseteq first rest :
  reachable (first :: rest) (n_id first) ⊆ idset_of (first :: rest).
Proof.
  unfold reachable. apply bfs_subseteq; [apply graph_of_targets|].
  apply singleton_subseteq_l. unfold idset_of.
  apply elem_of_list_to_set. by left.
Qed.

Lemma idset_of_size nodes : (size (idset_of nodes) ≤ length nodes)%nat.
Proof.
  unfold idset_of. induction nodes as [|n nodes IH].
  - rewrite fmap_nil, list_to_set_nil, size_empty. done.
  - rewrite fmap_cons, list_to_set_cons, length_cons, size_union_alt.
    rewrite size_singleton.
    assert (size ((list_to_set (n_id <$> nodes) : gset string) ∖ {[n_id n]})
            ≤ size (list_to_set (n_id <$> nodes) : gset string))%nat as Hle.
    { apply subseteq_size. intros x Hx. by apply elem_of_difference in Hx as [? _]. }
    lia.
Qed.

Lemma ratio_unit (k t : nat) :
  (1 ≤ k)%nat → (k ≤ t)%nat →
  (0 < Qmake (Z.of_nat k) (Pos.of_nat t))%Q
  ∧ (Qmake (Z.of_nat k) (Pos.of_nat t) <= 1)%Q.
Proof.
  intros Hk Ht. unfold Qlt, Qle. simpl.
  assert (Z.pos (Pos.of_nat t) = Z.of_nat t) as ->.
  { destruct t; [lia|]. rewrite <- Pos.of_nat_succ. lia. }
  lia.
Qed.

(** X2: [reachable_ratio] returns the number of nodes as its total and
    a reachable count that does not exceed it; on the empty store it
    returns (0, 0, 0); on any other store the entry counts, so the count
    is at least 1 and the ratio lies in (0, 1]. *)
Theorem reachable_ratio_bounds (nodes : list node) :
  (reachable_ratio nodes).2 = length nodes ∧
  ((reachable_ratio nodes).1.2 ≤ length nodes)%nat ∧
  (nodes = [] → reachable_ratio nodes = (0%Q, O, O)) ∧
  (nodes ≠ [] →
   (1 ≤ (reachable_ratio nodes).1.2)%nat ∧
   (0 < (reachable_ratio nodes).1.1)%Q ∧
   ((reachable_ratio nodes).1.1 <= 1)%Q).
Proof.
  destruct nodes as [|first rest]; [by repeat split; try lia|].
  unfold reachable_ratio. cbn [fst snd].
  assert (1 ≤ size (reachable (first :: rest) (n_id first)))%nat as Hone.
  { rewrite <- (size_singleton (C := gset string) (n_id first)).
    apply subseteq_size, singleton_subseteq_l.
    by destruct (reachable_inv first rest) as (He & _). }
  assert (size (reachable (first :: rest) (n_id first))
          ≤ length (first :: rest))%nat as Hle.
  { etrans; [apply subseteq_size, reachable_subseteq|apply idset_of_size]. }
  split; [done|]. split; [done|]. split; [done|]. intros _.
  split; [done|]. by apply ratio_unit.
Qed.

Lemma idset_of_NoDup_size nodes :
  NoDup (n_id <$> nodes) → size (idset_of nodes) = length nodes.
Proof.
  intros Hnd. unfold idset_of. rewrite size_list_to_set by done.
  by rewrite length_fmap.
Qed.

(** X3: on a store of distinct ids in which a chain of links leads
    from the first node to every node, [reachable_ratio] counts every
    node and its ratio is 1. *)
Theorem reachable_ratio_connected (first : node) (rest : list node) :
  NoDup (n_id <$> first :: rest) →
  (∀ n, n ∈ first :: rest →
        rtc (linked (first :: rest)) (n_id first) (n_id n)) →
  ∃ ratio,
    reachable_ratio (first :: rest)
    = (ratio, length (first :: rest), length (first :: rest))
    ∧ (ratio == 1)%Q.
Proof.
  intros Hnd Hall.
  assert (reachable (first :: rest) (n_id first) = idset_of (first :: rest))
    as Heq.
  { apply set_eq. intros x. split; [apply reachable_subseteq|].
    unfold idset_of. rewrite elem_of_list_to_set.
    intros (n & -> & Hn)%list_elem_of_fmap.
    by apply linked_closed, Hall. }
  unfold reachable_ratio. rewrite Heq, idset_of_NoDup_size by done.
  eexists. split; [reflexivity|].
  unfold Qeq. cbn [Qnum Qden length]. rewrite <- Pos.of_nat_succ. lia.
Qed.

Lemma reachable_ratio_connected_witness :
  ∃ ratio, reachable_ratio scenario_E = (ratio, 2%nat, 2%nat) ∧ (ratio == 1)%Q.
Proof.
  apply (reachable_ratio_connected
           (Node "section_1" 1 "Crossroads" "The road forks." "normal"
              [Choice "Go north" "section_2"; Choice "go north!" "section_2"])
           [Node "section_2" 2 "North" "A quiet meadow." "ending_win" []]).
  - apply (bool_decide_unpack _). by vm_compute.
  - intros n [->|[->|[]%elem_of_nil]%elem_of_cons]%elem_of_cons.
    + apply rtc_refl.
    + apply rtc_once. eexists. split; [vm_compute; reflexivity|]. by left.
Defined.
End RatioBounds.

Section DuplicateReport.
Import LintStory.

Lemma unique_choices_count node_id cs seen :
  (unique_choices cs seen).2 = length (node_duplicates node_id cs seen).
Proof.
  revert seen. induction cs as [|c cs IH]; intros seen; [done|].
  simpl. case_bool_decide.
  - specialize (IH seen). destruct (unique_choices cs seen). simpl in *.
    by rewrite IH.
  - specialize (IH ({[choice_key c]} ∪ seen)).
    by destruct (unique_choices cs ({[choice_key c]} ∪ seen)).
Qed.

Lemma fix_duplicate_choices_cons n rest :
  fix_duplicate_choices (n :: rest)
  = (set_choices n (take 4 (unique_choices (n_choices n) ∅).1)
       :: (fix_duplicate_choices rest).1,
     ((unique_choices (n_choices n) ∅).2
      + (fix_duplicate_choices rest).2)%nat).
Proof.
  cbn [fix_duplicate_choices].
  destruct (unique_choices (n_choices n) ∅).
  by destruct (fix_duplicate_choices rest).
Qed.

Lemma fix_removed_zero (nodes : list node) :
  (fix_duplicate_choices nodes).2 = O ↔ choice_duplicates nodes = [].
Proof.
  unfold choice_duplicates. induction nodes as [|n rest IH]; [done|].
  rewrite fix_duplicate_choices_cons, bind_cons. cbn [snd].
  rewrite (unique_choices_count (n_id n)). split.
  - intros Hzero.
    assert (length (node_duplicates (n_id n) (n_choices n) ∅) = O) as Hn
      by lia.
    apply nil_length_inv in Hn. rewrite Hn. apply IH. lia.
  - intros [Hn Hrest]%app_eq_nil. rewrite Hn. by apply IH.
Qed.

Lemma node_duplicates_fresh node_id cs seen :
  fresh_keys seen cs → node_duplicates node_id cs seen = [].
Proof.
  revert seen. induction cs as [|c cs IH]; intros seen [Hnd Hfresh]; [done|].
  simpl. rewrite fmap_cons in Hnd. apply NoDup_cons in Hnd as [Hc Hnd].
  rewrite bool_decide_false by (apply Hfresh; left).
  apply IH. split; [done|].
  intros c' Hc'. apply not_elem_of_union. split.
  - intros Heq%elem_of_singleton. apply Hc, list_elem_of_fmap. eauto.
  - apply Hfresh. by right.
Qed.

Lemma unique_choices_sublist cs seen :
  (unique_choices cs seen).1 `sublist_of` cs.
Proof.
  revert seen. induction cs as [|c cs IH]; intros seen; [done|].
  simpl. case_bool_decide.
  - specialize (IH seen). destruct (unique_choices cs seen).
    by apply sublist_cons.
  - specialize (IH ({[choice_key c]} ∪ seen)).
    destruct (unique_choices cs ({[choice_key c]} ∪ seen)).
    by apply sublist_skip.
Qed.

Lemma fix_result_unique (nodes : list node) :
  choice_duplicates (fix_duplicate_choices nodes).1 = [].
Proof.
  unfold choice_duplicates. induction nodes as [|n rest IH]; [done|].
  rewrite fix_duplicate_choices_cons. cbn [fst].
  rewrite bind_cons, IH, app_nil_r. cbn [set_choices n_id n_choices].
  apply node_duplicates_fresh, fresh_keys_take, unique_choices_fresh.
Qed.

(** X4: the count that [fix_duplicate_choices] returns is the number
    of duplicates that [choice_duplicates] reports on the same store. *)
Theorem fix_duplicate_choices_count (nodes : list node) :
  (fix_duplicate_choices nodes).2 = length (choice_duplicates nodes).
Proof.
  unfold choice_duplicates.
  induction nodes as [|n rest IH]; [done|].
  rewrite fix_duplicate_choices_cons, bind_cons, length_app, <- IH.
  cbn [snd]. by rewrite (unique_choices_count (n_id n)).
Qed.

(** X5: after [fix_duplicate_choices], [choice_duplicates] reports
    nothing; each node keeps its other fields, has at most four choices,
    and these are choices it had, in the order it had them. *)
Theorem fix_duplicate_choices_clean (nodes : list node) :
  choice_duplicates (fix_duplicate_choices nodes).1 = [] ∧
  Forall2 (λ n n',
             n' = set_choices n (n_choices n') ∧
             (length (n_choices n') ≤ 4)%nat ∧
             n_choices n' `sublist_of` n_choices n)
    nodes (fix_duplicate_choices nodes).1.
Proof.
  split; [apply fix_result_unique|].
  induction nodes as [|n rest IH]; [constructor|].
  rewrite fix_duplicate_choices_cons. cbn [fst].
  constructor; [|done]. cbn [set_choices n_choices].
  split; [done|]. split.
  - rewrite length_take. lia.
  - etrans; [apply sublist_take|apply unique_choices_sublist].
Qed.
End DuplicateReport.

Section LintWrites.
Import LintStory.

(** X6: [main] rewrites the store file only in fix mode and only when
    the store had duplicate choices; what it writes is the fixed store,
    in which no duplicate is left.  In every other case nothing is
    written. *)
Theorem main_writes_only_fixes (a : args) (file : story_file) :
  match written (main a file) with
  | Some ns =>
      fix_flag a = true ∧
      ∃ nodes, file = Store nodes ∧ choice_duplicates nodes ≠ [] ∧
               ns = (fix_duplicate_choices nodes).1 ∧
               choice_duplicates ns = []
  | None =>
      fix_flag a = false ∨ (∀ nodes, file ≠ Store nodes) ∨
      ∃ nodes, file = Store nodes ∧ choice_duplicates nodes = []
  end.
Proof.
  destruct file as [| | |nodes]; try (cbn; right; left; done).
  unfold main.
  pose proof (fix_removed_zero nodes) as Hzero.
  pose proof (fix_result_unique nodes) as Hclean.
  destruct (fix_flag a).
  2:{ destruct (reachable_ratio nodes) as [[? ?] ?].
      destruct (max_noise_ratio nodes) as [? ?]. by left. }
  destruct (fix_duplicate_choices nodes) as [nodes' removed] eqn:Hfix.
  simpl in *.
  destruct removed as [|removed].
  - destruct (reachable_ratio nodes') as [[? ?] ?].
    destruct (max_noise_ratio nodes') as [? ?]. simpl.
    right. right. exists nodes. split; [done|]. by apply Hzero.
  - destruct (reachable_ratio nodes') as [[? ?] ?].
    destruct (max_noise_ratio nodes') as [? ?]. simpl.
    split; [done|]. exists nodes. split; [done|]. rewrite Hfix.
    split; [|by split].
    intros Hnil. by apply Hzero in Hnil.
Qed.

End LintWrites.

Section Noise.
Import LintStory.

Lemma noise_of_unit n : (0 <= noise_of n)%Q ∧ (noise_of n <= 1)%Q.
Proof.
  unfold noise_of. destruct (n_text n) as [|c text] eqn:Ht; [done|].
  generalize (String c text) as s. intros s.
  assert (Py.count (λ ch, negb (allowed ch)) s ≤ String.length s)%nat as Hle.
  { unfold Py.count. induction s as [|ch s IH]; simpl; [done|].
    destruct (negb (allowed ch)); simpl; lia. }
  unfold Qle. simpl.
  destruct (String.length s) as [|k] eqn:Hk.
  - assert (Py.count (λ ch, negb (allowed ch)) s = 0)%nat as -> by lia.
    simpl. lia.
  - rewrite <- Pos.of_nat_succ. lia.
Qed.

End Noise.

Section NoiseMax.
Import LintStory.

Lemma max_noise_fold nodes mr mn acc :
  (0 <= mr)%Q →
  foldl (λ '(max_ratio, max_node) n,
           match n_text n with
           | EmptyString => (max_ratio, max_node)
           | text =>
               let bad := Py.count (λ ch, negb (allowed ch)) text in
               let ratio :=
                 Qmake (Z.of_nat bad) (Pos.of_nat (String.length text)) in
               if Qle_bool ratio max_ratio then (max_ratio, max_node)
               else (ratio, n_id n)
           end) (mr, mn) nodes = acc →
  (mr <= acc.1)%Q ∧
  Forall (λ n, noise_of n <= acc.1)%Q nodes ∧
  (acc = (mr, mn) ∨
   ∃ n, n ∈ nodes ∧ n_id n = acc.2 ∧ noise_of n = acc.1 ∧ (mr < acc.1)%Q).
Proof.
  revert mr mn. induction nodes as [|n nodes IH]; intros mr mn Hmr.
  - simpl. intros <-. split; [apply Qle_refl|]. split; [constructor|by left].
  - cbn [foldl].
    set (step := match n_text n with EmptyString => _ | _ => _ end).
    assert (Hstep : step = (mr, mn) ∧ (noise_of n <= mr)%Q
                    ∨ step = (noise_of n, n_id n) ∧ (mr < noise_of n)%Q).
    { subst step. unfold noise_of.
      destruct (n_text n) as [|c text]; [by left|].
      destruct (Qle_bool _ mr) eqn:Hle.
      - left. split; [done|]. by apply Qle_bool_iff.
      - right. split; [done|]. apply Qnot_le_lt. intros Hle'.
        apply Qle_bool_iff in Hle'. congruence. }
    clearbody step. destruct Hstep as [[-> Hle]|[-> Hlt]]; intros Hacc.
    + destruct (IH mr mn Hmr Hacc) as (Hge & Hall & Hwho).
      split; [done|]. split.
      * constructor; [|done]. by eapply Qle_trans.
      * destruct Hwho as [->|(n' & Hn' & Hid & Hr & Hlt)]; [by left|].
        right. exists n'. split; [by right|done].
    + destruct (IH (noise_of n) (n_id n)) as (Hge & Hall & Hwho); [|done|].
      { by eapply Qle_trans; [|apply Qlt_le_weak]. }
      split; [by eapply Qle_trans; [apply Qlt_le_weak|]|]. split.
      * by constructor.
      * right. destruct Hwho as [->|(n' & Hn' & Hid & Hr & Hlt')].
        -- exists n. split; [by left|done].
        -- exists n'. split; [by right|]. split; [done|]. split; [done|].
           by eapply Qlt_trans.
Qed.

(** X7: the ratio that [max_noise_ratio] returns lies between 0 and 1
    and bounds the noise of every node; it is (0, the empty id) when no
    text has a character outside the allow-list, and otherwise it is the
    noise of a node of the store, whose id is returned with it. *)
Theorem max_noise_ratio_is_max (nodes : list node) :
  (0 <= (max_noise_ratio nodes).1)%Q ∧
  ((max_noise_ratio nodes).1 <= 1)%Q ∧
  Forall (λ n, noise_of n <= (max_noise_ratio nodes).1)%Q nodes ∧
  (max_noise_ratio nodes = (0%Q, EmptyString) ∨
   ∃ n, n ∈ nodes ∧ n_id n = (max_noise_ratio nodes).2 ∧
        noise_of n = (max_noise_ratio nodes).1 ∧
        (0 < noise_of n)%Q).
Proof.
  destruct (max_noise_fold nodes 0%Q EmptyString (max_noise_ratio nodes))
    as (Hge & Hall & Hwho); [done|done|].
  split; [done|]. split; [|split; [done|]].
  - destruct Hwho as [->|(n & _ & _ & <- & _)]; [done|].
    apply noise_of_unit.
  - destruct Hwho as [->|(n & Hn & Hid & Hr & Hlt)]; [by left|].
    right. exists n. by rewrite Hr.
Qed.

End NoiseMax.

Section ValidateShape.
Import Validate.

Lemma str_take_length n s : (String.length (Py.str_take n s) ≤ n)%nat.
Proof.
  revert s. induction n as [|n IH]; intros [|c s]; simpl; try lia.
  specialize (IH s). lia.
Qed.

Lemma infer_node_type_valid n :
  infer_node_type n ∈ VALID_NODE_TYPES ∧
  (n_choices n ≠ [] → infer_node_type n = "normal").
Proof.
  unfold infer_node_type, VALID_NODE_TYPES.
  destruct (n_choices n); [|split; [set_solver|done]].
  split; [|done].
  destruct (Py.contains_any _ _); [set_solver|].
  destruct (Py.contains_any _ _); set_solver.
Qed.

Lemma fix_keys_spec n k :
  fix_keys n = Some k →
  n_id k = n_id n ∧ n_choices k = n_choices n ∧
  is_Some (n_section_number k) ∧ is_Some (n_title k) ∧ is_Some (n_text k) ∧
  (∃ t, n_node_type k = Some t ∧ t ∈ VALID_NODE_TYPES) ∧
  (n_choices k ≠ [] → n_node_type k = Some "normal").
Proof.
  unfold fix_keys. destruct (id_number _) as [from_id|]; [|done].
  intros [= <-]. cbn [n_id n_choices n_section_number n_title n_text
                        n_node_type].
  do 5 (split; [eauto|]).
  set (keyed := Node _ _ _ _ _ _).
  destruct (infer_node_type_valid keyed) as [Hv Hn].
  destruct (n_node_type n) as [t|].
  - case_bool_decide as Ht.
    + destruct (n_choices n) eqn:Hc.
      * split; [eauto|done].
      * split; [|done]. eexists. split; [done|]. set_solver.
    + split; [eauto|]. intros Hc. f_equal. by apply Hn.
  - split; [eauto|]. intros Hc. f_equal. by apply Hn.
Qed.

Lemma make_stubs_ids missing next_auto :
  omap n_id (make_stubs missing next_auto) = missing.
Proof.
  revert next_auto. induction missing as [|m rest IH]; intros a; [done|].
  simpl. destruct (_ && _); simpl; by rewrite IH.
Qed.

Lemma make_stubs_spec missing next_auto n :
  n ∈ make_stubs missing next_auto →
  ∃ m sec_no, m ∈ missing ∧ n = stub m sec_no.
Proof.
  revert next_auto. induction missing as [|m rest IH]; intros a; simpl.
  - by intros ?%elem_of_nil.
  - destruct (_ && _); intros [->|Hn]%elem_of_cons.
    + exists m, (Py.int_digits (Py.last_part (Py.split "_" m))).
      split; [by left|done].
    + destruct (IH _ Hn) as (m' & s & Hm & ->). exists m', s.
      split; [by right|done].
    + exists m, a. split; [by left|done].
    + destruct (IH _ Hn) as (m' & s & Hm & ->). exists m', s.
      split; [by right|done].
Qed.

(** What [guarantee_win] does to the list: it keeps every node, retypes at
    most one convertible node, and may append the victory node. *)
Lemma guarantee_win_nodes ns n :
  n ∈ guarantee_win ns →
  n ∈ ns ∨ (∃ m, m ∈ ns ∧ convertible m = true
                 ∧ n = set_node_type "ending_win" m)
  ∨ n = victory_node.
Proof.
  unfold guarantee_win. destruct (has_win ns); [by left|].
  destruct (convert_first_cases ns)
    as [[_ ->]|(l1 & m & l2 & -> & _ & Hm & ->)].
  - intros [Hn|Hn]%elem_of_app; [by left|].
    apply list_elem_of_singleton in Hn. by right; right.
  - intros [Hn|[->|Hn]%elem_of_cons]%elem_of_app.
    + left. apply elem_of_app. by left.
    + right. left. exists m. split; [|done].
      apply elem_of_app. right. by left.
    + left. apply elem_of_app. right. by right.
Qed.

Lemma guarantee_win_ids ns : ids_of ns ⊆ ids_of (guarantee_win ns).
Proof.
  unfold guarantee_win. destruct (has_win ns); [done|].
  unfold ids_of.
  destruct (convert_first_cases ns)
    as [[_ ->]|(l1 & m & l2 & -> & _ & Hm & ->)].
  - rewrite omap_app, list_to_set_app. apply union_subseteq_l.
  - rewrite !omap_app. simpl. done.
Qed.

Lemma ids_of_perm ns ns' : ns ≡ₚ ns' → ids_of ns = ids_of ns'.
Proof.
  intros Hp. unfold ids_of. apply set_eq. intros x.
  rewrite !elem_of_list_to_set, !list_elem_of_omap.
  by setoid_rewrite Hp.
Qed.

End ValidateShape.

Section AutoFixOutput.
Import Validate.

(** The shape of what [auto_fix] returns. *)
Lemma auto_fix_unfold nodes out :
  auto_fix nodes = Some out →
  ∃ keyed stubs,
    Forall2 (λ n k, fix_keys n = Some k) (dedupe nodes ∅) keyed ∧
    (stubs = [] ∧ missing_of (ids_of (dedupe nodes ∅)) keyed = ∅
     ∨ ∃ next_auto,
         stubs = make_stubs
                   (PySort.sorted_strings
                      (elements (missing_of (ids_of (dedupe nodes ∅)) keyed)))
                   next_auto) ∧
    out ≡ₚ guarantee_win ((trim_choices <$> keyed) ++ stubs) ∧
    out = order_nodes (guarantee_win ((trim_choices <$> keyed) ++ stubs)).
Proof.
  unfold auto_fix. destruct (mapM fix_keys _) as [keyed|] eqn:Hk; [|done].
  simpl. intros [= <-]. apply mapM_Some in Hk.
  case_bool_decide as Hm.
  - exists keyed, []. rewrite app_nil_r. split; [done|].
    split; [by left|]. split; [|done]. apply validate_order_perm.
  - eexists keyed, _. split; [done|]. split; [right; eauto|].
    split; [|done]. apply validate_order_perm.
Qed.

Lemma keyed_ids ns keyed :
  Forall2 (λ n k, fix_keys n = Some k) ns keyed →
  omap n_id (trim_choices <$> keyed) = omap n_id ns.
Proof.
  induction 1 as [|n k ns keyed Hk _ IH]; [done|].
  apply fix_keys_spec in Hk as (Hid & _). rewrite fmap_cons.
  change (omap n_id (n :: ns))
    with (from_option (λ y, y :: omap n_id ns) (omap n_id ns) (n_id n)).
  change (omap n_id (trim_choices k :: (trim_choices <$> keyed)))
    with (from_option (λ y, y :: omap n_id (trim_choices <$> keyed))
            (omap n_id (trim_choices <$> keyed)) (n_id k)).
  by rewrite IH, Hid.
Qed.

Lemma sorted_strings_perm l : PySort.sorted_strings l ≡ₚ l.
Proof. apply stable_sort_perm. Qed.

(** X8: in what [auto_fix] returns, every choice whose [next] is a
    string points to the id of a node of the list: a target that was
    missing has its stub. *)
Theorem auto_fix_links_resolve (nodes out : list node) :
  auto_fix nodes = Some out → links_resolve out.
Proof.
  intros (keyed & stubs & Hk & Hstubs & Hp & _)%auto_fix_unfold.
  intros n c nxt Hn Hc Hnxt.
  rewrite (ids_of_perm _ _ Hp). apply guarantee_win_ids.
  rewrite Hp in Hn.
  assert (Hbase : n ∈ (trim_choices <$> keyed) ++ stubs).
  { apply guarantee_win_nodes in Hn as [Hn|[Hn|Hn]];
      [done| |subst n; by apply elem_of_nil in Hc].
    destruct Hn as (m & _ & Hm & Hn). subst n.
    unfold convertible in Hm. apply andb_true_iff in Hm as [_ Hm].
    apply bool_decide_eq_true in Hm. cbn in Hc. rewrite Hm in Hc.
    by apply elem_of_nil in Hc. }
  unfold ids_of. rewrite omap_app, (keyed_ids _ _ Hk).
  rewrite list_to_set_app. apply elem_of_union.
  apply elem_of_app in Hbase as [(k & -> & Hkin)%list_elem_of_fmap|Hs].
  - cbn in Hc. apply list_elem_of_fmap in Hc as (c' & -> & Hc').
    cbn in Hnxt.
    destruct (decide (nxt ∈ ids_of (dedupe nodes ∅))) as [Hin|Hout];
      [by left|right].
    assert (Hmiss : nxt ∈ missing_of (ids_of (dedupe nodes ∅)) keyed).
    { unfold missing_of. apply elem_of_list_to_set, list_elem_of_In, filter_In.
      split; [|by rewrite bool_decide_false].
      apply list_elem_of_In, list_elem_of_omap. exists c'. split; [|done].
      apply list_elem_of_bind. eauto. }
    destruct Hstubs as [[_ Hnone]|[next_auto ->]].
    + rewrite Hnone in Hmiss. by apply elem_of_empty in Hmiss.
    + rewrite make_stubs_ids. apply elem_of_list_to_set.
      rewrite sorted_strings_perm. by apply elem_of_elements.
  - destruct Hstubs as [[-> _]|[next_auto ->]];
      [by apply elem_of_nil in Hs|].
    apply make_stubs_spec in Hs as (m & s & _ & ->).
    by apply elem_of_nil in Hc.
Qed.

Lemma auto_fix_links_resolve_witness :
  ∃ out, auto_fix dangling_store = Some out ∧ links_resolve out.
Proof.
  eexists. split; [vm_compute; reflexivity|].
  apply (auto_fix_links_resolve dangling_store). vm_compute. reflexivity.
Defined.
End AutoFixOutput.

Section AutoFixShape.
Import Validate.

Lemma stub_complete m sec_no : complete (stub m sec_no).
Proof.
  unfold complete, stub. cbn. do 4 (split; [eauto|]).
  split; [eexists; split; [done|]; unfold VALID_NODE_TYPES; set_solver|].
  split; [done|constructor].
Qed.

Lemma victory_complete : complete victory_node.
Proof.
  unfold complete, victory_node. cbn. do 4 (split; [eauto|]).
  split; [eexists; split; [done|]; unfold VALID_NODE_TYPES; set_solver|].
  split; [done|constructor].
Qed.

Lemma converted_complete m :
  complete m → convertible m = true →
  complete (set_node_type "ending_win" m).
Proof.
  intros (Hid & Hsn & Hti & Hte & _ & _ & Hlen) Hm.
  unfold convertible in Hm. apply andb_true_iff in Hm as [_ Hm].
  apply bool_decide_eq_true in Hm.
  unfold complete. cbn. do 4 (split; [done|]).
  split; [eexists; split; [done|]; unfold VALID_NODE_TYPES; set_solver|].
  split; [by rewrite Hm|done].
Qed.

Lemma keyed_complete n k :
  is_Some (n_id n) → fix_keys n = Some k → complete (trim_choices k).
Proof.
  intros Hid (Hid' & Hch & Hsn & Hti & Hte & Hty & Hnormal)%fix_keys_spec.
  unfold complete, trim_choices.
  cbn [n_id n_section_number n_title n_text n_node_type n_choices].
  rewrite Hid'. do 5 (split; [done|]). split.
  - intros Hne. apply Hnormal. intros Hnil. apply Hne. by rewrite Hnil.
  - apply Forall_fmap, Forall_forall. intros c _. apply str_take_length.
Qed.

(** X9: every node that [auto_fix] returns has an id, a section number,
    a title, a text and one of the four node types; a node with a choice
    is typed [normal], and no choice label is longer than 60
    characters. *)
Theorem auto_fix_complete (nodes out : list node) :
  auto_fix nodes = Some out → Forall complete out.
Proof.
  intros (keyed & stubs & Hk & Hstubs & Hp & _)%auto_fix_unfold.
  rewrite Hp.
  assert (Hbase : Forall complete ((trim_choices <$> keyed) ++ stubs)).
  { apply Forall_app. split.
    - apply Forall_forall. intros n (k & -> & Hkin)%list_elem_of_fmap.
      destruct (Forall2_elem_r _ _ _ _ Hk Hkin) as (n & Hn & Hfix).
      apply (keyed_complete n); [|done].
      destruct (dedupe_has_id _ _ _ Hn) as (node_id & -> & _). eauto.
    - destruct Hstubs as [[-> _]|[next_auto ->]]; [constructor|].
      apply Forall_forall. intros n (m & s & _ & ->)%make_stubs_spec.
      apply stub_complete. }
  apply Forall_forall. intros n Hn.
  apply guarantee_win_nodes in Hn as [Hn|[(m & Hm & Hconv & ->) | ->]].
  - by eapply Forall_forall in Hbase.
  - apply converted_complete; [|done]. by eapply Forall_forall in Hbase.
  - apply victory_complete.
Qed.

Lemma auto_fix_complete_witness :
  ∃ out, auto_fix dangling_store = Some out ∧ Forall complete out.
Proof.
  eexists. split; [vm_compute; reflexivity|].
  apply (auto_fix_complete dangling_store). vm_compute. reflexivity.
Defined.

End AutoFixShape.

Section AutoFixOrder.
Import PySort Validate.
#[local] Existing Instance by_le_total.
#[local] Existing Instance by_le_trans.

#[local] Instance on_le_total {A} (key : A → Z) : Total (on_le key).
Proof. intros a b. unfold on_le. lia. Qed.
#[local] Instance on_le_trans {A} (key : A → Z) : Transitive (on_le key).
Proof. intros a b c. unfold on_le. lia. Qed.

Lemma StronglySorted_weaken {A} (R R' : relation A) l :
  StronglySorted R l →
  (∀ a b, a ∈ l → b ∈ l → R a b → R' a b) →
  StronglySorted R' l.
Proof.
  induction 1 as [|x l Hs IH Hall]; intros Himp; [constructor|].
  constructor.
  - apply IH. intros a b Ha Hb. apply Himp; by right.
  - apply Forall_forall. intros y Hy. apply Himp; [by left|by right|].
    by eapply Forall_forall in Hall.
Qed.

(** X11: the two sorts at the end of [auto_fix] keep the nodes and leave
    them ordered by the pair (is not section 1, section number); a node
    of section 1, when there is one, comes first. *)
Theorem order_nodes_entry_first (ns : list node) :
  order_nodes ns ≡ₚ ns ∧
  StronglySorted (by_le entry_first_key) (order_nodes ns) ∧
  (∀ n, n ∈ ns → n_section_number n = Some 1 →
        ∃ e rest, order_nodes ns = e :: rest ∧ n_section_number e = Some 1).
Proof.
  split; [apply validate_order_perm|].
  assert (Hsorted : StronglySorted (by_le entry_first_key) (order_nodes ns)).
  { unfold order_nodes.
    destruct (existsb _ _) eqn:Hone.
    - apply (stable_sort_sorted (by_le entry_first_key)).
    - apply (StronglySorted_weaken (on_le number_key));
        [exact (stable_sort_sorted (on_le number_key) ns)|].
      intros a b Ha Hb Hab.
      assert (Hno : ∀ n, n ∈ sorted_on number_key ns →
                         n_section_number n ≠ Some 1).
      { intros n Hn Hsn.
        apply not_true_iff_false in Hone. apply Hone, existsb_exists.
        exists n. split; [by apply list_elem_of_In|].
        by apply bool_decide_eq_true. }
      unfold by_le, entry_first_key, pair_le. cbn [fst snd].
      rewrite !bool_decide_true by (by apply Hno). right. done. }
  split; [done|].
  intros n Hn Hsn. rewrite <- validate_order_perm in Hn.
  destruct (order_nodes ns) as [|e rest]; [by apply elem_of_nil in Hn|].
  exists e, rest. split; [done|].
  apply StronglySorted_inv in Hsorted as [_ Hall].
  apply elem_of_cons in Hn as [->|Hn]; [done|].
  eapply Forall_forall in Hall; [|done].
  unfold by_le, entry_first_key, pair_le in Hall. cbn [fst snd] in Hall.
  rewrite (bool_decide_false (n_section_number n ≠ Some 1)) in Hall
    by (intros Hne; by apply Hne).
  case_bool_decide as He; [lia|done].
Qed.

End AutoFixOrder.

Section AutoFixIds.
Import Validate.

Lemma dedupe_NoDup nodes seen :
  NoDup (n_id <$> dedupe nodes seen) ∧
  ∀ node_id, Some node_id ∈ n_id <$> dedupe nodes seen → node_id ∉ seen.
Proof.
  revert seen. induction nodes as [|n nodes IH]; intros seen; simpl.
  - split; [constructor|]. by intros ? ?%elem_of_nil.
  - destruct (n_id n) as [node_id|] eqn:Hid; [|apply IH].
    case_bool_decide as Hskip; [apply IH|].
    destruct (IH ({[node_id]} ∪ seen)) as [Hnd Hfresh].
    rewrite fmap_cons, Hid. split.
    + constructor; [|done]. intros Hin. apply (Hfresh _ Hin).
      apply elem_of_union. left. by apply elem_of_singleton.
    + intros x [[= ->]|Hx]%elem_of_cons.
      * intros Hin. apply Hskip. by right.
      * intros Hin. apply (Hfresh _ Hx). apply elem_of_union. by right.
Qed.

Lemma keyed_ids_fmap ns keyed :
  Forall2 (λ n k, fix_keys n = Some k) ns keyed →
  n_id <$> (trim_choices <$> keyed) = n_id <$> ns.
Proof.
  induction 1 as [|n k ns keyed Hk _ IH]; [done|].
  apply fix_keys_spec in Hk as (Hid & _). rewrite !fmap_cons, IH.
  cbn [trim_choices n_id]. by rewrite Hid.
Qed.

Lemma make_stubs_ids_fmap missing next_auto :
  n_id <$> make_stubs missing next_auto = Some <$> missing.
Proof.
  revert next_auto. induction missing as [|m rest IH]; intros a; [done|].
  simpl. destruct (_ && _); simpl; by rewrite IH.
Qed.

Lemma make_stubs_convertible missing next_auto :
  Forall (λ n, convertible n = true) (make_stubs missing next_auto).
Proof.
  apply Forall_forall. by intros n (m & s & _ & ->)%make_stubs_spec.
Qed.

Lemma guarantee_win_ids_fmap ns :
  n_id <$> guarantee_win ns = n_id <$> ns
  ∨ (Forall (λ m, convertible m = false) ns ∧
     guarantee_win ns = ns ++ [victory_node]).
Proof.
  unfold guarantee_win. destruct (has_win ns); [by left|].
  destruct (convert_first_cases ns)
    as [[Hnone ->]|(l1 & m & l2 & -> & _ & Hm & ->)]; [by right|].
  left. by rewrite !fmap_app, !fmap_cons.
Qed.

(** X12: when no node of the store has the id [section_999], the ids of
    the nodes that [auto_fix] returns are pairwise distinct. *)
Theorem auto_fix_ids_distinct (nodes out : list node) :
  auto_fix nodes = Some out →
  (∀ n, n ∈ nodes → n_id n ≠ Some "section_999") →
  NoDup (n_id <$> out).
Proof.
  intros (keyed & stubs & Hk & Hstubs & Hp & _)%auto_fix_unfold Hfree.
  rewrite Hp.
  destruct (dedupe_NoDup nodes ∅) as [Hnd _].
  assert (Hbase : NoDup (n_id <$> (trim_choices <$> keyed) ++ stubs)).
  { rewrite fmap_app, (keyed_ids_fmap _ _ Hk). apply NoDup_app.
    split; [done|]. destruct Hstubs as [[-> _]|[next_auto ->]].
    - split; [by intros ? _ ?%elem_of_nil|constructor].
    - rewrite make_stubs_ids_fmap. split.
      + intros x Hx (m & -> & Hm)%list_elem_of_fmap.
        rewrite sorted_strings_perm in Hm. apply elem_of_elements in Hm.
        unfold missing_of in Hm.
        apply elem_of_list_to_set, list_elem_of_In, filter_In in Hm
          as [_ Hm].
        apply negb_true_iff, bool_decide_eq_false in Hm. apply Hm.
        unfold ids_of. apply elem_of_list_to_set, list_elem_of_omap.
        apply list_elem_of_fmap in Hx as (n & Hid & Hn).
        exists n. by split.
      + apply (NoDup_fmap_2 Some). rewrite sorted_strings_perm.
        apply NoDup_elements. }
  destruct (guarantee_win_ids_fmap ((trim_choices <$> keyed) ++ stubs))
    as [->|[Hnone ->]]; [done|].
  rewrite fmap_app. apply NoDup_app. split; [done|].
  split; [|apply NoDup_singleton].
  intros x Hx ->%list_elem_of_singleton. cbn in Hx.
  rewrite fmap_app in Hx. apply elem_of_app in Hx as [Hx|Hx].
  - rewrite (keyed_ids_fmap _ _ Hk) in Hx.
    apply list_elem_of_fmap in Hx as (n & Hid & Hn).
    apply (Hfree n); [|done].
    eapply elem_of_sublist; [exact Hn|apply dedupe_sublist].
  - apply Forall_app in Hnone as [_ Hnone].
    destruct Hstubs as [[-> _]|[next_auto ->]];
      [by apply elem_of_nil in Hx|].
    pose proof (make_stubs_convertible
                  (PySort.sorted_strings
                     (elements (missing_of (ids_of (dedupe nodes ∅)) keyed)))
                  next_auto) as Hconv.
    apply list_elem_of_fmap in Hx as (n & _ & Hn).
    eapply Forall_forall in Hnone; [|exact Hn].
    eapply Forall_forall in Hconv; [|exact Hn]. congruence.
Qed.

Lemma auto_fix_ids_distinct_witness :
  ∃ out, auto_fix dangling_store = Some out ∧ NoDup (n_id <$> out).
Proof.
  eexists. split; [vm_compute; reflexivity|].
  apply (auto_fix_ids_distinct dangling_store); [vm_compute; reflexivity|].
  intros n Hn. apply (bool_decide_unpack _).
  revert n Hn. apply Forall_forall. apply (bool_decide_unpack _).
  by vm_compute.
Defined.
End AutoFixIds.

Section Normalized.
Import Json Story.

Lemma or_else_nonempty s d : d ≠ EmptyString → or_else s d ≠ EmptyString.
Proof. by destruct s. Qed.

Lemma mapping_or_empty_dict v : is_dict (mapping_or_empty v) = true.
Proof. by destruct v as [[]|]. Qed.

Lemma normalize_choices_spec raws seen :
  (length (normalize_choices raws seen) ≤ length raws)%nat ∧
  Forall normalized_choice (normalize_choices raws seen) ∧
  NoDup (dedupe_key <$> normalize_choices raws seen) ∧
  ∀ c, c ∈ normalize_choices raws seen → dedupe_key c ∉ seen.
Proof.
  revert seen. induction raws as [|raw raws IH]; intros seen.
  - simpl. split; [done|]. split; [constructor|]. split; [constructor|].
    by intros c ?%elem_of_nil.
  - cbn [normalize_choices length].
    destruct (IH seen) as (Hlen & Hall & Hnd & Hfresh).
    assert (Hskip : (length (normalize_choices raws seen)
                     ≤ S (length raws))%nat ∧
                    Forall normalized_choice (normalize_choices raws seen) ∧
                    NoDup (dedupe_key <$> normalize_choices raws seen) ∧
                    ∀ c, c ∈ normalize_choices raws seen →
                         dedupe_key c ∉ seen)
      by (split; [lia|done]).
    destruct (negb (is_dict raw)); [done|].
    destruct (Py.strip (get_str raw "next" EmptyString))
      as [|a next_id] eqn:Hnext; [done|].
    case_bool_decide as Hseen; [done|].
    set (c := Choice _ _ _ _).
    destruct (IH ({[dedupe_key c]} ∪ seen)) as (Hlen' & Hall' & Hnd' & Hfresh').
    fold (dedupe_key c) in Hseen |- *.
    change (norm_text (or_else (Py.strip (get_str raw "text" "Continue"))
                         "Continue"), String a next_id)
      with (dedupe_key c) in *.
    split; [simpl; lia|]. split; [|split].
    + constructor; [|done]. unfold normalized_choice. subst c. cbn.
      split; [by apply or_else_nonempty|]. split; [done|].
      split; apply mapping_or_empty_dict.
    + rewrite fmap_cons. constructor; [|done].
      intros (c' & Heq & Hc')%list_elem_of_fmap.
      apply (Hfresh' c' Hc'), elem_of_union. left.
      by apply elem_of_singleton.
    + intros c' [->|Hc']%elem_of_cons; [done|].
      intros Hin. apply (Hfresh' c' Hc'), elem_of_union. by right.
Qed.

Lemma node_choices_spec raw :
  (length (node_choices raw) ≤ 4)%nat ∧
  Forall normalized_choice (node_choices raw) ∧
  NoDup (dedupe_key <$> node_choices raw).
Proof.
  unfold node_choices.
  destruct (get raw "choices") as [[| | | |raws|]|];
    try (split; [simpl; lia|split; constructor]).
  destruct (normalize_choices_spec (take 4 raws) ∅) as (Hlen & Hall & Hnd & _).
  rewrite length_take in Hlen. split; [lia|done].
Qed.

(** Where the nodes of a loaded engine come from. *)
Lemma load_shape (data : option json) :
  ∃ ns, ns ≠ [] ∧
        Forall (λ n, n ∈ _default_story ∨ ∃ raw, n = _normalize_node raw) ns ∧
        nodes (load data)
          = PySort.sorted_tagged (λ n, (n_section_number n, n_id n)) ns ∧
        node_by_id (load data) = foldl (λ m n, <[n_id n := n]> m) ∅ ns.
Proof.
  unfold load.
  assert (Hd : Forall (λ n, n ∈ _default_story
                            ∨ ∃ raw, n = _normalize_node raw) _default_story).
  { apply Forall_forall. by left. }
  destruct data as [[| | | |[|item items]|]|];
    try (exists _default_story; by split).
  set (kept := List.filter _ (_normalize_node <$> _)).
  assert (Hk : Forall (λ n, n ∈ _default_story
                            ∨ ∃ raw, n = _normalize_node raw) kept).
  { apply Forall_forall. intros n Hn.
    apply list_elem_of_In, filter_In in Hn as [Hn _].
    apply list_elem_of_In, list_elem_of_fmap in Hn as (raw & -> & _).
    right. by exists raw. }
  destruct kept as [|k kept']; [exists _default_story; by split|].
  exists (k :: kept'). done.
Qed.

(** X13: whatever the raw value, the node that [_normalize_node] builds
    has a non-empty id and title, a section number that is not negative,
    one of the four node types, at most ten rows of art, a mapping of
    effects, and at most four choices, each with a non-empty label and
    target and mappings for [requires] and [effects], no two of them with
    the same normalized label and target; and so has every node of an
    engine after [load], whatever the story file holds. *)
Theorem _normalize_node_normalized (raw : json) (data : option json) :
  normalized (_normalize_node raw) ∧
  Forall normalized (nodes (load data)).
Proof.
  assert (Hnode : ∀ raw, normalized (_normalize_node raw)).
  { clear raw. intros raw.
    destruct (node_choices_spec raw) as (Hlen & Hall & Hnd).
    unfold normalized, _normalize_node.
    cbn [n_id n_section_number n_title n_node_type n_ascii_art n_effects
         n_choices].
    split; [|split; [|split; [|split; [|split; [|split]]]]]; try done.
    - destruct (Py.strip (get_str raw "id" EmptyString)); [|done].
      by case_bool_decide.
    - case_bool_decide; lia.
    - by apply or_else_nonempty.
    - set (inner := if bool_decide (_ ∈ VALID_NODE_TYPES) then _ else _).
      assert (Hinner : inner ∈ VALID_NODE_TYPES).
      { subst inner. case_bool_decide; [done|].
        destruct (node_choices raw); unfold VALID_NODE_TYPES;
          rewrite !elem_of_cons; auto. }
      destruct (_ && _); [|done]. unfold VALID_NODE_TYPES.
      rewrite !elem_of_cons. auto.
    - rewrite length_fmap, length_take. lia.
    - apply mapping_or_empty_dict. }
  split; [apply Hnode|].
  destruct (load_shape data) as (ns & _ & Hns & -> & _).
  rewrite sorted_tagged_perm.
  eapply Forall_impl; [exact Hns|]. intros n [Hn|[raw' ->]]; [|apply Hnode].
  apply list_elem_of_singleton in Hn as ->. repeat constructor; done.
Qed.

End Normalized.

Section EngineIndex.
Import PySort Json Story.

#[local] Instance tagged_le_total : Total tagged_le.
Proof.
  intros [a s] [b t]. unfold tagged_le. cbn [fst snd].
  destruct (Z.lt_total a b) as [?|[->|?]]; [by left; left| |by right; left].
  destruct (total String.le s t); [left|right]; by right.
Qed.
#[local] Instance tagged_le_trans : Transitive tagged_le.
Proof.
  intros [a s] [b t] [c u]. unfold tagged_le. cbn [fst snd].
  intros [?|[-> Hst]] [?|[-> Htu]]; try (left; lia).
  right. split; [done|]. by etrans.
Qed.
#[local] Instance by_tagged_le_total {A} (key : A → Z * string) :
  Total (by_tagged_le key).
Proof. intros a b. apply tagged_le_total. Qed.
#[local] Instance by_tagged_le_trans {A} (key : A → Z * string) :
  Transitive (by_tagged_le key).
Proof. intros a b c. apply tagged_le_trans. Qed.

Lemma index_lookup_id (ns : list node) (m : gmap string node) id n :
  (∀ k v, m !! k = Some v → n_id v = k) →
  foldl (λ m n, <[n_id n := n]> m) m ns !! id = Some n → n_id n = id.
Proof.
  revert m. induction ns as [|x ns IH]; intros m Hm; simpl; [apply Hm|].
  apply IH. intros k v.
  destruct (decide (n_id x = k)) as [<-|Hne].
  - rewrite lookup_insert_eq. by intros [= <-].
  - rewrite lookup_insert_ne by done. apply Hm.
Qed.

Lemma index_lookup_is_Some (ns : list node) (m : gmap string node) id :
  is_Some (foldl (λ m n, <[n_id n := n]> m) m ns !! id)
  ↔ (∃ n, n ∈ ns ∧ n_id n = id) ∨ is_Some (m !! id).
Proof.
  revert m. induction ns as [|x ns IH]; intros m; simpl.
  - split; [by right|]. intros [(n & Hn & _)|Hm]; [|done].
    by apply elem_of_nil in Hn.
  - rewrite IH. split.
    + intros [(n & Hn & Hid)|Hm].
      * left. exists n. split; [by right|done].
      * destruct (decide (n_id x = id)) as [<-|Hne].
        -- left. exists x. split; [by left|done].
        -- rewrite lookup_insert_ne in Hm by done. by right.
    + intros [(n & [->|Hn]%elem_of_cons & Hid)|Hm].
      * right. rewrite <- Hid, lookup_insert_eq. eauto.
      * left. eauto.
      * right. destruct (decide (n_id x = id)) as [<-|Hne].
        -- rewrite lookup_insert_eq. eauto.
        -- by rewrite lookup_insert_ne.
Qed.

(** X14: once [load] has completed, on a story file that decodes to
    JSON whose numbers are integers or with no file or no JSON to read,
    the engine has at least one node; its nodes are sorted by section
    number and id;
    [node_exists] holds exactly of the ids of its nodes; [get_node]
    returns a node of the list that has the id asked for; and the entry
    node is a node of the list whose id exists. *)
Theorem load_index (data : option json) :
  let e := load data in
  nodes e ≠ [] ∧
  StronglySorted (by_tagged_le (λ n, (n_section_number n, n_id n)))
    (nodes e) ∧
  (∀ node_id, node_exists e node_id = true
              ↔ ∃ n, n ∈ nodes e ∧ n_id n = node_id) ∧
  (∀ node_id n, get_node e node_id = Some n →
                n ∈ nodes e ∧ n_id n = node_id) ∧
  get_entry_node e ∈ nodes e ∧
  node_exists e (n_id (get_entry_node e)) = true.
Proof.
  intros e.
  destruct (load_shape data) as (ns & Hne & _ & Hnodes & Hmap).
  fold e in Hnodes, Hmap.
  pose proof (sorted_tagged_perm (λ n, (n_section_number n, n_id n)) ns)
    as Hperm.
  rewrite <- Hnodes in Hperm.
  assert (Hexists : ∀ node_id, node_exists e node_id = true
                     ↔ ∃ n, n ∈ nodes e ∧ n_id n = node_id).
  { intros node_id. unfold node_exists.
    rewrite bool_decide_eq_true, Hmap, index_lookup_is_Some.
    setoid_rewrite Hperm. split; [|by left].
    intros [?|[? Hempty]]; [done|]. by rewrite lookup_empty in Hempty. }
  assert (Hget : ∀ node_id n, get_node e node_id = Some n →
                              n ∈ nodes e ∧ n_id n = node_id).
  { intros node_id n. unfold get_node. rewrite Hmap. intros Hn. split.
    - apply index_lookup_elem in Hn as [Hn|Hn]; [by rewrite Hperm|].
      by rewrite lookup_empty in Hn.
    - eapply index_lookup_id; [|exact Hn]. intros k v.
      by rewrite lookup_empty. }
  assert (Hentry : get_entry_node e ∈ nodes e).
  { unfold get_entry_node.
    destruct (node_by_id e !! "section_1") as [n|] eqn:Hone.
    - by apply (Hget "section_1").
    - destruct (nodes e) as [|n rest] eqn:Hn; [|by left].
      apply Permutation_nil_l in Hperm. congruence. }
  split.
  { intros Hnil. rewrite Hnil in Hperm.
    by apply Permutation_nil_l in Hperm. }
  split; [rewrite Hnodes; apply (stable_sort_sorted (by_tagged_le _))|].
  split; [done|]. split; [done|]. split; [done|].
  apply Hexists. eauto.
Qed.

End EngineIndex.

Section Availability.
Import Json Story.

(** X15: when [resolve_choice_next_id] returns an id, the index is within
    the list of choices offered, the id is the stripped target of the
    choice at that index, which is available unless locked choices were
    asked for, the id exists in the engine, and [resolve_choice_node]
    returns the node that [get_node] has for it; when it returns nothing,
    so does [resolve_choice_node]. *)
Theorem resolve_choice_reaches_a_node (e : engine) (node_or_id : node_ref)
    (choice_index : Z) (player_or_stats : stats_source)
    (include_locked : bool) :
  match resolve_choice_next_id e node_or_id choice_index player_or_stats
          include_locked with
  | Some next_id =>
      (∃ c, get_available_choices e node_or_id player_or_stats
              include_locked !! Z.to_nat choice_index = Some c ∧
            0 ≤ choice_index ∧
            next_id = Py.strip (c_next c) ∧
            (include_locked = false →
             choice_available c player_or_stats = true)) ∧
      node_exists e next_id = true ∧
      ∃ n, get_node e next_id = Some n ∧
           resolve_choice_node e node_or_id choice_index player_or_stats
             include_locked = Some n
  | None =>
      resolve_choice_node e node_or_id choice_index player_or_stats
        include_locked = None
  end.
Proof.
  unfold resolve_choice_node.
  destruct (resolve_choice_next_id _ _ _ _ _) as [next_id|] eqn:Hres;
    [|done].
  unfold resolve_choice_next_id in Hres.
  case_bool_decide as Hrange; [done|].
  destruct (_ !! Z.to_nat choice_index) as [c|] eqn:Hc; [|done].
  destruct (Py.strip (c_next c)) as [|a rest] eqn:Hnext; [done|].
  destruct (node_exists e (String a rest)) eqn:Hex; [|done].
  injection Hres as <-. split; [|split; [done|]].
  - exists c. split; [done|]. split; [lia|]. split; [done|].
    intros ->. apply list_elem_of_lookup_2 in Hc.
    unfold get_available_choices in Hc.
    destruct (resolve_node e node_or_id); [|by apply elem_of_nil in Hc].
    by apply list_elem_of_In, filter_In in Hc as [_ Hc].
  - unfold node_exists in Hex. apply bool_decide_eq_true in Hex as [n Hn].
    exists n. by split.
Qed.

Lemma extract_stats_fold stats entries key :
  lookup key
    (foldl (λ stats '(key, value),
              match lookup key stats with
              | None => stats ++ [(key, value)]
              | Some _ => stats
              end) stats entries)
  = match lookup key stats with
    | Some v => Some v
    | None => lookup key entries
    end.
Proof.
  revert stats. induction entries as [|[k v] entries IH]; intros stats.
  - simpl. by destruct (lookup key stats).
  - cbn [foldl]. rewrite IH. cbn [lookup].
    assert (Happ : ∀ l, lookup key (l ++ [(k, v)])
                        = match lookup key l with
                          | Some w => Some w
                          | None => if String.eqb k key then Some v else None
                          end).
    { induction l as [|[k' v'] l IHl]; simpl; [done|].
      by destruct (String.eqb k' key). }
    destruct (lookup k stats) as [w|] eqn:Hk.
    + destruct (lookup key stats) as [w'|] eqn:Hkey; [done|].
      destruct (String.eqb k key) eqn:Heq; [|done].
      apply String.eqb_eq in Heq. congruence.
    + rewrite Happ. destruct (lookup key stats); [done|].
      by destruct (String.eqb k key).
Qed.

Lemma stat_keys_lookup (f : string → Z) (key : string) :
  lookup key ((λ k, (k, JInt (f k))) <$> STAT_KEYS)
  = if bool_decide (key ∈ STAT_KEYS) then Some (JInt (f key)) else None.
Proof.
  unfold STAT_KEYS. cbn [fmap list_fmap lookup].
  destruct (String.eqb "health" key) eqn:H1;
    [apply String.eqb_eq in H1 as <-; done|].
  destruct (String.eqb "food" key) eqn:H2;
    [apply String.eqb_eq in H2 as <-; done|].
  destruct (String.eqb "gold" key) eqn:H3;
    [apply String.eqb_eq in H3 as <-; done|].
  destruct (String.eqb "morale" key) eqn:H4;
    [apply String.eqb_eq in H4 as <-; done|].
  rewrite bool_decide_false; [done|].
  apply String.eqb_neq in H1, H2, H3, H4.
  rewrite !elem_of_cons, elem_of_nil.
  intros [?|[?|[?|[?|[]]]]]; congruence.
Qed.

Lemma extract_stats_stat (player_or_stats : stats_source) (key : string) :
  key ∈ STAT_KEYS →
  lookup key (_extract_stats player_or_stats)
  = Some (JInt (stat_value player_or_stats key)).
Proof.
  intros Hkey. unfold _extract_stats.
  destruct player_or_stats as [|entries|attrs];
    rewrite ?extract_stats_fold, stat_keys_lookup, bool_decide_true by done;
    done.
Qed.

Lemma extract_stats_other (player_or_stats : stats_source) (key : string) :
  key ∉ STAT_KEYS →
  lookup key (_extract_stats player_or_stats)
  = match player_or_stats with
    | StatsMapping entries => lookup key entries
    | _ => None
    end.
Proof.
  intros Hkey. unfold _extract_stats.
  destruct player_or_stats as [|entries|attrs];
    rewrite ?extract_stats_fold, stat_keys_lookup, bool_decide_false by done;
    done.
Qed.

(** X16: in the dictionary that [_extract_stats] builds, each of the four
    stats is an integer, read with [_as_int] from the mapping or the
    object and 0 without either; any other key is there exactly when the
    argument is a mapping that has it, with the value it has there. *)
Theorem _extract_stats_lookup (player_or_stats : stats_source)
    (key : string) :
  lookup key (_extract_stats player_or_stats)
  = if bool_decide (key ∈ STAT_KEYS)
    then Some (JInt (stat_value player_or_stats key))
    else match player_or_stats with
         | StatsMapping entries => lookup key entries
         | _ => None
         end.
Proof.
  case_bool_decide as Hkey.
  - by apply extract_stats_stat.
  - by apply extract_stats_other.
Qed.


End Availability.

Section FixNoop.
Import PySort BuildStory.

Lemma index_sections_other i secs m n :
  n ∉ s_section_number <$> secs → index_sections i secs m !! n = m !! n.
Proof.
  revert i m. induction secs as [|s secs IH]; intros i m Hn; [done|].
  simpl. rewrite fmap_cons in Hn. apply not_elem_of_cons in Hn as [Hne Hn].
  rewrite IH by done. by rewrite lookup_insert_ne.
Qed.

Lemma index_sections_at i secs m j s :
  NoDup (s_section_number <$> secs) → secs !! j = Some s →
  index_sections i secs m !! s_section_number s = Some (InputSection (i + j)).
Proof.
  revert i m j. induction secs as [|x secs IH]; intros i m j Hnd Hj; [done|].
  rewrite fmap_cons in Hnd. apply NoDup_cons in Hnd as [Hx Hnd].
  destruct j as [|j]; simpl in *.
  - injection Hj as ->. rewrite index_sections_other by done.
    by rewrite lookup_insert_eq, Nat.add_0_r.
  - rewrite (IH (S i) _ j) by done. do 2 f_equal. lia.
Qed.

Lemma index_sections_dom i secs m :
  dom (index_sections i secs m)
  = list_to_set (s_section_number <$> secs) ∪ dom m.
Proof.
  revert i m. induction secs as [|s secs IH]; intros i m; simpl.
  - by rewrite (left_id_L ∅ (∪)).
  - rewrite IH, dom_insert_L.
    rewrite (assoc_L (∪)). f_equal. apply (comm_L (∪)).
Qed.

Lemma fix_choices_noop source cs st :
  resolved_in (existing st) cs → fix_choices source cs st = (cs, st).
Proof.
  induction 1 as [|c cs Hc _ IH]; [done|].
  simpl. unfold fix_choice. rewrite bool_decide_true by done.
  by rewrite IH.
Qed.

Lemma fix_sections_noop secs st :
  Forall (λ s, resolved_in (existing st) (s_choices s)) secs →
  fix_sections secs st = (secs, st).
Proof.
  induction 1 as [|s secs Hs _ IH]; [done|].
  simpl. rewrite fix_choices_noop by done. rewrite IH. by destruct s.
Qed.

#[local] Instance on_le_id_antisymm : AntiSymm (=) (on_le (λ n : Z, n)).
Proof. intros a b. unfold on_le. lia. Qed.
#[local] Instance on_le_id_total : Total (on_le (λ n : Z, n)).
Proof. intros a b. unfold on_le. lia. Qed.
#[local] Instance on_le_id_trans : Transitive (on_le (λ n : Z, n)).
Proof. intros a b c. unfold on_le. lia. Qed.

Lemma sorted_keys (nums : list Z) :
  StronglySorted Z.lt nums →
  sorted_on (λ n, n) (elements (list_to_set nums : gset Z)) = nums.
Proof.
  intros Hs.
  assert (NoDup nums) as Hnd.
  { induction Hs as [|n nums _ IH Hall]; constructor; [|done].
    intros Hn. eapply Forall_forall in Hall; [|done]. lia. }
  apply (StronglySorted_unique (on_le (λ n : Z, n))).
  - apply (stable_sort_sorted (on_le (λ n : Z, n))).
  - eapply StronglySorted_weaken; [exact Hs|].
    intros a b _ _. unfold on_le. lia.
  - unfold sorted_on. rewrite stable_sort_perm.
    by apply elements_list_to_set.
Qed.

Lemma omap_fmap_section {A B} (f : B → option A) (g : A → B) (l : list A) :
  (∀ x, x ∈ l → f (g x) = Some x) → omap f (g <$> l) = l.
Proof.
  induction l as [|x l IH]; intros Hf; [done|].
  rewrite fmap_cons.
  change (omap f (g x :: (g <$> l)))
    with (from_option (λ y, y :: omap f (g <$> l)) (omap f (g <$> l))
            (f (g x))).
  rewrite Hf by (by left). cbn. f_equal. apply IH.
  intros y Hy. apply Hf. by right.
Qed.

Lemma fix_broken_links_noop sections :
  ascending sections → sound sections →
  fix_broken_links sections = (sections, []).
Proof.
  intros Hasc Hsound. unfold fix_broken_links.
  assert (NoDup (s_section_number <$> sections)) as Hnd.
  { unfold ascending in Hasc.
    induction Hasc as [|n nums _ IH Hall]; constructor; [|done].
    intros Hn. eapply Forall_forall in Hall; [|done]. lia. }
  set (by_num0 := index_sections 0 sections ∅).
  assert (dom by_num0 = list_to_set (s_section_number <$> sections))
    as Hdom.
  { subst by_num0. rewrite index_sections_dom, dom_empty_L.
    by rewrite (right_id_L ∅ (∪)). }
  rewrite fix_sections_noop.
  - cbn [by_num report]. f_equal.
    rewrite Hdom, sorted_keys by done.
    apply omap_fmap_section. intros s Hs.
    apply list_elem_of_lookup in Hs as [j Hj].
    subst by_num0. rewrite (index_sections_at 0 sections ∅ j s) by done.
    done.
  - apply Forall_forall. intros s Hs. apply Forall_forall. intros c Hc.
    cbn [existing]. rewrite Hdom. apply elem_of_list_to_set.
    destruct (Hsound s c Hs Hc) as (s' & Hs' & <-).
    apply list_elem_of_fmap. eauto.
Qed.

End FixNoop.

Section FixOutput.
Import PySort BuildStory.

Lemma fmap_omap_keys {A B} (f : B → option A) (g : A → B) (l : list B) :
  (∀ n, n ∈ l → ∃ x, f n = Some x ∧ g x = n) → g <$> omap f l = l.
Proof.
  induction l as [|n l IH]; intros Hf; [done|].
  destruct (Hf n) as (x & Hx & Hg); [by left|].
  change (omap f (n :: l))
    with (from_option (λ y, y :: omap f l) (omap f l) (f n)).
  rewrite Hx. cbn. rewrite Hg. f_equal. apply IH.
  intros m Hm. apply Hf. by right.
Qed.

Lemma consistent_index sections :
  consistent (FixState (dom (index_sections 0 sections ∅))
                (index_sections 0 sections ∅) []).
Proof. done. Qed.

(** The numbers of the sections that [fix_broken_links] returns are the
    keys of the final [by_num], in ascending order. *)
Lemma fix_broken_links_numbers sections :
  ∃ sections' st,
    fix_sections sections
      (FixState (dom (index_sections 0 sections ∅))
         (index_sections 0 sections ∅) []) = (sections', st) ∧
    s_section_number <$> (fix_broken_links sections).1
    = sorted_on (λ n, n) (elements (dom (by_num st))).
Proof.
  destruct (fix_broken_links_full sections) as (secs' & st & Hfix & ->).
  exists secs', st. split; [done|]. cbn [fst].
  apply fix_sections_grows in Hfix as (_ & Hg & Hall);
    [|apply consistent_index].
  apply fmap_omap_keys. intros n Hn.
  unfold sorted_on in Hn. rewrite stable_sort_perm in Hn.
  apply elem_of_elements, elem_of_dom in Hn as [r Hr]. rewrite Hr. cbn.
  destruct (grows_stubs _ _ Hg n r Hr) as [H0| ->]; [|by eexists].
  cbn [by_num] in H0.
  apply index_sections_lookup in H0 as [H0|(j & s0 & -> & Hj & Hnum)];
    [by rewrite lookup_empty in H0|].
  destruct (Forall2_lookup_l _ _ _ _ _ Hall Hj) as (s1 & Hs1 & Hnum1 & _).
  exists s1. cbn. split; [done|]. congruence.
Qed.

Lemma sorted_keys_ascending (X : gset Z) :
  StronglySorted Z.lt (sorted_on (λ n, n) (elements X)).
Proof.
  assert (NoDup (sorted_on (λ n : Z, n) (elements X))) as Hnd.
  { unfold sorted_on. rewrite stable_sort_perm. apply NoDup_elements. }
  pose proof (stable_sort_sorted (on_le (λ n : Z, n)) (elements X)) as Hs.
  fold (sorted_on (λ n : Z, n) (elements X)) in Hs.
  induction Hs as [|n l _ IH Hall]; [constructor|].
  apply NoDup_cons in Hnd as [Hn Hnd]. constructor; [by apply IH|].
  apply Forall_forall. intros m Hm.
  eapply Forall_forall in Hall; [|done]. unfold on_le in Hall.
  assert (n ≠ m) by (by intros ->). lia.
Qed.

Lemma fix_broken_links_sorted sections :
  ascending (fix_broken_links sections).1.
Proof.
  destruct (fix_broken_links_numbers sections) as (secs' & st & _ & Hnum).
  unfold ascending. rewrite Hnum. apply sorted_keys_ascending.
Qed.

Lemma fix_broken_links_sound sections : sound (fix_broken_links sections).1.
Proof. intros s c. apply fix_broken_links_closed. Qed.

(** X18: running [fix_broken_links] on the sections it has returned
    returns them unchanged, with an empty report. *)
Theorem fix_broken_links_idempotent (sections : list section) :
  fix_broken_links (fix_broken_links sections).1
  = ((fix_broken_links sections).1, []).
Proof.
  apply fix_broken_links_noop.
  - apply fix_broken_links_sorted.
  - apply fix_broken_links_sound.
Qed.

Lemma fix_choices_labels source cs st :
  Forall2 (λ c c', c_text c' = c_text c) cs (fix_choices source cs st).1.
Proof.
  revert st. induction cs as [|c cs IH]; intros st; [constructor|].
  simpl. destruct (fix_choice source c st) as [c' st1] eqn:Hc.
  specialize (IH st1). destruct (fix_choices source cs st1) as [cs' st2].
  constructor; [|done].
  unfold fix_choice in Hc. case_bool_decide; [by injection Hc as <- _|].
  destruct (sorted_by _ _); by injection Hc as <- _.
Qed.

Lemma fix_sections_fields secs st :
  Forall2 (λ s s',
             s_section_number s' = s_section_number s ∧
             s_text s' = s_text s ∧ s_node_type s' = s_node_type s ∧
             Forall2 (λ c c', c_text c' = c_text c)
               (s_choices s) (s_choices s'))
    secs (fix_sections secs st).1.
Proof.
  revert st. induction secs as [|s secs IH]; intros st; [constructor|].
  simpl. pose proof (fix_choices_labels (s_section_number s) (s_choices s) st)
    as Hlab.
  destruct (fix_choices _ (s_choices s) st) as [cs' st1].
  specialize (IH st1). destruct (fix_sections secs st1) as [secs' st2].
  by constructor.
Qed.

(** X19: the sections that [fix_broken_links] returns stand in strictly
    increasing order of section number; the number of every section it is
    given is among them; and each of them is either a section it was
    given, with its number, text and node type and with choices that keep
    their labels, or the stub of its number. *)
Theorem fix_broken_links_keeps_sections (sections : list section) :
  ascending (fix_broken_links sections).1 ∧
  (∀ s, s ∈ sections →
        s_section_number s
        ∈ s_section_number <$> (fix_broken_links sections).1) ∧
  (∀ s', s' ∈ (fix_broken_links sections).1 →
         (∃ s, s ∈ sections ∧ s_section_number s' = s_section_number s ∧
               s_text s' = s_text s ∧ s_node_type s' = s_node_type s ∧
               Forall2 (λ c c', c_text c' = c_text c)
                 (s_choices s) (s_choices s'))
         ∨ s' = stub_section (s_section_number s')).
Proof.
  split; [apply fix_broken_links_sorted|].
  destruct (fix_broken_links_numbers sections) as (secs' & st & Hfix & Hnum).
  pose proof (fix_sections_fields sections
                (FixState (dom (index_sections 0 sections ∅))
                   (index_sections 0 sections ∅) [])) as Hfields.
  rewrite Hfix in Hfields. cbn [fst] in Hfields.
  pose proof Hfix as Hgrows.
  apply fix_sections_grows in Hgrows as (_ & Hg & _);
    [|apply consistent_index].
  split.
  - intros s Hs. rewrite Hnum.
    unfold sorted_on. rewrite stable_sort_perm.
    apply elem_of_elements, elem_of_dom.
    apply list_elem_of_lookup in Hs as [j Hj].
    assert (is_Some (index_sections 0 sections ∅ !! s_section_number s))
      as [r Hr].
    { apply elem_of_dom. rewrite index_sections_dom.
      apply elem_of_union. left. apply elem_of_list_to_set.
      apply list_elem_of_fmap. exists s. split; [done|].
      by eapply list_elem_of_lookup_2. }
    exists r. by apply (grows_keeps _ _ Hg).
  - intros s' Hs'.
    destruct (fix_broken_links_full sections) as (secs2 & st2 & Hfix2 & Heq).
    rewrite Hfix in Hfix2. injection Hfix2 as <- <-.
    rewrite Heq in Hs'. cbn [fst] in Hs'.
    apply list_elem_of_omap in Hs' as (n & _ & Hn).
    destruct (by_num st !! n) as [r|] eqn:Hr; [|done]. cbn in Hn.
    destruct (grows_stubs _ _ Hg n r Hr) as [H0| ->].
    + cbn [by_num] in H0.
      apply index_sections_lookup in H0 as [H0|(j & s0 & -> & Hj & Hnum0)];
        [by rewrite lookup_empty in H0|].
      cbn in Hn.
      destruct (Forall2_lookup_l _ _ _ _ _ Hfields Hj) as (s1 & Hs1 & Hf).
      assert (s1 = s') as -> by congruence.
      left. exists s0. split; [by eapply list_elem_of_lookup_2|done].
    + injection Hn as <-. by right.
Qed.

End FixOutput.

Section FixReport.
Import BuildStory.

Lemma fix_choice_report source c st :
  (c_destination c ∈ existing st ∧ fix_choice source c st = (c, st)) ∨
  ((c_destination c ∉ existing st) ∧
   length (report (fix_choice source c st).2) = S (length (report st))).
Proof.
  unfold fix_choice. case_bool_decide as Hin; [by left|right].
  split; [done|].
  destruct (PySort.sorted_by _ _); cbn; rewrite length_app; cbn; lia.
Qed.

Lemma fix_choices_report source cs st :
  (length (report st) ≤ length (report (fix_choices source cs st).2))%nat ∧
  (length (report (fix_choices source cs st).2) = length (report st) →
   resolved_in (existing st) cs).
Proof.
  revert st. induction cs as [|c cs IH]; intros st.
  - simpl. split; [done|]. constructor.
  - simpl. destruct (fix_choice_report source c st) as [[Hin ->]|[Hout Hlen]].
    + destruct (IH st) as [Hle Hres].
      destruct (fix_choices source cs st) as [cs' st2]. cbn in *.
      split; [done|]. intros Heq. constructor; [done|]. by apply Hres.
    + destruct (fix_choice source c st) as [c' st1]. cbn in Hlen.
      destruct (IH st1) as [Hle _].
      destruct (fix_choices source cs st1) as [cs' st2]. cbn in *.
      split; lia.
Qed.

Lemma fix_sections_report secs st :
  (length (report st) ≤ length (report (fix_sections secs st).2))%nat ∧
  (length (report (fix_sections secs st).2) = length (report st) →
   Forall (λ s, resolved_in (existing st) (s_choices s)) secs).
Proof.
  revert st. induction secs as [|s secs IH]; intros st.
  - simpl. split; [done|]. constructor.
  - simpl.
    destruct (fix_choices_report (s_section_number s) (s_choices s) st)
      as [Hle Hres].
    destruct (fix_choices _ (s_choices s) st) as [cs' st1] eqn:Hcs.
    cbn in Hle, Hres.
    destruct (IH st1) as [Hle' Hres'].
    destruct (fix_sections secs st1) as [secs' st2]. cbn in *.
    split; [lia|]. intros Heq.
    assert (length (report st1) = length (report st)) as Heq1 by lia.
    specialize (Hres Heq1).
    rewrite (fix_choices_noop _ _ _ Hres) in Hcs. injection Hcs as <- <-.
    constructor; [done|]. apply Hres'. lia.
Qed.

(** X20: the report of [fix_broken_links] is empty exactly when every
    choice of the sections it is given leads to one of them; [main] then
    writes the line [No broken links found.] *)
Theorem fix_broken_links_report_empty (sections : list section) :
  ((fix_broken_links sections).2 = [] ↔ sound sections) ∧
  (sound sections → (main sections).2 = ["No broken links found."]).
Proof.
  assert (Hdom : dom (index_sections 0 sections ∅)
                 = list_to_set (s_section_number <$> sections)).
  { rewrite index_sections_dom, dom_empty_L.
    by rewrite (right_id_L ∅ (∪)). }
  assert (Hiff : (fix_broken_links sections).2 = [] ↔ sound sections).
  { destruct (fix_broken_links_full sections) as (secs' & st & Hfix & ->).
    cbn [snd]. split.
    - intros Hnil.
      destruct (fix_sections_report sections
                  (FixState (dom (index_sections 0 sections ∅))
                     (index_sections 0 sections ∅) [])) as [_ Hres].
      rewrite Hfix in Hres. cbn in Hres. rewrite Hnil in Hres.
      specialize (Hres eq_refl).
      intros s c Hs Hc.
      eapply Forall_forall in Hres; [|exact Hs].
      eapply Forall_forall in Hres; [|exact Hc].
      rewrite Hdom in Hres.
      apply elem_of_list_to_set, list_elem_of_fmap in Hres
        as (s' & Heq & Hs').
      by exists s'.
    - intros Hsound. rewrite fix_sections_noop in Hfix.
      + by injection Hfix as _ <-.
      + apply Forall_forall. intros s Hs. apply Forall_forall. intros c Hc.
        cbn [existing]. rewrite Hdom. apply elem_of_list_to_set.
        destruct (Hsound s c Hs Hc) as (s' & Hs' & <-).
        apply list_elem_of_fmap. eauto. }
  split; [done|]. intros Hsound%Hiff. unfold main.
  destruct (fix_broken_links sections) as [fixed lines].
  cbn in Hsound. by rewrite Hsound.
Qed.

End FixReport.

Section TwoPassSort.
Import PySort.
Context {A : Type} (num : A → Z).
#[local] Existing Instance by_le_total.
#[local] Existing Instance by_le_trans.

#[local] Instance on_le_total' (key : A → Z) : Total (on_le key).
Proof. intros a b. unfold on_le. lia. Qed.
#[local] Instance on_le_trans' (key : A → Z) : Transitive (on_le key).
Proof. intros a b c. unfold on_le. lia. Qed.

(** The two sorts at the end of the builders: by number, then, when some
    element has number 1, by the pair (number is not 1, number). *)
Lemma two_pass_sorted (l : list A) :
  StronglySorted
    (by_le (λ n, (if bool_decide (num n ≠ 1) then 1 else 0, num n)))
    (if existsb (λ n, bool_decide (num n = 1)) (sorted_on num l)
     then sorted_by (λ n, (if bool_decide (num n ≠ 1) then 1 else 0, num n))
            (sorted_on num l)
     else sorted_on num l).
Proof.
  destruct (existsb _ _) eqn:Hone.
  - apply (stable_sort_sorted (by_le _)).
  - apply (StronglySorted_weaken (on_le num));
      [exact (stable_sort_sorted (on_le num) l)|].
    intros a b Ha Hb Hab.
    assert (Hno : ∀ n, n ∈ sorted_on num l → num n ≠ 1).
    { intros n Hn Hsn.
      apply not_true_iff_false in Hone. apply Hone, existsb_exists.
      exists n. split; [by apply list_elem_of_In|].
      by apply bool_decide_eq_true. }
    unfold by_le, pair_le. cbn [fst snd].
    rewrite !bool_decide_true by (by apply Hno). right. done.
Qed.

Lemma two_pass_perm (l : list A) :
  (if existsb (λ n, bool_decide (num n = 1)) (sorted_on num l)
   then sorted_by (λ n, (if bool_decide (num n ≠ 1) then 1 else 0, num n))
          (sorted_on num l)
   else sorted_on num l) ≡ₚ l.
Proof.
  destruct (existsb _ _).
  - by rewrite sorted_by_perm, sorted_on_perm.
  - by rewrite sorted_on_perm.
Qed.

(** In a list ordered that way, an element of number 1 comes first. *)
Lemma entry_first_head (l : list A) (x : A) :
  StronglySorted
    (by_le (λ n, (if bool_decide (num n ≠ 1) then 1 else 0, num n))) l →
  x ∈ l → num x = 1 → ∃ e rest, l = e :: rest ∧ num e = 1.
Proof.
  intros Hs Hx Hone. destruct l as [|e rest]; [by apply elem_of_nil in Hx|].
  exists e, rest. split; [done|].
  apply StronglySorted_inv in Hs as [_ Hall].
  apply elem_of_cons in Hx as [->|Hx]; [done|].
  eapply Forall_forall in Hall; [|done].
  unfold by_le, pair_le in Hall. cbn [fst snd] in Hall.
  rewrite (bool_decide_false (num x ≠ 1)) in Hall
    by (intros Hne; by apply Hne).
  case_bool_decide as He; lia.
Qed.

End TwoPassSort.

Section BuildNodes.
Import PySort BuildStory.

Lemma str_take_length_min n s :
  String.length (Py.str_take n s) = Nat.min n (String.length s).
Proof.
  revert s. induction n as [|n IH]; intros [|c s]; simpl; try done.
  by rewrite IH.
Qed.

Lemma or_else_not_empty s d :
  d ≠ EmptyString → BuildStory.or_else s d ≠ EmptyString.
Proof. by destruct s. Qed.

(** X21: the node that [build_story_nodes] makes of a section has the id
    [section_N] of its number, a text that is not empty, one of the four
    node types, [normal] exactly when it has a choice, and one choice for
    each of the first four choices of the section, with the id of its
    destination as target and a label of 1 to 60 characters. *)
Theorem build_node_shape (section : section) :
  let n := build_node section in
  n_id n = "section_" +:+ Py.str (s_section_number section) ∧
  n_section_number n = s_section_number section ∧
  n_text n ≠ EmptyString ∧
  n_node_type n ∈ ["normal"; "ending_win"; "ending_death"; "ending_neutral"] ∧
  (n_node_type n = "normal" ↔ n_choices n ≠ []) ∧
  Forall2 (λ c oc,
             o_next oc = "section_" +:+ Py.str (c_destination c) ∧
             (1 ≤ String.length (o_text oc) ≤ 60)%nat)
    (take 4 (s_choices section)) (n_choices n).
Proof.
  intros n. subst n. unfold build_node.
  cbn [n_id n_section_number n_text n_node_type n_choices].
  split; [done|]. split; [done|]. split.
  { apply or_else_not_empty, or_else_not_empty. done. }
  set (choices_out := _ <$> take 4 (s_choices section)).
  split; [|split].
  - case_bool_decide; [rewrite !elem_of_cons; auto|].
    case_bool_decide as Hend; [rewrite !elem_of_cons; auto|].
    apply elem_of_cons. by right.
  - destruct (decide (choices_out = [])) as [Hnil|Hcs].
    + rewrite !(bool_decide_false (choices_out ≠ [])) by (by intros []).
      split; [|done]. intros Hnormal. exfalso.
      case_bool_decide as Hending; [done|].
      rewrite Hnormal in Hending.
      rewrite !elem_of_cons, elem_of_nil in Hending.
      by destruct Hending as [?|[?|[?|[]]]].
    + by rewrite !(bool_decide_true (choices_out ≠ [])) by done.
  - subst choices_out. apply Forall2_fmap_r, Forall_Forall2_diag.
    apply Forall_forall. intros c _. unfold compose. cbn [o_next o_text].
    split; [done|]. rewrite str_take_length_min.
    assert (BuildStory.or_else (Py.join " " (Py.words (c_text c)))
              ("Go to section " +:+ Py.str (c_destination c))
            ≠ EmptyString) as Hne by (by apply or_else_not_empty).
    destruct (BuildStory.or_else _ _); [done|]. cbn [String.length]. lia.
Qed.

End BuildNodes.

Section MainOrder.
Import PySort BuildStory.

Lemma append_inj_l (s a b : string) : s +:+ a = s +:+ b → a = b.
Proof. induction s as [|c s IH]; simpl; [done|]. intros [= H]. by apply IH. Qed.

Lemma section_id_inj (a b : Z) :
  "section_" +:+ Py.str a = "section_" +:+ Py.str b → a = b.
Proof. intros H%append_inj_l. by apply (inj pretty) in H. Qed.

Lemma ascending_NoDup sections :
  ascending sections → NoDup (s_section_number <$> sections).
Proof.
  unfold ascending.
  induction 1 as [|n nums _ IH Hall]; constructor; [|done].
  intros Hn. eapply Forall_forall in Hall; [|done]. lia.
Qed.

(** X22: the nodes that [main] writes are the nodes built of the repaired
    sections, ordered by the pair (is not section 1, section number), so
    that a node of section 1 comes first when there is one; their ids are
    pairwise distinct. *)
Theorem main_nodes_ordered (sections : list section) :
  (main sections).1 ≡ₚ build_node <$> (fix_broken_links sections).1 ∧
  StronglySorted (by_le entry_first_key) (main sections).1 ∧
  NoDup (n_id <$> (main sections).1) ∧
  (∀ n, n ∈ (main sections).1 → n_section_number n = 1 →
        ∃ e rest, (main sections).1 = e :: rest ∧ n_section_number e = 1).
Proof.
  pose proof (fix_broken_links_sorted sections) as Hasc.
  assert (Hperm : (main sections).1
                  ≡ₚ build_node <$> (fix_broken_links sections).1).
  { unfold main. destruct (fix_broken_links sections) as [fixed lines].
    cbn [fst]. rewrite (two_pass_perm n_section_number).
    unfold build_story_nodes. by rewrite sorted_on_perm. }
  assert (Hsorted : StronglySorted (by_le entry_first_key) (main sections).1).
  { unfold main. destruct (fix_broken_links sections) as [fixed lines].
    cbn [fst]. apply (two_pass_sorted n_section_number). }
  split; [done|]. split; [done|]. split.
  - rewrite Hperm, <- list_fmap_compose.
    apply ascending_NoDup in Hasc.
    assert (Hids : n_id ∘ build_node
                   = (λ k, "section_" +:+ Py.str k) ∘ s_section_number)
      by done.
    rewrite Hids, list_fmap_compose.
    apply NoDup_fmap_2_strong; [|done].
    intros a b _ _. apply section_id_inj.
  - intros n Hn Hone.
    by apply (entry_first_head n_section_number _ n).
Qed.

End MainOrder.

Section ParseSections.
Import PySort Re Parse.

Lemma header_range line n : header line = Some n → 1 ≤ n ≤ 500.
Proof.
  unfold header. case_bool_decide; [|done].
  case_bool_decide; [|done]. by intros [= <-].
Qed.

Lemma classify_node_spec text choices :
  classify_node text choices ∈ VALID_NODE_TYPES ∧
  (classify_node text choices = "normal" ↔ choices ≠ []).
Proof.
  unfold classify_node, VALID_NODE_TYPES. destruct choices.
  - repeat case_bool_decide; (split; [rewrite !elem_of_cons; auto|done]).
  - split; [rewrite !elem_of_cons; auto|done].
Qed.

Lemma flush_inv lines p : parser_inv lines p → parser_inv lines (flush p).
Proof.
  intros [Hsecs Hcur]. unfold flush.
  destruct (current_num p) as [num|] eqn:Hnum; [|by split].
  split; [|done]. cbn [sections]. apply Forall_app. split; [done|].
  constructor; [|constructor]. split; [|done]. by apply Hcur.
Qed.

Lemma read_line_inv lines p raw_line :
  raw_line ∈ lines → parser_inv lines p →
  parser_inv lines (read_line p raw_line).
Proof.
  intros Hin Hinv. unfold read_line.
  destruct (_ && _); [done|].
  destruct (header (Py.strip raw_line)) as [sec_no|] eqn:Hh.
  - apply flush_inv in Hinv as [Hsecs _]. split; [done|].
    cbn [current_num]. intros n [= <-]. eauto.
  - destruct (current_num p) eqn:Hcur; [|done].
    destruct Hinv as [Hsecs Hc]. split; [done|]. cbn [current_num].
    by rewrite Hcur in Hc.
Qed.

Lemma scan_sections_inv raw_text :
  Forall (parsed_from (lines_of raw_text)) (scan_sections raw_text).
Proof.
  unfold scan_sections.
  assert (Hgen : ∀ ls p, (∀ l, l ∈ ls → l ∈ lines_of raw_text) →
            parser_inv (lines_of raw_text) p →
            parser_inv (lines_of raw_text) (foldl read_line p ls)).
  { induction ls as [|l ls IH]; intros p Hsub Hinv; [done|].
    simpl. apply IH; [intros l' Hl'; apply Hsub; by right|].
    apply read_line_inv; [apply Hsub; by left|done]. }
  apply flush_inv, Hgen; [done|]. split; [constructor|done].
Qed.

(** What [keep_first] holds under a number: the first section of the list
    that has it. *)
Lemma keep_first_lookup secs (unique : gmap Z section) n :
  foldl (λ unique sec,
           match unique !! s_section_number sec with
           | None => <[s_section_number sec := sec]> unique
           | Some _ => unique
           end) unique secs !! n
  = match unique !! n with
    | Some s => Some s
    | None => list_find (λ s, s_section_number s = n) secs ≫= λ r, Some r.2
    end.
Proof.
  revert unique. induction secs as [|x secs IH]; intros unique.
  - simpl. by destruct (unique !! n).
  - cbn [foldl]. rewrite IH. cbn [list_find].
    destruct (unique !! s_section_number x) as [y|] eqn:Hx.
    + destruct (unique !! n) as [s|] eqn:Hn; [done|].
      destruct (decide (s_section_number x = n)) as [Heq|Hne];
        [congruence|].
      by destruct (list_find _ secs) as [[i s]|].
    + destruct (decide (s_section_number x = n)) as [<-|Hne].
      * by rewrite lookup_insert_eq, Hx.
      * rewrite lookup_insert_ne by done.
        destruct (unique !! n); [done|].
        by destruct (list_find _ secs) as [[i s]|].
Qed.

Lemma keep_first_spec secs n s :
  keep_first secs !! n = Some s
  ↔ ∃ i, secs !! i = Some s ∧ s_section_number s = n ∧
         ∀ j y, secs !! j = Some y → (j < i)%nat → s_section_number y ≠ n.
Proof.
  unfold keep_first. rewrite keep_first_lookup, lookup_empty.
  destruct (list_find _ secs) as [[i x]|] eqn:Hfind; cbn.
  - apply list_find_Some in Hfind as (Hi & Hx & Hfirst). split.
    + intros [= <-]. exists i. done.
    + intros (i' & Hi' & Hn & Hfirst').
      destruct (Nat.lt_total i i') as [Hlt|[->|Hgt]].
      * by destruct (Hfirst' i x Hi Hlt).
      * congruence.
      * by destruct (Hfirst i' s Hi' Hgt).
  - split; [done|]. intros (i & Hi & Hn & _). exfalso.
    apply list_find_None in Hfind.
    apply (proj1 (Forall_forall _ _) Hfind s); [|done].
    by eapply list_elem_of_lookup_2.
Qed.

(** X23: the sections that [parse_sections] returns stand in strictly
    increasing order of section number; each has a number between 1 and
    500 that a line of the text announces, the choices that
    [extract_choices] finds in its text and the node type that
    [classify_node] gives them, [normal] exactly when it has a choice; and
    they are the sections read from the text that are the first with
    their number. *)
Theorem parse_sections_shape (raw_text : string) :
  StronglySorted Z.lt (s_section_number <$> parse_sections raw_text) ∧
  Forall (λ s, 1 ≤ s_section_number s ≤ 500 ∧
               parsed_from (lines_of raw_text) s ∧
               s_node_type s ∈ VALID_NODE_TYPES ∧
               (s_node_type s = "normal" ↔ s_choices s ≠ []))
    (parse_sections raw_text) ∧
  (∀ s, s ∈ parse_sections raw_text
        ↔ ∃ i, scan_sections raw_text !! i = Some s ∧
               ∀ j y, scan_sections raw_text !! j = Some y → (j < i)%nat →
                      s_section_number y ≠ s_section_number s).
Proof.
  unfold parse_sections.
  set (secs := scan_sections raw_text).
  assert (Hmem : ∀ s, s ∈ omap (λ n, keep_first secs !! n)
                          (sorted_on (λ n, n) (elements (dom (keep_first secs))))
                 ↔ ∃ i, secs !! i = Some s ∧
                        ∀ j y, secs !! j = Some y → (j < i)%nat →
                               s_section_number y ≠ s_section_number s).
  { intros s. rewrite list_elem_of_omap. split.
    - intros (n & _ & (i & Hi & <- & Hfirst)%keep_first_spec). eauto.
    - intros (i & Hi & Hfirst).
      assert (keep_first secs !! s_section_number s = Some s) as Hs
        by (apply keep_first_spec; eauto).
      exists (s_section_number s). split; [|done].
      unfold sorted_on. rewrite stable_sort_perm.
      apply elem_of_elements, elem_of_dom. eauto. }
  split; [|split; [|done]].
  - rewrite (fmap_omap_keys _ s_section_number); [apply sorted_keys_ascending|].
    intros n Hn. unfold sorted_on in Hn. rewrite stable_sort_perm in Hn.
    apply elem_of_elements, elem_of_dom in Hn as [s Hs].
    exists s. split; [done|].
    by apply keep_first_spec in Hs as (_ & _ & Hn & _).
  - apply Forall_forall. intros s (i & Hi & _)%Hmem.
    pose proof (scan_sections_inv raw_text) as Hinv.
    eapply Forall_forall in Hinv; [|by eapply list_elem_of_lookup_2].
    destruct Hinv as ((raw_line & Hline & Hh) & Hc & Ht).
    split; [by eapply header_range|]. split; [by split; eauto|].
    rewrite Ht. apply classify_node_spec.
Qed.

End ParseSections.

Section ParseChoices.
Import Re Parse.

Lemma add_choice_inv label dest acc :
  found_inv acc → found_inv (add_choice label dest acc).
Proof.
  intros (Hok & Hnd & Hseen). unfold add_choice.
  set (cleaned := Py.strip_chars _ _).
  set (label' := match cleaned with EmptyString => _ | _ => cleaned end).
  assert (label' ≠ EmptyString) as Hne by (subst label'; by destruct cleaned).
  case_bool_decide as Hrange; [|done]. cbn [negb].
  case_bool_decide as Hin; [done|].
  split; [|split]; cbn [choices seen].
  - apply Forall_app. split; [done|]. constructor; [by split|constructor].
  - rewrite fmap_app. apply NoDup_app. split; [done|].
    split; [|apply NoDup_singleton].
    intros p (c & -> & Hc)%list_elem_of_fmap Hp.
    cbn in Hp. apply list_elem_of_singleton in Hp.
    apply Hin. change (label', dest) with (choice_pair (Choice label' dest)).
    rewrite <- Hp. by apply Hseen.
  - intros c [Hc|Hc]%elem_of_app.
    + apply elem_of_union. right. by apply Hseen.
    + apply list_elem_of_singleton in Hc as ->.
      apply elem_of_union. left. by apply elem_of_singleton.
Qed.

Lemma scan_lines_inv prev lines acc :
  found_inv acc → found_inv (scan_lines prev lines acc).
Proof.
  revert prev acc. induction lines as [|line rest IH]; intros prev acc Hinv;
    [done|].
  simpl. apply IH.
  destruct (Re.search ANY_NUM_RE line); [|done].
  case_bool_decide; [|done]. by apply add_choice_inv.
Qed.

(** X24: every choice that [extract_choices] of parse.py returns has a
    destination between 1 and 500 and a label that is not empty, and no
    two of them have the same label and destination. *)
Theorem parse_extract_choices_bounds (section_text : string) :
  Forall (λ c, 1 ≤ c_destination c ≤ 500 ∧ c_text c ≠ EmptyString)
    (extract_choices section_text) ∧
  NoDup (choice_pair <$> extract_choices section_text).
Proof.
  unfold extract_choices.
  set (matches := Re.finditer _ _).
  assert (Hfold : ∀ ms acc, found_inv acc →
            found_inv (foldl (λ acc m,
                         add_choice (Re.group 1 m)
                           (Py.int_digits (Re.group 2 m)) acc) acc ms)).
  { induction ms as [|m ms IH]; intros acc Hinv; [done|].
    simpl. by apply IH, add_choice_inv. }
  assert (Hacc : found_inv
            (foldl (λ acc m,
                      add_choice (Re.group 1 m)
                        (Py.int_digits (Re.group 2 m)) acc)
               (Found [] ∅) matches)).
  { apply Hfold. split; [constructor|]. split; [constructor|].
    by intros c ?%elem_of_nil. }
  set (acc := foldl _ _ matches) in *.
  destruct (choices acc) eqn:Hc.
  - set (lines := _ <$> List.filter _ _).
    destruct (scan_lines_inv None lines acc Hacc) as (Hok & Hnd & _).
    by split.
  - destruct Hacc as (Hok & Hnd & _). rewrite Hc in Hok, Hnd. by split.
Qed.

End ParseChoices.

Section RepairLabels.
Import RepairStoryText.

Lemma rev_app_length s1 s2 :
  String.length (String.rev_app s1 s2)
  = (String.length s1 + String.length s2)%nat.
Proof.
  revert s2. induction s1 as [|c s1 IH]; intros s2; simpl; [done|].
  rewrite IH. simpl. lia.
Qed.

Lemma rev_length s : String.length (String.rev s) = String.length s.
Proof. unfold String.rev. rewrite rev_app_length. simpl. lia. Qed.

Lemma lstrip_by_length p s :
  (String.length (Py.lstrip_by p s) ≤ String.length s)%nat.
Proof.
  induction s as [|c s IH]; simpl; [done|].
  destruct (p c); simpl; lia.
Qed.

Lemma rstrip_by_length p s :
  (String.length (Py.rstrip_by p s) ≤ String.length s)%nat.
Proof.
  unfold Py.rstrip_by. rewrite rev_length.
  etrans; [apply lstrip_by_length|]. by rewrite rev_length.
Qed.

Lemma append_length s1 s2 :
  String.length (s1 +:+ s2) = (String.length s1 + String.length s2)%nat.
Proof. induction s1 as [|c s1 IH]; simpl; [done|]. by rewrite IH. Qed.

(** The label that [clean_choice_label] returns is never empty and never
    longer than 60 characters. *)
Lemma clean_choice_label_bounds label destination :
  (3 ≤ String.length (clean_choice_label label destination) ≤ 60)%nat.
Proof.
  unfold clean_choice_label.
  set (text := match _ with EmptyString => _ | String c t => _ end).
  set (text' := if bool_decide (_ ∨ _) then _ else text).
  assert (8 ≤ String.length text')%nat as Hlen.
  { subst text'. case_bool_decide as Hshort.
    - rewrite !append_length. simpl. lia.
    - lia. }
  case_bool_decide as Hlong; [|lia].
  rewrite append_length. cbn [String.length].
  pose proof (rstrip_by_length Py.isspace (Py.str_take 57 text')) as Hr.
  pose proof (str_take_length 57 text'). unfold Py.rstrip. lia.
Qed.

End RepairLabels.

Section RepairChoices.
Import RepairStoryText.

Lemma scan_matches_labels ms seen_dest found :
  Forall (λ p, label_ok p.1) found →
  Forall (λ p, label_ok p.1) (scan_matches ms seen_dest found).
Proof.
  revert seen_dest found.
  induction ms as [|m ms IH]; intros seen_dest found Hfound; [done|].
  cbn [scan_matches].
  destruct (token_to_int _) as [d|]; [|by apply IH].
  destruct (negb _); [by apply IH|].
  case_bool_decide; [by apply IH|].
  assert (Forall (λ p, label_ok p.1)
            (found ++ [(clean_choice_label (Py.strip (Re.group 1 m)) d, d)]))
    as Hfound'.
  { apply Forall_app. split; [done|]. constructor; [|constructor].
    cbn. unfold label_ok.
    pose proof (clean_choice_label_bounds (Py.strip (Re.group 1 m)) d). lia. }
  case_bool_decide; [done|]. by apply IH.
Qed.

(** X25: whatever the text, [extract_choices] of repair_story_text.py
    returns at most four pairs, with pairwise distinct destinations
    between 1 and 500, in the order of the matches they are read from,
    and each with a label of 1 to 60 characters. *)
Theorem repair_extract_choices_shape (raw_text : string) :
  let out := extract_choices raw_text in
  (length out ≤ 4)%nat ∧ NoDup out.*2 ∧ Forall in_book out.*2 ∧
  Forall (λ p, label_ok p.1) out ∧
  out.*2 `sublist_of`
    omap match_destination
      (Re.finditer CHOICE_SENTENCE_RE
         (normalize_ws (normalize_text raw_text))).
Proof.
  intros out.
  destruct (extract_choices_bounds raw_text) as (Hlen & Hnd & Hin & Hsub).
  split; [done|]. split; [done|]. split; [done|]. split; [|done].
  subst out. unfold extract_choices. apply scan_matches_labels. constructor.
Qed.

Lemma str_take_all n s :
  (String.length s ≤ n)%nat → Py.str_take n s = s.
Proof.
  revert s. induction n as [|n IH]; intros [|c s]; simpl; try done; [lia|].
  intros Hlen. rewrite IH; [done|lia].
Qed.

Lemma infer_title_not_empty section_number text :
  infer_title section_number text ≠ EmptyString.
Proof.
  unfold infer_title.
  repeat match goal with
         | |- context [if ?b then _ else _] => destruct b
         end; done.
Qed.

Lemma repair_node_type_valid text has_choices :
  infer_node_type text has_choices ∈ VALID_NODE_TYPES ∧
  (infer_node_type text has_choices = "normal" ↔ has_choices = true).
Proof.
  unfold infer_node_type, VALID_NODE_TYPES. destruct has_choices.
  - split; [rewrite !elem_of_cons; auto|done].
  - repeat match goal with
           | |- context [if ?b then _ else _] => destruct b
           end; (split; [rewrite !elem_of_cons; auto|done]).
Qed.

Lemma or_default_not_empty s d :
  d ≠ EmptyString → or_default s d ≠ EmptyString.
Proof. by destruct s. Qed.

(** X26: the payload that [extract_section_payload] returns for a cleaned
    text and the choices found has the number asked for, that text, a
    title that is not empty, one row for each of the first four choices
    with its destination and a label of 1 to 60 characters, and the type
    [normal] exactly when there is a choice; the node that [build_story]
    makes of it has the id [section_N], a title and a text that are not
    empty, the type of the payload and the rows as its choices, label by
    label. *)
Theorem section_payload_shape (section_number : Z) (cleaned_text : string)
    (choices : list (string * Z)) :
  let p := section_payload section_number cleaned_text choices in
  let n := emit_node (section_number, p) in
  p_section_number p = section_number ∧ p_text p = cleaned_text ∧
  p_title p ≠ EmptyString ∧
  Forall2 (λ c r, row_destination r = c.2 ∧ label_ok (row_text r))
    (take 4 choices) (p_choices p) ∧
  (p_node_type p = "normal" ↔ choices ≠ []) ∧
  n_id n = "section_" +:+ Py.str section_number ∧
  n_title n ≠ EmptyString ∧ n_text n ≠ EmptyString ∧
  n_node_type n = p_node_type p ∧
  Forall2 (λ r c, c_next c = "section_" +:+ Py.str (row_destination r) ∧
                  c_text c = row_text r)
    (p_choices p) (n_choices n).
Proof.
  intros p n.
  assert (Hrows : Forall2 (λ c r, row_destination r = c.2
                                  ∧ label_ok (row_text r))
                    (take 4 choices) (p_choices p)).
  { subst p. cbn [section_payload p_choices].
    apply Forall2_fmap_r, Forall_Forall2_diag, Forall_forall.
    intros c _. unfold compose. cbn. split; [done|]. unfold label_ok.
    pose proof (clean_choice_label_bounds c.1 c.2). lia. }
  assert (Htype : p_node_type p = "normal" ↔ choices ≠ []).
  { subst p. cbn [section_payload p_node_type].
    rewrite (proj2 (repair_node_type_valid _ _)).
    by rewrite bool_decide_eq_true. }
  assert (Hlen : (length (p_choices p) ≤ 4)%nat).
  { rewrite <- (Forall2_length _ _ _ Hrows), length_take. lia. }
  split; [done|]. split; [done|].
  split; [apply infer_title_not_empty|].
  split; [done|]. split; [done|].
  subst n. unfold emit_node.
  cbn [fst snd n_id n_title n_text n_node_type n_choices].
  split; [done|].
  split; [by apply or_default_not_empty|].
  split; [by apply or_default_not_empty|].
  rewrite (take_ge (p_choices p)) by done.
  split.
  - rewrite (bool_decide_true (p_node_type p ∈ VALID_NODE_TYPES))
      by (subst p; apply (repair_node_type_valid cleaned_text)).
    case_bool_decide as Hcs; [|done].
    symmetry. apply Htype. intros ->. apply Hcs.
    apply Forall2_length in Hrows. rewrite take_nil in Hrows.
    destruct (p_choices p); done.
  - apply Forall2_fmap_r, Forall_Forall2_diag, Forall_forall.
    intros r Hr. unfold compose. cbn [c_next c_text]. split; [done|].
    apply str_take_all.
    destruct (Forall2_elem_r _ _ _ _ Hrows Hr) as (c & _ & _ & Hok).
    unfold label_ok in Hok. lia.
Qed.

End RepairChoices.

Section RepairLog.
Import RepairStoryText.

Lemma resolve_choice_log source c st :
  (row_destination c ∈ existing_sections st ∧
   resolve_choice source c st = (c, st)) ∨
  ((row_destination c ∉ existing_sections st) ∧
   ∃ line, link_changes (resolve_choice source c st).2
           = link_changes st ++ [line]).
Proof.
  destruct (resolve_choice_cases source c st)
    as [[Hin H]|[(Hout & remap & _ & _ & _ & H)|(Hout & _ & H)]].
  - by left.
  - right. split; [done|]. rewrite H. by eexists.
  - right. split; [done|]. rewrite H. by eexists.
Qed.

Lemma resolve_choices_noop source cs st :
  rows_in (existing_sections st) cs → resolve_choices source cs st = (cs, st).
Proof.
  induction 1 as [|c cs Hc _ IH]; [done|].
  simpl. destruct (resolve_choice_log source c st) as [[_ ->]|[Hout _]];
    [|done].
  by rewrite IH.
Qed.

Lemma resolve_choices_log source cs st :
  ∃ more,
    link_changes (resolve_choices source cs st).2 = link_changes st ++ more ∧
    (more = [] → rows_in (existing_sections st) cs).
Proof.
  revert st. induction cs as [|c cs IH]; intros st.
  - exists []. simpl. rewrite app_nil_r. split; [done|]. constructor.
  - simpl. destruct (resolve_choice_log source c st)
      as [[Hin ->]|[Hout [line Hline]]].
    + destruct (IH st) as (more & Hmore & Hres).
      destruct (resolve_choices source cs st) as [cs' st2]. cbn in *.
      exists more. split; [done|]. intros Hnil. constructor; [done|].
      by apply Hres.
    + destruct (resolve_choice source c st) as [c' st1]. cbn in Hline.
      destruct (IH st1) as (more & Hmore & _).
      destruct (resolve_choices source cs st1) as [cs' st2]. cbn in *.
      exists (line :: more). split.
      * by rewrite Hmore, Hline, <- app_assoc.
      * done.
Qed.

Lemma resolve_nodes_noop entries st :
  Forall (λ e, rows_in (existing_sections st) (p_choices e.2)) entries →
  resolve_nodes entries st = (entries, st).
Proof.
  induction 1 as [|[key node] entries He _ IH]; [done|].
  simpl. rewrite resolve_choices_noop by done. rewrite IH. by destruct node.
Qed.

Lemma resolve_nodes_log entries st :
  ∃ more,
    link_changes (resolve_nodes entries st).2 = link_changes st ++ more ∧
    (more = [] →
     Forall (λ e, rows_in (existing_sections st) (p_choices e.2)) entries).
Proof.
  revert st. induction entries as [|[key node] entries IH]; intros st.
  - exists []. simpl. rewrite app_nil_r. split; [done|]. constructor.
  - simpl.
    destruct (resolve_choices_log (p_section_number node) (p_choices node) st)
      as (more1 & Hmore1 & Hres1).
    destruct (resolve_choices _ (p_choices node) st) as [cs' st1] eqn:Hcs.
    cbn in Hmore1.
    destruct (IH st1) as (more2 & Hmore2 & Hres2).
    destruct (resolve_nodes entries st1) as [rest' st2]. cbn in *.
    exists (more1 ++ more2). split.
    + by rewrite Hmore2, Hmore1, <- app_assoc.
    + intros [-> ->]%app_eq_nil. specialize (Hres1 eq_refl).
      rewrite (resolve_choices_noop _ _ _ Hres1) in Hcs.
      injection Hcs as <- <-. constructor; [done|]. by apply Hres2.
Qed.

(** X27: the repair loop of [build_story] only appends to the change log,
    and it appends nothing exactly when every choice of [parsed] leads to
    a key of [parsed]. *)
Theorem build_story_log (parsed : list (Z * payload)) (log : list string) :
  ∃ more,
    (build_story parsed log).2 = log ++ more ∧
    (more = [] ↔
     ∀ e, e ∈ parsed → rows_in (list_to_set parsed.*1) (p_choices e.2)).
Proof.
  rewrite build_story_repaired. cbn [snd]. unfold repaired.
  set (entries := PySort.sorted_on _ parsed).
  set (st0 := RepairState (list_to_set parsed.*1) [] log).
  destruct (resolve_nodes_log entries st0) as (more & Hmore & Hres).
  assert (Hperm : entries ≡ₚ parsed) by apply sorted_on_perm.
  destruct (resolve_nodes entries st0) as [resolved st] eqn:Hrn.
  cbn in Hmore |- *. exists more. split; [done|]. split.
  - intros Hnil e He. specialize (Hres Hnil).
    rewrite <- Hperm in He. by eapply Forall_forall in Hres.
  - intros Hall.
    rewrite resolve_nodes_noop in Hrn.
    + injection Hrn as _ <-. cbn in Hmore.
      rewrite <- (app_nil_r log) in Hmore at 1.
      by apply app_inv_head in Hmore.
    + apply Forall_forall. intros e He. apply Hall. by rewrite <- Hperm.
Qed.

End RepairLog.

Section RepairOrder.
Import PySort RepairStoryText.

Lemma resolve_choice_fresh E0 source c st :
  tracked E0 st → fresh_stubs E0 st →
  fresh_stubs E0 (resolve_choice source c st).2.
Proof.
  intros [Hex _] [Hnd Hfresh].
  destruct (resolve_choice_cases source c st)
    as [[Hin ->]|[(Hout & remap & _ & _ & _ & ->)|(Hout & _ & ->)]];
    [done|done|].
  unfold fresh_stubs. cbn [snd added]. rewrite Hex in Hout.
  apply not_elem_of_union in Hout as [HE0 Hadded].
  rewrite elem_of_list_to_set in Hadded.
  split.
  - rewrite fmap_app. apply NoDup_app. split; [done|].
    split; [|apply NoDup_singleton].
    intros k Hk Hk'. cbn in Hk'. apply list_elem_of_singleton in Hk'.
    by subst k.
  - intros k. rewrite fmap_app.
    intros [Hk|Hk]%elem_of_app; [by apply Hfresh|].
    cbn in Hk. apply list_elem_of_singleton in Hk. by subst k.
Qed.

Lemma resolve_choices_fresh E0 source cs st :
  tracked E0 st → fresh_stubs E0 st →
  fresh_stubs E0 (resolve_choices source cs st).2.
Proof.
  revert st. induction cs as [|c cs IH]; intros st Htr Hfr; [done|].
  simpl. pose proof (resolve_choice_fresh E0 source c st Htr Hfr) as Hfr1.
  destruct (resolve_choice source c st) as [c' st1] eqn:Hc.
  apply resolve_choice_tracked with (E0 := E0) in Hc as (Htr1 & _); [|done].
  specialize (IH st1 Htr1 Hfr1).
  by destruct (resolve_choices source cs st1) as [cs' st2].
Qed.

Lemma resolve_nodes_fresh E0 entries st :
  tracked E0 st → fresh_stubs E0 st →
  fresh_stubs E0 (resolve_nodes entries st).2.
Proof.
  revert st. induction entries as [|[key node] entries IH]; intros st Htr Hfr;
    [done|].
  simpl.
  pose proof (resolve_choices_fresh E0 (p_section_number node)
                (p_choices node) st Htr Hfr) as Hfr1.
  destruct (resolve_choices _ (p_choices node) st) as [cs' st1] eqn:Hcs.
  apply resolve_choices_tracked with (E0 := E0) in Hcs as (Htr1 & _); [|done].
  specialize (IH st1 Htr1 Hfr1).
  by destruct (resolve_nodes entries st1) as [rest' st2].
Qed.

Lemma repaired_keys parsed log :
  NoDup parsed.*1 → NoDup (repaired parsed log).1.*1.
Proof.
  intros Hnd. unfold repaired.
  set (entries := sorted_on _ parsed).
  set (st0 := RepairState (list_to_set parsed.*1) [] log).
  assert (Htr0 : tracked (list_to_set parsed.*1) st0).
  { split; [|constructor]. cbn. by rewrite (right_id_L ∅ (∪)). }
  assert (Hfr0 : fresh_stubs (list_to_set parsed.*1) st0).
  { split; [constructor|]. by intros k ?%elem_of_nil. }
  pose proof (resolve_nodes_fresh _ entries st0 Htr0 Hfr0) as [Hnd' Hfresh].
  destruct (resolve_nodes entries st0) as [resolved st] eqn:Hrn.
  apply resolve_nodes_tracked with (E0 := list_to_set parsed.*1) in Hrn
    as (_ & _ & Hsame); [|done].
  cbn [fst snd] in *.
  assert (resolved.*1 = entries.*1) as Hkeys.
  { clear -Hsame. induction Hsame as [|e e' l l' He _ IH]; [done|].
    rewrite !fmap_cons, IH. f_equal. apply He. }
  rewrite fmap_app, Hkeys. apply NoDup_app. split.
  - subst entries. unfold sorted_on. by rewrite stable_sort_perm.
  - split; [|done]. intros k Hk Hk'. apply (Hfresh k Hk').
    apply elem_of_list_to_set. subst entries. unfold sorted_on in Hk.
    by rewrite stable_sort_perm in Hk.
Qed.

Lemma retyped_keys l l' :
  Forall2 retyped l l' →
  n_id <$> l' = n_id <$> l ∧ n_section_number <$> l' = n_section_number <$> l.
Proof.
  induction 1 as [|n n' l l' (Hid & Hnum & _) _ [IH1 IH2]]; [done|].
  rewrite !fmap_cons, IH1, IH2, Hid, Hnum. done.
Qed.

Lemma sorted_by_key_transfer {A} (key : A → Z * Z) (l l' : list A) :
  key <$> l' = key <$> l →
  StronglySorted (by_le key) l → StronglySorted (by_le key) l'.
Proof.
  intros Hkeys Hs. revert l' Hkeys.
  induction Hs as [|x l _ IH Hall]; intros [|x' l'] Hkeys; try done.
  { constructor. }
  rewrite !fmap_cons in Hkeys. injection Hkeys as Hx Hl.
  constructor; [by apply IH|].
  apply Forall_forall. intros y' Hy'.
  apply list_elem_of_lookup in Hy' as [i Hi].
  assert (is_Some (l !! i)) as [y Hy].
  { apply lookup_lt_is_Some. apply lookup_lt_Some in Hi.
    apply (f_equal length) in Hl. rewrite !length_fmap in Hl. lia. }
  assert (key y' = key y) as Hyy.
  { apply (f_equal (λ k, k !! i)) in Hl.
    rewrite !list_lookup_fmap, Hi, Hy in Hl. by injection Hl. }
  unfold by_le. rewrite Hx, Hyy.
  eapply Forall_forall in Hall; [exact Hall|].
  by eapply list_elem_of_lookup_2.
Qed.

(** X28: the nodes that [build_story] returns are ordered by the pair (is
    not section 1, section number), so that a node of section 1 comes
    first when there is one, and their ids are pairwise distinct, the
    keys of [parsed] being distinct. *)
Theorem build_story_ordered (parsed : list (Z * payload))
    (log : list string) :
  let nodes := (build_story parsed log).1 in
  StronglySorted (by_le entry_first_key) nodes ∧
  (∀ n, n ∈ nodes → n_section_number n = 1 →
        ∃ e rest, nodes = e :: rest ∧ n_section_number e = 1) ∧
  (NoDup parsed.*1 → NoDup (n_id <$> nodes)).
Proof.
  intros nodes. subst nodes. rewrite build_story_repaired. cbn [fst].
  set (emitted := emit_node <$> sorted_on fst (repaired parsed log).1).
  pose proof (ensure_win_retyped (order_nodes emitted)) as Hre.
  apply retyped_keys in Hre as [Hids Hnums].
  assert (Hsorted : StronglySorted (by_le entry_first_key)
                      (ensure_win (order_nodes emitted))).
  { apply (sorted_by_key_transfer _ (order_nodes emitted)).
    - assert (Hkey : ∀ l : list node,
                entry_first_key <$> l
                = (λ k, (if bool_decide (k ≠ 1) then 1 else 0, k))
                    <$> (n_section_number <$> l))
        by (intros l; by rewrite <- list_fmap_compose).
      by rewrite !Hkey, Hnums.
    - apply (two_pass_sorted n_section_number). }
  split; [done|]. split.
  - intros n Hn Hone.
    by apply (entry_first_head n_section_number _ n).
  - intros Hnd. rewrite Hids, order_nodes_perm. subst emitted.
    rewrite <- list_fmap_compose.
    assert (Hid : n_id ∘ emit_node = (λ k, "section_" +:+ Py.str k) ∘ fst)
      by done.
    rewrite Hid, list_fmap_compose.
    apply NoDup_fmap_2_strong.
    + intros a b _ _. apply section_id_inj.
    + unfold sorted_on. rewrite stable_sort_perm. by apply repaired_keys.
Qed.

End RepairOrder.

(** ** Reading back the ids the pipeline writes *)

Section RoundTrip.



















(** The separators 28..31 are white space for [strip], not for [int]:
    [auto_fix] raises on an id that ends in one of them and a digit. *)
Example int_of_str_separator :
  Py.strip (String "028" "7") = "7" ∧
  Py.int_of_str (String "028" "7") = None ∧
  Py.int_of_str (String "009" "7 ") = Some 7 ∧
  Validate.auto_fix
    [Validate.Node (Some (String "s" (String "_" (String "028" "7"))))
       (Some 7) None None None []] = None.
Proof. by vm_compute. Qed.





End RoundTrip.

(** ** The stubs in the output of the repair *)

Section StubNodes.
Import RepairStoryText.





















End StubNodes.
